(** * Iterated register coalescing (Air) and constant motion (B3)

    A shallow embedding of
      Source/JavaScriptCore/b3/air/AirIteratedRegisterCoalescing.cpp
      Source/JavaScriptCore/b3/B3MoveConstants.cpp
    together with the properties of the design document that are checked
    against it.

    Conventions.
    - A C++ [int] or [unsigned] is a [Z]; conversions to [unsigned] and the
      wrap-around of [++]/[--] are written out with [mod 2^32].
    - A [Vector] indexed by [AbsoluteTmpHelper<type>::absoluteIndex] is a
      [gmap Z _] whose missing entries read as the zero-initialised element.
      The source vectors are declared [UnsafeVectorOverflow] (no bounds
      check); the model keeps their common length in one field.
    - A [HashSet] or [ListHashSet] that the code iterates is a duplicate-free
      list in iteration order; [add] appends.  The order in which a
      [WTF::HashSet] is iterated is not fixed by the source, and no property
      below relies on more of it than it states.  The interference edge set
      is only tested for membership and is a [gset].
    - An [Inst*] is the address of the instruction together with the
      instruction as it is when the graph is built.
    - A loop that may not terminate takes fuel and returns [None] when the
      fuel is used up.
    - Debug output ([debug], [traceDebug]) and assertions are left out; the
      branch that [coalesce] would trace is returned next to its state. *)

From Stdlib Require Import ZArith Lia.
From stdpp Require Import gmap list.

Local Open Scope Z_scope.

(** ** Low-level program model *)

Module Air.

(** [Arg::Type]: the register bank. *)
Inductive ArgType := GP | FP.

#[global] Instance ArgType_eq_dec : EqDecision ArgType.
Proof. solve_decision. Defined.

(** Modelled from the spec: AirArg.h is not part of the source tree.  The
    roles are "Use, Def, UseDef, and their address-only counterparts";
    [isUse] holds of the roles that read the argument and [isDef] of the
    roles that write it. *)
Inductive Role := Use | Def | UseDef | UseAddr.

#[global] Instance Role_eq_dec : EqDecision Role.
Proof. solve_decision. Defined.

Definition isUse (role : Role) : bool :=
  match role with
  | Use | UseDef => true
  | Def | UseAddr => false
  end.

Definition isDef (role : Role) : bool :=
  match role with
  | Def | UseDef => true
  | Use | UseAddr => false
  end.

(** The target machine: how many registers each bank has (they are the
    precolored temporaries) and which of them the allocator may hand out,
    in priority order ([regsInPriorityOrder], AirRegisterPriority.h);
    [moveAdmitsStack] is the row of the generated opcode table that says
    which slots of the bank's move instruction admit a stack operand. *)
Record Target := {
  numberOfGPRs : Z;
  numberOfFPRs : Z;
  regsInPriorityOrder : ArgType → list Z;
  moveAdmitsStack : ArgType → nat → bool
}.

(** Modelled from the spec: AirTmp.h is not part of the source tree.  A
    temporary is its internal value, a C++ [int]: positive for GP, negative
    for FP, zero for the null [Tmp()]; "precolored registers occupy the low
    indices; allocatable temporaries occupy the high indices".  A [Reg] is
    identified with the internal value of its precolored temporary, so
    [Tmp(reg)] and [tmp.reg()] are the identity. *)
Abbreviation Tmp := Z (only parsing).
Abbreviation Reg := Z (only parsing).

Definition isGP (tmp : Tmp) : bool := 0 <? tmp.
Definition isFP (tmp : Tmp) : bool := tmp <? 0.

Definition isReg (target : Target) (tmp : Tmp) : bool :=
  (isGP tmp && (tmp <=? numberOfGPRs target))
  || (isFP tmp && (- numberOfFPRs target <=? tmp)).

Definition gpTmpForIndex (target : Target) (index : Z) : Tmp :=
  numberOfGPRs target + 1 + index.

Definition fpTmpForIndex (target : Target) (index : Z) : Tmp :=
  - numberOfFPRs target - 1 - index.

(** The bank of a temporary argument, [Arg::type()]. *)
Definition tmpType (tmp : Tmp) : ArgType := if isGP tmp then GP else FP.

(** Conversion of an [int] to [unsigned]. *)
Definition toUnsigned (v : Z) : Z := v mod 2 ^ 32.

(** Conversion of an [unsigned] to [int], as in [Tmp::tmpForInternalValue]. *)
Definition toInt (v : Z) : Z :=
  let w := v mod 2 ^ 32 in if w <? 2 ^ 31 then w else w - 2 ^ 32.

Definition isInt (v : Z) : Prop := - 2 ^ 31 ≤ v < 2 ^ 31.

Inductive Opcode := Move | MoveDouble | Oops | Patch (kind : N).

#[global] Instance Opcode_eq_dec : EqDecision Opcode.
Proof. solve_decision. Defined.

(** The kinds of [Arg] the allocator meets. *)
Inductive Arg :=
| ArgTmp (tmp : Tmp)
| ArgImm (value : Z)
| ArgAddr (base : Tmp) (offset : Z)
| ArgStack (slot : N).

#[global] Instance Arg_eq_dec : EqDecision Arg.
Proof. solve_decision. Defined.

Definition argIsTmp (arg : Arg) : bool :=
  match arg with ArgTmp _ => true | _ => false end.

(** [arg.tmp()]; the null temporary when the argument is no temporary. *)
Definition argTmp (arg : Arg) : Tmp :=
  match arg with ArgTmp tmp => tmp | _ => 0 end.

(** One argument slot of an instruction.  The role of a slot, its bank and
    whether it admits a stack operand come from the generated opcode tables,
    which are not in the source tree; the model stores them with the slot. *)
Record Operand := {
  arg : Arg;
  role : Role;
  type : ArgType;
  admitsStack : bool
}.

#[global] Instance Operand_eq_dec : EqDecision Operand.
Proof. solve_decision. Defined.

Record Inst := {
  opcode : Opcode;
  args : list Operand;
  origin : N
}.

#[global] Instance Inst_eq_dec : EqDecision Inst.
Proof. solve_decision. Defined.

(** The triples [(tmp, role, bank)] that [Arg::forEachTmp] visits in one
    slot: a temporary argument under the slot's role and bank, the base of
    an address as a GP use, nothing otherwise. *)
Definition operandTmps (o : Operand) : list (Tmp * Role * ArgType) :=
  match arg o with
  | ArgTmp tmp => [(tmp, role o, type o)]
  | ArgAddr base _ => [(base, Use, GP)]
  | _ => []
  end.

(** [Inst::forEachTmp] as the sequence of its visits. *)
Definition instTmps (inst : Inst) : list (Tmp * Role * ArgType) :=
  concat (operandTmps <$> args inst).

(** [inst.args[i]], with an immediate 0 standing for a missing slot. *)
Definition argAt (inst : Inst) (i : nat) : Arg :=
  match args inst !! i with Some o => arg o | None => ArgImm 0 end.

(** An [Inst*]: the address of the instruction and what it points to. *)
Record InstPtr := {
  address : nat * nat;
  pointee : Inst
}.

#[global] Instance InstPtr_eq_dec : EqDecision InstPtr.
Proof. solve_decision. Defined.

End Air.

Export Air.

(** ** Containers *)

Module HashSet.
Section Ops.
Context {A : Type} `{EqDecision A}.

(** [HashSet::contains]. *)
Definition contains (x : A) (l : list A) : bool := bool_decide (x ∈ l).

(** [HashSet::add]; [isNewEntry] is [negb (contains x l)]. *)
Definition add (x : A) (l : list A) : list A :=
  if contains x l then l else l ++ [x].

(** [HashSet::remove]; its result is [contains x l]. *)
Definition remove (x : A) (l : list A) : list A :=
  filter (λ y, y ≠ x) l.

(** [HashSet::add(begin, end)]. *)
Definition addAll (xs : list A) (l : list A) : list A :=
  foldl (λ l x, add x l) l xs.

(** [Vector::takeLast] and [ListHashSet::takeLast]. *)
Definition takeLast (l : list A) : option (A * list A) :=
  match last l with
  | Some x => Some (x, removelast l)
  | None => None
  end.

End Ops.
End HashSet.

(** ** The allocator of one bank *)

Module IRC.

(** The members of [IteratedRegisterCoalescingAllocator<type>].
    [m_tmpArraySize] is the common length [tmpArraySize(code)] that the
    constructor gives the per-temporary vectors ([m_degrees.size()]). *)
Record Allocator := {
  m_tmpArraySize : Z;
  m_numberOfRegisters : Z;
  m_interferenceEdges : gset Z;
  m_adjacencyList : gmap Z (list Tmp);
  m_degrees : gmap Z Z;
  m_moveList : gmap Z (list InstPtr);
  m_coloredTmp : gmap Z Reg;
  m_spilledTmp : list Tmp;
  m_coalescedTmps : gmap Z Tmp;
  m_isOnSelectStack : gset Z;
  m_selectStack : list Tmp;
  m_worklistMoves : list InstPtr;
  m_activeMoves : list InstPtr;
  m_simplifyWorklist : list Tmp;
  m_spillWorklist : list Tmp;
  m_freezeWorklist : list Tmp
}.

Definition set_interferenceEdges (x : gset Z) (s : Allocator) : Allocator :=
  {| m_tmpArraySize := m_tmpArraySize s; m_numberOfRegisters := m_numberOfRegisters s;
     m_interferenceEdges := x; m_adjacencyList := m_adjacencyList s;
     m_degrees := m_degrees s; m_moveList := m_moveList s;
     m_coloredTmp := m_coloredTmp s; m_spilledTmp := m_spilledTmp s;
     m_coalescedTmps := m_coalescedTmps s; m_isOnSelectStack := m_isOnSelectStack s;
     m_selectStack := m_selectStack s; m_worklistMoves := m_worklistMoves s;
     m_activeMoves := m_activeMoves s; m_simplifyWorklist := m_simplifyWorklist s;
     m_spillWorklist := m_spillWorklist s; m_freezeWorklist := m_freezeWorklist s |}.

Definition set_adjacencyList (x : gmap Z (list Tmp)) (s : Allocator) : Allocator :=
  {| m_tmpArraySize := m_tmpArraySize s; m_numberOfRegisters := m_numberOfRegisters s;
     m_interferenceEdges := m_interferenceEdges s; m_adjacencyList := x;
     m_degrees := m_degrees s; m_moveList := m_moveList s;
     m_coloredTmp := m_coloredTmp s; m_spilledTmp := m_spilledTmp s;
     m_coalescedTmps := m_coalescedTmps s; m_isOnSelectStack := m_isOnSelectStack s;
     m_selectStack := m_selectStack s; m_worklistMoves := m_worklistMoves s;
     m_activeMoves := m_activeMoves s; m_simplifyWorklist := m_simplifyWorklist s;
     m_spillWorklist := m_spillWorklist s; m_freezeWorklist := m_freezeWorklist s |}.

Definition set_degrees (x : gmap Z Z) (s : Allocator) : Allocator :=
  {| m_tmpArraySize := m_tmpArraySize s; m_numberOfRegisters := m_numberOfRegisters s;
     m_interferenceEdges := m_interferenceEdges s; m_adjacencyList := m_adjacencyList s;
     m_degrees := x; m_moveList := m_moveList s;
     m_coloredTmp := m_coloredTmp s; m_spilledTmp := m_spilledTmp s;
     m_coalescedTmps := m_coalescedTmps s; m_isOnSelectStack := m_isOnSelectStack s;
     m_selectStack := m_selectStack s; m_worklistMoves := m_worklistMoves s;
     m_activeMoves := m_activeMoves s; m_simplifyWorklist := m_simplifyWorklist s;
     m_spillWorklist := m_spillWorklist s; m_freezeWorklist := m_freezeWorklist s |}.

Definition set_moveList (x : gmap Z (list InstPtr)) (s : Allocator) : Allocator :=
  {| m_tmpArraySize := m_tmpArraySize s; m_numberOfRegisters := m_numberOfRegisters s;
     m_interferenceEdges := m_interferenceEdges s; m_adjacencyList := m_adjacencyList s;
     m_degrees := m_degrees s; m_moveList := x;
     m_coloredTmp := m_coloredTmp s; m_spilledTmp := m_spilledTmp s;
     m_coalescedTmps := m_coalescedTmps s; m_isOnSelectStack := m_isOnSelectStack s;
     m_selectStack := m_selectStack s; m_worklistMoves := m_worklistMoves s;
     m_activeMoves := m_activeMoves s; m_simplifyWorklist := m_simplifyWorklist s;
     m_spillWorklist := m_spillWorklist s; m_freezeWorklist := m_freezeWorklist s |}.

Definition set_coloredTmp (x : gmap Z Reg) (s : Allocator) : Allocator :=
  {| m_tmpArraySize := m_tmpArraySize s; m_numberOfRegisters := m_numberOfRegisters s;
     m_interferenceEdges := m_interferenceEdges s; m_adjacencyList := m_adjacencyList s;
     m_degrees := m_degrees s; m_moveList := m_moveList s;
     m_coloredTmp := x; m_spilledTmp := m_spilledTmp s;
     m_coalescedTmps := m_coalescedTmps s; m_isOnSelectStack := m_isOnSelectStack s;
     m_selectStack := m_selectStack s; m_worklistMoves := m_worklistMoves s;
     m_activeMoves := m_activeMoves s; m_simplifyWorklist := m_simplifyWorklist s;
     m_spillWorklist := m_spillWorklist s; m_freezeWorklist := m_freezeWorklist s |}.

Definition set_spilledTmp (x : list Tmp) (s : Allocator) : Allocator :=
  {| m_tmpArraySize := m_tmpArraySize s; m_numberOfRegisters := m_numberOfRegisters s;
     m_interferenceEdges := m_interferenceEdges s; m_adjacencyList := m_adjacencyList s;
     m_degrees := m_degrees s; m_moveList := m_moveList s;
     m_coloredTmp := m_coloredTmp s; m_spilledTmp := x;
     m_coalescedTmps := m_coalescedTmps s; m_isOnSelectStack := m_isOnSelectStack s;
     m_selectStack := m_selectStack s; m_worklistMoves := m_worklistMoves s;
     m_activeMoves := m_activeMoves s; m_simplifyWorklist := m_simplifyWorklist s;
     m_spillWorklist := m_spillWorklist s; m_freezeWorklist := m_freezeWorklist s |}.

Definition set_coalescedTmps (x : gmap Z Tmp) (s : Allocator) : Allocator :=
  {| m_tmpArraySize := m_tmpArraySize s; m_numberOfRegisters := m_numberOfRegisters s;
     m_interferenceEdges := m_interferenceEdges s; m_adjacencyList := m_adjacencyList s;
     m_degrees := m_degrees s; m_moveList := m_moveList s;
     m_coloredTmp := m_coloredTmp s; m_spilledTmp := m_spilledTmp s;
     m_coalescedTmps := x; m_isOnSelectStack := m_isOnSelectStack s;
     m_selectStack := m_selectStack s; m_worklistMoves := m_worklistMoves s;
     m_activeMoves := m_activeMoves s; m_simplifyWorklist := m_simplifyWorklist s;
     m_spillWorklist := m_spillWorklist s; m_freezeWorklist := m_freezeWorklist s |}.

Definition set_isOnSelectStack (x : gset Z) (s : Allocator) : Allocator :=
  {| m_tmpArraySize := m_tmpArraySize s; m_numberOfRegisters := m_numberOfRegisters s;
     m_interferenceEdges := m_interferenceEdges s; m_adjacencyList := m_adjacencyList s;
     m_degrees := m_degrees s; m_moveList := m_moveList s;
     m_coloredTmp := m_coloredTmp s; m_spilledTmp := m_spilledTmp s;
     m_coalescedTmps := m_coalescedTmps s; m_isOnSelectStack := x;
     m_selectStack := m_selectStack s; m_worklistMoves := m_worklistMoves s;
     m_activeMoves := m_activeMoves s; m_simplifyWorklist := m_simplifyWorklist s;
     m_spillWorklist := m_spillWorklist s; m_freezeWorklist := m_freezeWorklist s |}.

Definition set_selectStack (x : list Tmp) (s : Allocator) : Allocator :=
  {| m_tmpArraySize := m_tmpArraySize s; m_numberOfRegisters := m_numberOfRegisters s;
     m_interferenceEdges := m_interferenceEdges s; m_adjacencyList := m_adjacencyList s;
     m_degrees := m_degrees s; m_moveList := m_moveList s;
     m_coloredTmp := m_coloredTmp s; m_spilledTmp := m_spilledTmp s;
     m_coalescedTmps := m_coalescedTmps s; m_isOnSelectStack := m_isOnSelectStack s;
     m_selectStack := x; m_worklistMoves := m_worklistMoves s;
     m_activeMoves := m_activeMoves s; m_simplifyWorklist := m_simplifyWorklist s;
     m_spillWorklist := m_spillWorklist s; m_freezeWorklist := m_freezeWorklist s |}.

Definition set_worklistMoves (x : list InstPtr) (s : Allocator) : Allocator :=
  {| m_tmpArraySize := m_tmpArraySize s; m_numberOfRegisters := m_numberOfRegisters s;
     m_interferenceEdges := m_interferenceEdges s; m_adjacencyList := m_adjacencyList s;
     m_degrees := m_degrees s; m_moveList := m_moveList s;
     m_coloredTmp := m_coloredTmp s; m_spilledTmp := m_spilledTmp s;
     m_coalescedTmps := m_coalescedTmps s; m_isOnSelectStack := m_isOnSelectStack s;
     m_selectStack := m_selectStack s; m_worklistMoves := x;
     m_activeMoves := m_activeMoves s; m_simplifyWorklist := m_simplifyWorklist s;
     m_spillWorklist := m_spillWorklist s; m_freezeWorklist := m_freezeWorklist s |}.

Definition set_activeMoves (x : list InstPtr) (s : Allocator) : Allocator :=
  {| m_tmpArraySize := m_tmpArraySize s; m_numberOfRegisters := m_numberOfRegisters s;
     m_interferenceEdges := m_interferenceEdges s; m_adjacencyList := m_adjacencyList s;
     m_degrees := m_degrees s; m_moveList := m_moveList s;
     m_coloredTmp := m_coloredTmp s; m_spilledTmp := m_spilledTmp s;
     m_coalescedTmps := m_coalescedTmps s; m_isOnSelectStack := m_isOnSelectStack s;
     m_selectStack := m_selectStack s; m_worklistMoves := m_worklistMoves s;
     m_activeMoves := x; m_simplifyWorklist := m_simplifyWorklist s;
     m_spillWorklist := m_spillWorklist s; m_freezeWorklist := m_freezeWorklist s |}.

Definition set_simplifyWorklist (x : list Tmp) (s : Allocator) : Allocator :=
  {| m_tmpArraySize := m_tmpArraySize s; m_numberOfRegisters := m_numberOfRegisters s;
     m_interferenceEdges := m_interferenceEdges s; m_adjacencyList := m_adjacencyList s;
     m_degrees := m_degrees s; m_moveList := m_moveList s;
     m_coloredTmp := m_coloredTmp s; m_spilledTmp := m_spilledTmp s;
     m_coalescedTmps := m_coalescedTmps s; m_isOnSelectStack := m_isOnSelectStack s;
     m_selectStack := m_selectStack s; m_worklistMoves := m_worklistMoves s;
     m_activeMoves := m_activeMoves s; m_simplifyWorklist := x;
     m_spillWorklist := m_spillWorklist s; m_freezeWorklist := m_freezeWorklist s |}.

Definition set_spillWorklist (x : list Tmp) (s : Allocator) : Allocator :=
  {| m_tmpArraySize := m_tmpArraySize s; m_numberOfRegisters := m_numberOfRegisters s;
     m_interferenceEdges := m_interferenceEdges s; m_adjacencyList := m_adjacencyList s;
     m_degrees := m_degrees s; m_moveList := m_moveList s;
     m_coloredTmp := m_coloredTmp s; m_spilledTmp := m_spilledTmp s;
     m_coalescedTmps := m_coalescedTmps s; m_isOnSelectStack := m_isOnSelectStack s;
     m_selectStack := m_selectStack s; m_worklistMoves := m_worklistMoves s;
     m_activeMoves := m_activeMoves s; m_simplifyWorklist := m_simplifyWorklist s;
     m_spillWorklist := x; m_freezeWorklist := m_freezeWorklist s |}.

Definition set_freezeWorklist (x : list Tmp) (s : Allocator) : Allocator :=
  {| m_tmpArraySize := m_tmpArraySize s; m_numberOfRegisters := m_numberOfRegisters s;
     m_interferenceEdges := m_interferenceEdges s; m_adjacencyList := m_adjacencyList s;
     m_degrees := m_degrees s; m_moveList := m_moveList s;
     m_coloredTmp := m_coloredTmp s; m_spilledTmp := m_spilledTmp s;
     m_coalescedTmps := m_coalescedTmps s; m_isOnSelectStack := m_isOnSelectStack s;
     m_selectStack := m_selectStack s; m_worklistMoves := m_worklistMoves s;
     m_activeMoves := m_activeMoves s; m_simplifyWorklist := m_simplifyWorklist s;
     m_spillWorklist := m_spillWorklist s; m_freezeWorklist := x |}.

(** [std::numeric_limits<unsigned>::max()]. *)
Definition unsignedMax : Z := 2 ^ 32 - 1.

(** [InterferenceEdge(a, b)]: the two internal values as [unsigned], the
    smaller one in the high half of a 64-bit word. *)
Definition InterferenceEdge (a b : Tmp) : Z :=
  let aInternal := toUnsigned a in
  let bInternal := toUnsigned b in
  if bInternal <? aInternal
  then Z.lor (Z.shiftl bInternal 32) aInternal
  else Z.lor (Z.shiftl aInternal 32) bInternal.

(** [InterferenceEdge::first] and [InterferenceEdge::second]. *)
Definition first (edge : Z) : Tmp := toInt (Z.shiftr edge 32).
Definition second (edge : Z) : Tmp := toInt (Z.land edge 4294967295).

Definition interfere (s : Allocator) (a b : Tmp) : bool :=
  bool_decide (InterferenceEdge a b ∈ m_interferenceEdges s).

Section Bank.
Variable target : Target.
Variable bank : ArgType.

(** [MoveInstHelper<type>::mayBeCoalescable]. *)
Definition mayBeCoalescable (inst : Inst) : bool :=
  match bank with
  | GP =>
      let isMove := bool_decide (opcode inst = Move) in
      if negb isMove then false
      else argIsTmp (argAt inst 0) && argIsTmp (argAt inst 1)
  | FP =>
      if bool_decide (opcode inst ≠ MoveDouble) then false
      else argIsTmp (argAt inst 0) && argIsTmp (argAt inst 1)
  end.

(** [AbsoluteTmpHelper<type>::absoluteIndex(const Tmp&)]. *)
Definition absoluteIndex (tmp : Tmp) : Z :=
  match bank with
  | GP => toUnsigned tmp
  | FP => toUnsigned (- tmp)
  end.

(** [AbsoluteTmpHelper<type>::absoluteIndex(unsigned tmpIndex)]. *)
Definition absoluteIndexOfIndex (tmpIndex : Z) : Z :=
  match bank with
  | GP => absoluteIndex (gpTmpForIndex target tmpIndex)
  | FP => absoluteIndex (fpTmpForIndex target tmpIndex)
  end.

(** [AbsoluteTmpHelper<type>::tmpFromAbsoluteIndex]. *)
Definition tmpFromAbsoluteIndex (tmpIndex : Z) : Tmp :=
  match bank with
  | GP => toInt tmpIndex
  | FP => toInt (- tmpIndex)
  end.

(** Reads of the per-temporary vectors. *)
Definition adjacency (s : Allocator) (tmp : Tmp) : list Tmp :=
  default [] (m_adjacencyList s !! absoluteIndex tmp).

Definition degree (s : Allocator) (tmp : Tmp) : Z :=
  default 0 (m_degrees s !! absoluteIndex tmp).

Definition moves (s : Allocator) (tmp : Tmp) : list InstPtr :=
  default [] (m_moveList s !! absoluteIndex tmp).

Definition coalescedTmp (s : Allocator) (tmp : Tmp) : Tmp :=
  default 0 (m_coalescedTmps s !! absoluteIndex tmp).

Definition coloredTmp (s : Allocator) (tmp : Tmp) : Reg :=
  default 0 (m_coloredTmp s !! absoluteIndex tmp).

Definition isOnSelectStack (s : Allocator) (tmp : Tmp) : bool :=
  bool_decide (absoluteIndex tmp ∈ m_isOnSelectStack s).

(** [tmpArraySize(code)], from [code.numTmps(type)]. *)
Definition tmpArraySize (numTmps : Z) : Z := absoluteIndexOfIndex numTmps.

(** [initializeDegrees]: "all precolored registers have an infinite degree",
    every other entry is zero. *)
Definition initializeDegrees : gmap Z Z :=
  let firstNonRegIndex := absoluteIndexOfIndex 0 in
  list_to_map ((λ i, (i, unsignedMax)) <$> seqZ 0 firstNonRegIndex).

(** The constructor. *)
Definition newAllocator (numTmps : Z) : Allocator :=
  {| m_tmpArraySize := tmpArraySize numTmps;
     m_numberOfRegisters := Z.of_nat (length (regsInPriorityOrder target bank));
     m_interferenceEdges := ∅; m_adjacencyList := ∅;
     m_degrees := initializeDegrees; m_moveList := ∅;
     m_coloredTmp := ∅; m_spilledTmp := [];
     m_coalescedTmps := ∅; m_isOnSelectStack := ∅;
     m_selectStack := []; m_worklistMoves := [];
     m_activeMoves := []; m_simplifyWorklist := [];
     m_spillWorklist := []; m_freezeWorklist := [] |}.

(** The two statements of [addEdge] that record [b] as a neighbour of [a]:
    [m_adjacencyList[a].append(b); m_degrees[a]++]. *)
Definition appendAdjacent (a b : Tmp) (s : Allocator) : Allocator :=
  let s := set_adjacencyList
             (<[absoluteIndex a := adjacency s a ++ [b]]> (m_adjacencyList s)) s in
  set_degrees (<[absoluteIndex a := (degree s a + 1) mod 2 ^ 32]> (m_degrees s)) s.

Definition addEdge (a b : Tmp) (s : Allocator) : Allocator :=
  if decide (a = b) then s
  else if interfere s a b then s
  else
    let s := set_interferenceEdges ({[InterferenceEdge a b]} ∪ m_interferenceEdges s) s in
    let s := if isReg target a then s else appendAdjacent a b s in
    if isReg target b then s else appendAdjacent b a s.

(** [liveTmp.isGP() == (type == Arg::GP)]. *)
Definition inBank (tmp : Tmp) : bool :=
  bool_decide (isGP tmp = bool_decide (bank = GP)).

(** [addEdges]: "all the Def()s interfere with everything live". *)
Definition addEdges (inst : Inst) (liveTmps : list Tmp) (s : Allocator) : Allocator :=
  foldl (λ s '(arg, role, argType),
           if bool_decide (argType = bank) && isDef role
           then foldl (λ s liveTmp, if inBank liveTmp then addEdge arg liveTmp s else s)
                      s liveTmps
           else s)
        s (instTmps inst).

(** The first loop of [build].  The inner lambda leaves its third parameter
    unnamed, so the [argType] it tests is the one of the outer visit. *)
Definition addDefEdges (inst : Inst) (s : Allocator) : Allocator :=
  foldl (λ s '(arg, role, argType),
           if bool_decide (argType ≠ bank) then s
           else if isDef role
           then foldl (λ s '(otherArg, role, _),
                         if bool_decide (argType ≠ bank) then s
                         else if isDef role then addEdge arg otherArg s else s)
                      s (instTmps inst)
           else s)
        s (instTmps inst).

(** The [defTmp] and [useTmp] that [build] reads off a move. *)
Definition moveDefUse (inst : Inst) : Tmp * Tmp :=
  foldl (λ '(defTmp, useTmp) '(argTmp, role, _),
           if isDef role then (argTmp, useTmp) else (defTmp, argTmp))
        (0, 0) (instTmps inst).

Definition addToMoveList (inst : InstPtr) (tmp : Tmp) (s : Allocator) : Allocator :=
  set_moveList (<[absoluteIndex tmp := HashSet.add inst (moves s tmp)]> (m_moveList s)) s.

(** The loop of [build] over the live temporaries of a move. *)
Definition addMoveEdges (defTmp useTmp : Tmp) (live : list Tmp) (s : Allocator) : Allocator :=
  foldl (λ s liveTmp,
           if bool_decide (liveTmp ≠ useTmp) && inBank liveTmp
           then addEdge defTmp liveTmp s else s)
        s live.

(** [build(inst, localCalc)]; [live] is [localCalc.live()]. *)
Definition build (inst : InstPtr) (live : list Tmp) (s : Allocator) : Allocator :=
  let s := addDefEdges (pointee inst) s in
  if mayBeCoalescable (pointee inst) then
    let s := foldl (λ s o, addToMoveList inst (argTmp (arg o)) s) s (args (pointee inst)) in
    let s := set_worklistMoves (HashSet.add inst (m_worklistMoves s)) s in
    let '(defTmp, useTmp) := moveDefUse (pointee inst) in
    addMoveEdges defTmp useTmp live s
  else addEdges (pointee inst) live s.

(** The loop of [getAlias], at most [fuel] reads of [m_coalescedTmps]. *)
Fixpoint getAliasFrom (fuel : nat) (s : Allocator) (alias : Tmp) : option Tmp :=
  match fuel with
  | O => None
  | S fuel =>
      let nextAlias := coalescedTmp s alias in
      if decide (nextAlias = 0) then Some alias else getAliasFrom fuel s nextAlias
  end.

(** [getAlias(tmp)].  A chain of aliases without a cycle is no longer than
    the number of entries of the alias map, which bounds the loop. *)
Definition getAlias (s : Allocator) (tmp : Tmp) : option Tmp :=
  getAliasFrom (S (size (m_coalescedTmps s))) s tmp.

(** [allocatedReg(tmp)]; an invalid register when the priority list is empty. *)
Definition allocatedReg (s : Allocator) (tmp : Tmp) : Reg :=
  let reg := coloredTmp s tmp in
  if decide (reg = 0) then default 0 (head (regsInPriorityOrder target bank)) else reg.

Definition makeWorkList (s : Allocator) : Allocator :=
  let firstNonRegIndex := absoluteIndexOfIndex 0 in
  foldl (λ s' i,
           let degree := default 0 (m_degrees s' !! i) in
           if decide (degree = 0) then s'
           else
             let tmp := tmpFromAbsoluteIndex i in
             if m_numberOfRegisters s' <=? degree
             then set_spillWorklist (HashSet.add tmp (m_spillWorklist s')) s'
             else if negb (bool_decide (moves s' tmp = []))
             then set_freezeWorklist (HashSet.add tmp (m_freezeWorklist s')) s'
             else set_simplifyWorklist (m_simplifyWorklist s' ++ [tmp]) s')
        s (seqZ firstNonRegIndex (m_tmpArraySize s - firstNonRegIndex)).

Definition hasBeenSimplified (s : Allocator) (tmp : Tmp) : bool :=
  isOnSelectStack s tmp || negb (bool_decide (coalescedTmp s tmp = 0)).

(** [forEachAdjacent(tmp, function)]: the adjacency vector of [tmp] is read
    as it is when the loop starts; no callback of the source writes to it. *)
Definition forEachAdjacent (tmp : Tmp) (function : Tmp → Allocator → Allocator)
    (s : Allocator) : Allocator :=
  foldl (λ s adjacentTmp,
           if hasBeenSimplified s adjacentTmp then s else function adjacentTmp s)
        s (adjacency s tmp).

Definition isLiveMove (s : Allocator) (inst : InstPtr) : bool :=
  HashSet.contains inst (m_activeMoves s) || HashSet.contains inst (m_worklistMoves s).

Definition forEachNodeMoves (tmp : Tmp) (function : InstPtr → Allocator → Allocator)
    (s : Allocator) : Allocator :=
  foldl (λ s inst, if isLiveMove s inst then function inst s else s) s (moves s tmp).

Definition isMoveRelated (s : Allocator) (tmp : Tmp) : bool :=
  existsb (isLiveMove s) (moves s tmp).

Definition enableMovesOnValue (tmp : Tmp) (s : Allocator) : Allocator :=
  foldl (λ s inst,
           if HashSet.contains inst (m_activeMoves s)
           then set_worklistMoves (HashSet.add inst (m_worklistMoves s))
                  (set_activeMoves (HashSet.remove inst (m_activeMoves s)) s)
           else s)
        s (moves s tmp).

Definition enableMovesOnValueAndAdjacents (tmp : Tmp) (s : Allocator) : Allocator :=
  forEachAdjacent tmp enableMovesOnValue (enableMovesOnValue tmp s).

Definition decrementDegree (tmp : Tmp) (s : Allocator) : Allocator :=
  let oldDegree := degree s tmp in
  let s := set_degrees (<[absoluteIndex tmp := (oldDegree - 1) mod 2 ^ 32]> (m_degrees s)) s in
  if decide (oldDegree = m_numberOfRegisters s) then
    let s := enableMovesOnValueAndAdjacents tmp s in
    let s := set_spillWorklist (HashSet.remove tmp (m_spillWorklist s)) s in
    if isMoveRelated s tmp
    then set_freezeWorklist (HashSet.add tmp (m_freezeWorklist s)) s
    else set_simplifyWorklist (m_simplifyWorklist s ++ [tmp]) s
  else s.

(** [simplify]; the caller has checked that the worklist is not empty. *)
Definition simplify (s : Allocator) : Allocator :=
  match HashSet.takeLast (m_simplifyWorklist s) with
  | None => s
  | Some (last, rest) =>
      let s := set_simplifyWorklist rest s in
      let s := set_selectStack (m_selectStack s ++ [last]) s in
      let s := set_isOnSelectStack ({[absoluteIndex last]} ∪ m_isOnSelectStack s) s in
      forEachAdjacent last decrementDegree s
  end.

Definition precoloredCoalescingHeuristic (s : Allocator) (u v : Tmp) : bool :=
  forallb (λ adjacentTmp,
             negb (negb (isReg target adjacentTmp)
                   && negb (hasBeenSimplified s adjacentTmp)
                   && (m_numberOfRegisters s <=? degree s adjacentTmp)
                   && negb (interfere s u adjacentTmp)))
          (adjacency s v).

(** One of the two loops of [conservativeHeuristic] over [adjacents];
    [None] is its [return false]. *)
Fixpoint addHighOrderAdjacents (s : Allocator) (adjacents : list Tmp)
    (highOrderAdjacents : list Tmp) : option (list Tmp) :=
  match adjacents with
  | [] => Some highOrderAdjacents
  | adjacentTmp :: adjacents =>
      if negb (hasBeenSimplified s adjacentTmp)
         && (m_numberOfRegisters s <=? degree s adjacentTmp)
      then
        let isNewEntry := negb (HashSet.contains adjacentTmp highOrderAdjacents) in
        let highOrderAdjacents := HashSet.add adjacentTmp highOrderAdjacents in
        if isNewEntry && (m_numberOfRegisters s <=? Z.of_nat (length highOrderAdjacents))
        then None
        else addHighOrderAdjacents s adjacents highOrderAdjacents
      else addHighOrderAdjacents s adjacents highOrderAdjacents
  end.

Definition conservativeHeuristic (s : Allocator) (u v : Tmp) : bool :=
  let adjacentsOfU := adjacency s u in
  let adjacentsOfV := adjacency s v in
  if Z.of_nat (length adjacentsOfU) + Z.of_nat (length adjacentsOfV) <? m_numberOfRegisters s
  then true
  else
    match addHighOrderAdjacents s adjacentsOfU [] with
    | None => false
    | Some highOrderAdjacents =>
        match addHighOrderAdjacents s adjacentsOfV highOrderAdjacents with
        | None => false
        | Some _ => true
        end
    end.

Definition canBeSafelyCoalesced (s : Allocator) (u v : Tmp) : bool :=
  if isReg target u then precoloredCoalescingHeuristic s u v
  else conservativeHeuristic s u v.

Definition addWorkList (tmp : Tmp) (s : Allocator) : Allocator :=
  if negb (isReg target tmp)
     && (degree s tmp <? m_numberOfRegisters s)
     && negb (isMoveRelated s tmp)
  then set_simplifyWorklist (m_simplifyWorklist s ++ [tmp])
         (set_freezeWorklist (HashSet.remove tmp (m_freezeWorklist s)) s)
  else s.

Definition combine (u v : Tmp) (s : Allocator) : Allocator :=
  let s := if HashSet.contains v (m_freezeWorklist s)
           then set_freezeWorklist (HashSet.remove v (m_freezeWorklist s)) s
           else set_spillWorklist (HashSet.remove v (m_spillWorklist s)) s in
  let s := set_coalescedTmps (<[absoluteIndex v := u]> (m_coalescedTmps s)) s in
  let vMoves := moves s v in
  let s := set_moveList (<[absoluteIndex u := HashSet.addAll vMoves (moves s u)]> (m_moveList s)) s in
  let s := forEachAdjacent v (λ adjacentTmp s, decrementDegree adjacentTmp (addEdge adjacentTmp u s)) s in
  if (m_numberOfRegisters s <=? degree s u) && HashSet.contains u (m_freezeWorklist s)
  then set_spillWorklist (HashSet.add u (m_spillWorklist s))
         (set_freezeWorklist (HashSet.remove u (m_freezeWorklist s)) s)
  else s.

(** The branch that [coalesce] takes, named as its trace output names it. *)
Inductive CoalesceOutcome :=
| Coalesced (u : Tmp)
| Constrained (u v : Tmp)
| SafeCoalescing (u v : Tmp)
| FailedCoalescing (u v : Tmp).

(** The operands [u] and [v] of [coalesce] after alias resolution and the
    swap that puts a precolored temporary first. *)
Definition coalesceOperands (s : Allocator) (moveInst : InstPtr) : option (Tmp * Tmp) :=
  u ← getAlias s (argTmp (argAt (pointee moveInst) 0));
  v ← getAlias s (argTmp (argAt (pointee moveInst) 1));
  Some (if isReg target v then (v, u) else (u, v)).

(** [coalesce], together with the branch taken; the caller has checked that
    [m_worklistMoves] is not empty. *)
Definition coalesceTraced (s : Allocator) : option (Allocator * option CoalesceOutcome) :=
  match HashSet.takeLast (m_worklistMoves s) with
  | None => Some (s, None)
  | Some (moveInst, rest) =>
      let s := set_worklistMoves rest s in
      '(u, v) ← coalesceOperands s moveInst;
      if decide (u = v) then
        Some (addWorkList u s, Some (Coalesced u))
      else if isReg target v || interfere s u v then
        Some (addWorkList v (addWorkList u s), Some (Constrained u v))
      else if canBeSafelyCoalesced s u v then
        Some (addWorkList u (combine u v s), Some (SafeCoalescing u v))
      else
        Some (set_activeMoves (HashSet.add moveInst (m_activeMoves s)) s,
              Some (FailedCoalescing u v))
  end.

Definition coalesce (s : Allocator) : option Allocator :=
  fst <$> coalesceTraced s.

(** The rule of George as the design document words it, for a precolored
    [u]: every neighbour of [v] interferes with [u], or is precolored, or has
    a degree below [K], or is on the select stack. *)
Definition georgeRule (s : Allocator) (u v : Tmp) : Prop :=
  ∀ t, t ∈ adjacency s v →
    interfere s u t = true
    ∨ isReg target t = true
    ∨ degree s t < m_numberOfRegisters s
    ∨ isOnSelectStack s t = true.

(** The same rule with the neighbours that have been coalesced away let
    through as well. *)
Definition georgeRuleOnGraph (s : Allocator) (u v : Tmp) : Prop :=
  ∀ t, t ∈ adjacency s v →
    interfere s u t = true
    ∨ isReg target t = true
    ∨ degree s t < m_numberOfRegisters s
    ∨ isOnSelectStack s t = true
    ∨ coalescedTmp s t ≠ 0.

(** The distinct neighbours of [u] and [v] of degree [K] or more, and the
    rule of Briggs on them, as the design document words it. *)
Definition highDegreeNeighbours (s : Allocator) (u v : Tmp) : list Tmp :=
  remove_dups (filter (λ t, m_numberOfRegisters s ≤ degree s t)
                      (adjacency s u ++ adjacency s v)).

Definition briggsRule (s : Allocator) (u v : Tmp) : Prop :=
  Z.of_nat (length (highDegreeNeighbours s u v)) < m_numberOfRegisters s.

(** The neighbours that the loops of [conservativeHeuristic] count: of
    degree [K] or more, and neither on the select stack nor coalesced. *)
Definition highOrderNeighbours (s : Allocator) (u v : Tmp) : list Tmp :=
  remove_dups (filter (λ t, hasBeenSimplified s t = false
                            ∧ m_numberOfRegisters s ≤ degree s t)
                      (adjacency s u ++ adjacency s v)).

Definition briggsRuleOnGraph (s : Allocator) (u v : Tmp) : Prop :=
  Z.of_nat (length (highOrderNeighbours s u v)) < m_numberOfRegisters s.

Definition freezeMoves (tmp : Tmp) (s : Allocator) : Allocator :=
  forEachNodeMoves tmp
    (λ inst s,
       let s := if HashSet.contains inst (m_activeMoves s)
                then set_activeMoves (HashSet.remove inst (m_activeMoves s)) s
                else set_worklistMoves (HashSet.remove inst (m_worklistMoves s)) s in
       let otherTmp := if bool_decide (argTmp (argAt (pointee inst) 0) ≠ tmp)
                       then argTmp (argAt (pointee inst) 0)
                       else argTmp (argAt (pointee inst) 1) in
       if (degree s otherTmp <? m_numberOfRegisters s) && negb (isMoveRelated s otherTmp)
       then set_simplifyWorklist (m_simplifyWorklist s ++ [otherTmp])
              (set_freezeWorklist (HashSet.remove otherTmp (m_freezeWorklist s)) s)
       else s)
    s.

(** [freeze]; [takeAny] takes the first element in iteration order. *)
Definition freeze (s : Allocator) : Allocator :=
  match m_freezeWorklist s with
  | [] => s
  | victim :: rest =>
      let s := set_freezeWorklist rest s in
      let s := set_simplifyWorklist (m_simplifyWorklist s ++ [victim]) s in
      freezeMoves victim s
  end.

(** The loop of [selectSpill] over the rest of the worklist. *)
Fixpoint selectSpillVictim (s : Allocator) (victim : Tmp) (maxDegree : Z)
    (iterator : list Tmp) : Tmp :=
  match iterator with
  | [] => victim
  | tmp :: iterator =>
      let tmpDegree := degree s tmp in
      if maxDegree <? tmpDegree
      then selectSpillVictim s tmp tmpDegree iterator
      else selectSpillVictim s victim maxDegree iterator
  end.

(** The victim of [selectSpill], when the worklist is not empty. *)
Definition spillVictim (s : Allocator) : option Tmp :=
  match m_spillWorklist s with
  | [] => None
  | tmp :: iterator => Some (selectSpillVictim s tmp (degree s tmp) iterator)
  end.

(** [selectSpill]; the caller has checked that the worklist is not empty. *)
Definition selectSpill (s : Allocator) : Allocator :=
  match m_spillWorklist s with
  | [] => s
  | tmp :: iterator =>
      let victimTmp := selectSpillVictim s tmp (degree s tmp) iterator in
      let s := set_spillWorklist (HashSet.remove victimTmp (m_spillWorklist s)) s in
      let s := set_simplifyWorklist (m_simplifyWorklist s ++ [victimTmp]) s in
      freezeMoves victimTmp s
  end.

(** The registers that the neighbours of a popped temporary forbid. *)
Fixpoint coloredRegisters (s : Allocator) (adjacents : list Tmp) (set : list Reg)
    : option (list Reg) :=
  match adjacents with
  | [] => Some set
  | adjacentTmp :: adjacents =>
      aliasTmp ← getAlias s adjacentTmp;
      if isReg target aliasTmp
      then coloredRegisters s adjacents (HashSet.add aliasTmp set)
      else
        let reg := coloredTmp s aliasTmp in
        if decide (reg = 0) then coloredRegisters s adjacents set
        else coloredRegisters s adjacents (HashSet.add reg set)
  end.

(** One turn of the [while] loop of [assignColors] on the popped [tmp]. *)
Definition assignColor (tmp : Tmp) (s : Allocator) : option Allocator :=
  forbidden ← coloredRegisters s (adjacency s tmp) [];
  match filter (λ reg, reg ∉ forbidden) (regsInPriorityOrder target bank) with
  | reg :: _ => Some (set_coloredTmp (<[absoluteIndex tmp := reg]> (m_coloredTmp s)) s)
  | [] => Some (set_spilledTmp (HashSet.add tmp (m_spilledTmp s)) s)
  end.

(** The [while] loop of [assignColors]; [stack] is popped from its end. *)
Fixpoint colorSelectStack (stack : list Tmp) (s : Allocator) : option Allocator :=
  match stack with
  | [] => Some s
  | tmp :: stack => s ← assignColor tmp s; colorSelectStack stack s
  end.

(** "Reclaim as much memory as possible." *)
Definition reclaim (s : Allocator) : Allocator :=
  set_freezeWorklist [] (set_spillWorklist [] (set_simplifyWorklist []
    (set_activeMoves [] (set_worklistMoves [] (set_moveList ∅
      (set_degrees ∅ (set_interferenceEdges ∅ s))))))).

Definition assignColors (s : Allocator) : option Allocator :=
  let s := reclaim s in
  s ← colorSelectStack (reverse (m_selectStack s)) s;
  let s := set_selectStack [] s in
  Some (if bool_decide (m_spilledTmp s ≠ []) then set_coloredTmp ∅ s else s).

(** The invariant of the loop of [selectSpill] once it has gone through
    [seen]: [victim] is the first temporary of [seen] whose degree is the
    largest one. *)
Definition firstOfMaximalDegree (s : Allocator) (seen : list Tmp) (victim : Tmp) : Prop :=
  ∃ i : nat,
    seen !! i = Some victim
    ∧ (∀ (j : nat) t, seen !! j = Some t → degree s t ≤ degree s victim)
    ∧ (∀ (j : nat) t, (j < i)%nat → seen !! j = Some t →
         degree s t < degree s victim).

Definition worklistsEmpty (s : Allocator) : bool :=
  bool_decide (m_simplifyWorklist s = [])
  && bool_decide (m_worklistMoves s = [])
  && bool_decide (m_freezeWorklist s = [])
  && bool_decide (m_spillWorklist s = []).

(** The body of the [do ... while] loop of [allocate]. *)
Definition step (s : Allocator) : option Allocator :=
  if negb (bool_decide (m_simplifyWorklist s = [])) then Some (simplify s)
  else if negb (bool_decide (m_worklistMoves s = [])) then coalesce s
  else if negb (bool_decide (m_freezeWorklist s = [])) then Some (freeze s)
  else if negb (bool_decide (m_spillWorklist s = [])) then Some (selectSpill s)
  else Some s.

(** [n] turns of the loop, whatever the worklists hold afterwards. *)
Fixpoint steps (n : nat) (s : Allocator) : option Allocator :=
  match n with
  | O => Some s
  | S n => s ← step s; steps n s
  end.

(** A temporary of a move: not the null temporary, and a C++ [int]. *)
Definition wellFormedTmp (tmp : Tmp) : Prop := tmp ≠ 0 ∧ isInt tmp.

(** The moves that may still be coalesced. *)
Definition liveMove (s : Allocator) (inst : InstPtr) : Prop :=
  inst ∈ m_worklistMoves s ∨ inst ∈ m_activeMoves s.

Definition movesWellFormed (s : Allocator) : Prop :=
  ∀ inst, liveMove s inst →
    wellFormedTmp (argTmp (argAt (pointee inst) 0))
    ∧ wellFormedTmp (argTmp (argAt (pointee inst) 1)).

(** [aliasChain s tmp n root]: following [m_coalescedTmps] from [tmp] takes
    [n] reads to reach [root], which has no alias. *)
Inductive aliasChain (s : Allocator) : Tmp → nat → Tmp → Prop :=
| aliasChain_root tmp :
    coalescedTmp s tmp = 0 → aliasChain s tmp 0 tmp
| aliasChain_next tmp n root :
    coalescedTmp s tmp ≠ 0 →
    aliasChain s (coalescedTmp s tmp) n root →
    aliasChain s tmp (S n) root.

(** What the main loop keeps true of the alias map: its entries are
    temporaries of moves, the moves that may still be coalesced are between
    such temporaries, and every chain of aliases ends within as many reads
    as the map has entries. *)
Definition aliasInvariant (s : Allocator) : Prop :=
  (∀ i tmp, m_coalescedTmps s !! i = Some tmp → wellFormedTmp tmp)
  ∧ movesWellFormed s
  ∧ ∀ tmp, ∃ n root, aliasChain s tmp n root ∧ (n ≤ size (m_coalescedTmps s))%nat.

(** An operation keeps a field when it returns the field as it found it. *)
Definition keeps {X} (field : Allocator → X) (f : Allocator → Allocator) : Prop :=
  ∀ s, field (f s) = field s.

(** An operation that leaves the alias map alone and revives no move. *)
Definition aliasFrame (s s' : Allocator) : Prop :=
  m_coalescedTmps s' = m_coalescedTmps s
  ∧ ∀ inst, liveMove s' inst → liveMove s inst.

Fixpoint mainLoop (fuel : nat) (s : Allocator) : option Allocator :=
  match fuel with
  | O => None
  | S fuel =>
      s ← step s;
      if worklistsEmpty s then Some s else mainLoop fuel s
  end.

Definition allocate (fuel : nat) (s : Allocator) : option Allocator :=
  s ← mainLoop fuel (makeWorkList s);
  assignColors s.

End Bank.
End IRC.

(** ** Programs, the rewriter and spill insertion *)

Module Rewriter.
Import IRC.

(** Modelled from the spec: AirCode.h is not part of the source tree.  A
    program exposes "iteration over basic blocks; per-block iteration and
    index-based instruction access; allocation of a new temporary in a given
    bank; allocation of a stack slot of a given size and kind; counts of
    temporaries per bank".  A stack slot is its index in [stackSlots], which
    lists the byte sizes. *)
Record Code := {
  blocks : list (list Inst);
  numGPTmps : Z;
  numFPTmps : Z;
  stackSlots : list Z
}.

Definition numTmps (code : Code) (bank : ArgType) : Z :=
  match bank with GP => numGPTmps code | FP => numFPTmps code end.

Definition set_blocks (x : list (list Inst)) (code : Code) : Code :=
  {| blocks := x; numGPTmps := numGPTmps code; numFPTmps := numFPTmps code;
     stackSlots := stackSlots code |}.

(** [code.newTmp(type)]. *)
Definition newTmp (target : Target) (bank : ArgType) (code : Code) : Tmp * Code :=
  match bank with
  | GP => (gpTmpForIndex target (numGPTmps code),
           {| blocks := blocks code; numGPTmps := numGPTmps code + 1;
              numFPTmps := numFPTmps code; stackSlots := stackSlots code |})
  | FP => (fpTmpForIndex target (numFPTmps code),
           {| blocks := blocks code; numGPTmps := numGPTmps code;
              numFPTmps := numFPTmps code + 1; stackSlots := stackSlots code |})
  end.

(** The temporary of a bank with a given index. *)
Definition tmpForIndex (target : Target) (bank : ArgType) (index : Z) : Tmp :=
  match bank with
  | GP => gpTmpForIndex target index
  | FP => fpTmpForIndex target index
  end.

(** [code.addStackSlot(byteSize, StackSlotKind::Anonymous)]. *)
Definition addStackSlot (byteSize : Z) (code : Code) : N * Code :=
  (N.of_nat (length (stackSlots code)),
   {| blocks := blocks code; numGPTmps := numGPTmps code;
      numFPTmps := numFPTmps code; stackSlots := stackSlots code ++ [byteSize] |}).

Section Bank.
Variable target : Target.
Variable bank : ArgType.

(** [isUselessMoveInst<type>]. *)
Definition isUselessMoveInst (inst : Inst) : bool :=
  mayBeCoalescable bank inst
  && bool_decide (argTmp (argAt inst 0) = argTmp (argAt inst 1)).

(** The lambda that [assignRegisterToTmpInProgram] runs on every temporary. *)
Definition assignedTmp (allocator : Allocator) (tmp : Tmp) : option Tmp :=
  if isReg target tmp || bool_decide (isGP tmp = bool_decide (bank ≠ GP)) then Some tmp
  else
    aliasTmp ← getAlias bank allocator tmp;
    Some (if isReg target aliasTmp then aliasTmp
          else allocatedReg target bank allocator aliasTmp).

(** [forEachTmpFast] on one slot. *)
Definition assignOperand (allocator : Allocator) (o : Operand) : option Operand :=
  match arg o with
  | ArgTmp tmp =>
      tmp ← assignedTmp allocator tmp;
      Some {| arg := ArgTmp tmp; role := role o; type := type o;
              admitsStack := admitsStack o |}
  | ArgAddr base offset =>
      base ← assignedTmp allocator base;
      Some {| arg := ArgAddr base offset; role := role o; type := type o;
              admitsStack := admitsStack o |}
  | _ => Some o
  end.

Definition assignInst (allocator : Allocator) (inst : Inst) : option Inst :=
  args ← mapM (assignOperand allocator) (args inst);
  Some {| opcode := opcode inst; args := args; origin := origin inst |}.

Definition assignRegisterToTmpInProgram (code : Code) (allocator : Allocator)
    : option Code :=
  blocks ← mapM (λ block,
                   insts ← mapM (assignInst allocator) block;
                   Some (filter (λ inst, isUselessMoveInst inst = false) insts))
                (blocks code);
  Some (set_blocks blocks code).

(** The first loop of [addSpillAndFillToProgram] over the spilled
    temporaries: one 8-byte anonymous slot each. *)
Definition allocateSpillSlots (spilledTmp : list Tmp) (code : Code)
    : gmap Z N * Code :=
  foldl (λ '(stackSlots, code) tmp,
           let '(slot, code) := addStackSlot 8 code in
           (if stackSlots !! tmp is Some _ then stackSlots else <[tmp := slot]> stackSlots,
            code))
        (∅, code) spilledTmp.

(** "Try to replace the register use by memory use when possible": the body
    of the loop over the argument slots, on one slot. *)
Definition replaceByStack (stackSlots : gmap Z N) (o : Operand) : Operand :=
  match arg o with
  | ArgTmp tmp =>
      if bool_decide (tmpType tmp = bank) && negb (isReg target tmp) then
        match stackSlots !! tmp with
        | None => o
        | Some slot =>
            if admitsStack o
            then {| arg := ArgStack slot; role := role o; type := type o;
                    admitsStack := admitsStack o |}
            else o
        end
      else o
  | _ => o
  end.

(** The move that fills or spills: [Inst(move, origin, source, destination)]. *)
Definition moveInst (origin : N) (source destination : Arg) : Inst :=
  {| opcode := match bank with GP => Move | FP => MoveDouble end;
     args := [ {| arg := source; role := Use; type := bank;
                  admitsStack := moveAdmitsStack target bank 0 |};
               {| arg := destination; role := Def; type := bank;
                  admitsStack := moveAdmitsStack target bank 1 |} ];
     origin := origin |}.

(** What spill insertion has gathered while it visits one instruction: the
    program (for its temporary counter), the instructions to insert at
    [instIndex] and the ones to insert at [instIndex + 1]. *)
Record Insertions := {
  updatedCode : Code;
  before : list Inst;
  after : list Inst
}.

(** "For every other case, add Load/Store as needed": the lambda given to
    [forEachTmp], on one visited temporary; it returns the temporary that the
    visit leaves in the argument. *)
Definition fillAndSpill (stackSlots : gmap Z N) (origin : N)
    (tmp : Tmp) (role : Role) (argType : ArgType) (acc : Insertions)
    : Tmp * Insertions :=
  if isReg target tmp || bool_decide (argType ≠ bank) then (tmp, acc)
  else
    match stackSlots !! tmp with
    | None => (tmp, acc)
    | Some slot =>
        let arg := ArgStack slot in
        let '(tmp, acc) :=
          if isUse role then
            let '(newTmp, code) := newTmp target bank (updatedCode acc) in
            (newTmp,
             {| updatedCode := code;
                before := before acc ++ [moveInst origin arg (ArgTmp newTmp)];
                after := after acc |})
          else (tmp, acc) in
        if isDef role then
          (tmp,
           {| updatedCode := updatedCode acc; before := before acc;
              after := after acc ++ [moveInst origin (ArgTmp tmp) arg] |})
        else (tmp, acc)
    end.

(** [forEachTmp] with that lambda on one slot. *)
Definition fillAndSpillOperand (stackSlots : gmap Z N) (origin : N)
    (o : Operand) (acc : Insertions) : Operand * Insertions :=
  match arg o with
  | ArgTmp tmp =>
      let '(tmp, acc) := fillAndSpill stackSlots origin tmp (role o) (type o) acc in
      ({| arg := ArgTmp tmp; role := role o; type := type o;
          admitsStack := admitsStack o |}, acc)
  | ArgAddr base offset =>
      let '(base, acc) := fillAndSpill stackSlots origin base Use GP acc in
      ({| arg := ArgAddr base offset; role := role o; type := type o;
          admitsStack := admitsStack o |}, acc)
  | _ => (o, acc)
  end.

Fixpoint fillAndSpillOperands (stackSlots : gmap Z N) (origin : N)
    (operands : list Operand) (acc : Insertions) : list Operand * Insertions :=
  match operands with
  | [] => ([], acc)
  | o :: operands =>
      let '(o, acc) := fillAndSpillOperand stackSlots origin o acc in
      let '(operands, acc) := fillAndSpillOperands stackSlots origin operands acc in
      (o :: operands, acc)
  end.

(** The body of the loop over the instructions of a block: the rewritten
    instruction between the fills inserted at its index and the spills
    inserted at the next index. *)
Definition spillInst (stackSlots : gmap Z N) (inst : Inst) (code : Code)
    : list Inst * Code :=
  let operands := replaceByStack stackSlots <$> args inst in
  let '(operands, acc) :=
    fillAndSpillOperands stackSlots (origin inst) operands
      {| updatedCode := code; before := []; after := [] |} in
  (before acc
     ++ [ {| opcode := opcode inst; args := operands; origin := origin inst |} ]
     ++ after acc,
   updatedCode acc).

(** One block, then [insertionSet.execute(block)].  Modelled from the spec:
    the insertion set gives "insertion of instructions at an index with
    deferred execution"; insertions at the same index keep the order in which
    they were made, so the spills of an instruction precede the fills of the
    next one. *)
Fixpoint spillBlock (stackSlots : gmap Z N) (block : list Inst) (code : Code)
    : list Inst * Code :=
  match block with
  | [] => ([], code)
  | inst :: block =>
      let '(insts, code) := spillInst stackSlots inst code in
      let '(block, code) := spillBlock stackSlots block code in
      (insts ++ block, code)
  end.

Fixpoint spillBlocks (stackSlots : gmap Z N) (blocks : list (list Inst)) (code : Code)
    : list (list Inst) * Code :=
  match blocks with
  | [] => ([], code)
  | block :: blocks =>
      let '(block, code) := spillBlock stackSlots block code in
      let '(blocks, code) := spillBlocks stackSlots blocks code in
      (block :: blocks, code)
  end.

(** [acc'] holds the insertions of [acc] and maybe more, and its program
    has at least as many temporaries of the bank. *)
Definition extends (acc acc' : Insertions) : Prop :=
  before acc `prefix_of` before acc'
  ∧ after acc `prefix_of` after acc'
  ∧ numTmps (updatedCode acc) bank ≤ numTmps (updatedCode acc') bank.

Definition addSpillAndFillToProgram (code : Code) (spilledTmp : list Tmp) : Code :=
  let '(stackSlots, code) := allocateSpillSlots spilledTmp code in
  let '(blocks, code) := spillBlocks stackSlots (blocks code) code in
  set_blocks blocks code.

End Bank.
End Rewriter.

(** ** The bank driver *)

Module Driver.
Import IRC Rewriter.

(** One turn of a driver loop, for the record that the properties of the
    driver are stated on: a coupled turn makes one [Liveness] for both
    banks, an uncoupled turn makes one for its bank; the flags say whether
    the bank was colored in that turn. *)
Inductive Round :=
| Coupled (gpIsColored fpIsColored : bool)
| Uncoupled (bank : ArgType) (isColored : bool).

#[global] Instance Round_eq_dec : EqDecision Round.
Proof. solve_decision. Defined.

(** The record of [iteratedRegisterCoalescingOnType] when its loop ends:
    [n] turns that spilled, then the turn that colored. *)
Definition uncoupledRounds (bank : ArgType) (n : nat) : list Round :=
  replicate n (Uncoupled bank false) ++ [Uncoupled bank true].

Section Passes.
Variable target : Target.

(** The liveness oracle, "consumed as a black box": [liveness code b i] is
    [localCalc.live()] of block [b] when [build] is called on its
    instruction [i], the temporaries live after that instruction. *)
Variable liveness : Code → nat → nat → list Tmp.

(** The inner loop over one block, last instruction first. *)
Definition buildBlock (bank : ArgType) (live : nat → list Tmp) (blockIndex : nat)
    (block : list Inst) (allocator : Allocator) : Allocator :=
  foldl (λ allocator '(instIndex, inst),
           build target bank {| address := (blockIndex, instIndex); pointee := inst |}
                 (live instIndex) allocator)
        allocator (reverse (imap (λ instIndex inst, (instIndex, inst)) block)).

(** The loop over the blocks that feeds one allocator. *)
Definition buildCode (bank : ArgType) (live : nat → nat → list Tmp) (code : Code)
    : Allocator :=
  foldl (λ allocator '(blockIndex, block),
           buildBlock bank (live blockIndex) blockIndex block allocator)
        (newAllocator target bank (numTmps code bank))
        (imap (λ blockIndex block, (blockIndex, block)) (blocks code)).

(** What follows [allocate] in both drivers: the registers go into the
    program when nothing spilled, the spill code otherwise. *)
Definition finish (bank : ArgType) (code : Code) (allocator : Allocator)
    : option (Code * bool) :=
  if bool_decide (m_spilledTmp allocator = []) then
    code ← assignRegisterToTmpInProgram target bank code allocator;
    Some (code, true)
  else Some (addSpillAndFillToProgram target bank code (m_spilledTmp allocator), false).

(** [iteratedRegisterCoalescingOnType<type>]: [fuel] bounds the turns of its
    [while (true)] and the steps of each [allocate]. *)
Fixpoint iteratedRegisterCoalescingOnType (fuel : nat) (bank : ArgType) (code : Code)
    : option (Code * list Round) :=
  match fuel with
  | O => None
  | S fuel' =>
      let allocator := buildCode bank (liveness code) code in
      allocator ← allocate target bank fuel allocator;
      match finish bank code allocator with
      | None => None
      | Some (code, true) => Some (code, [Uncoupled bank true])
      | Some (code, false) =>
          '(code, rounds) ← iteratedRegisterCoalescingOnType fuel' bank code;
          Some (code, Uncoupled bank false :: rounds)
      end
  end.

(** The first loop of [iteratedRegisterCoalescing]: "first we run both
    allocator together as long as they both spill".  Both graphs are built
    from the program as it is when the turn starts. *)
Fixpoint coupledRounds (fuel : nat) (code : Code)
    : option (Code * bool * bool * list Round) :=
  match fuel with
  | O => None
  | S fuel' =>
      let live := liveness code in
      let gpAllocator := buildCode GP live code in
      let fpAllocator := buildCode FP live code in
      gpAllocator ← allocate target GP fuel gpAllocator;
      '(code, gpIsColored) ← finish GP code gpAllocator;
      fpAllocator ← allocate target FP fuel fpAllocator;
      '(code, fpIsColored) ← finish FP code fpAllocator;
      if negb (gpIsColored : bool) && negb (fpIsColored : bool) then
        '(code, gp, fp, rounds) ← coupledRounds fuel' code;
        Some (code, gp, fp, Coupled false false :: rounds)
      else Some (code, gpIsColored, fpIsColored, [Coupled gpIsColored fpIsColored])
  end.

(** [iteratedRegisterCoalescing].  The loop is entered with both flags
    false, so its body runs at least once. *)
Definition iteratedRegisterCoalescing (fuel : nat) (code : Code)
    : option (Code * list Round) :=
  '(code, gpIsColored, fpIsColored, rounds) ← coupledRounds fuel code;
  '(code, gpRounds) ←
    (if negb (gpIsColored : bool) then iteratedRegisterCoalescingOnType fuel GP code
     else Some (code, []));
  '(code, fpRounds) ←
    (if negb (fpIsColored : bool) then iteratedRegisterCoalescingOnType fuel FP code
     else Some (code, []));
  Some (code, rounds ++ gpRounds ++ fpRounds).

End Passes.
End Driver.

(** ** Constant motion *)

Module MoveConstants.

(** Modelled from the spec: B3Value.h, B3ValueKey.h and B3Opcode.h are not
    part of the source tree.  A constant's key is "(opcode, type,
    bit-pattern)"; a double is kept as its 64-bit pattern, so that two keys
    are equal exactly when the three components are. *)
Inductive Opcode := Const32 | Const64 | ConstDouble | Add | Load | Nop.
Inductive Type_ := Int32 | Int64 | Double | Void.

#[global] Instance Opcode_eq_dec : EqDecision Opcode.
Proof. solve_decision. Defined.
#[global] Instance Opcode_countable : Countable Opcode.
Proof.
  refine (inj_countable'
    (λ o, match o with
          | Const32 => 0%nat | Const64 => 1%nat | ConstDouble => 2%nat
          | Add => 3%nat | Load => 4%nat | Nop => 5%nat end)
    (λ n, match n with
          | 0%nat => Const32 | 1%nat => Const64 | 2%nat => ConstDouble
          | 3%nat => Add | 4%nat => Load | _ => Nop end) _).
  by intros [].
Defined.
#[global] Instance Type_eq_dec : EqDecision Type_.
Proof. solve_decision. Defined.
#[global] Instance Type_countable : Countable Type_.
Proof.
  refine (inj_countable'
    (λ o, match o with
          | Int32 => 0%nat | Int64 => 1%nat | Double => 2%nat | Void => 3%nat end)
    (λ n, match n with
          | 0%nat => Int32 | 1%nat => Int64 | 2%nat => Double | _ => Void end) _).
  by intros [].
Defined.

(** [ValueKey(opcode, type, value)]. *)
Definition ValueKey : Type := Opcode * Type_ * Z.

Definition keyOpcode (key : ValueKey) : Opcode := key.1.1.
Definition keyValue (key : ValueKey) : Z := key.2.

(** A value of the procedure: its opcode and type, the 64-bit pattern of
    its constant, and the indices of its children. *)
Record Value := {
  opcode : Opcode;
  type : Type_;
  bits : Z;
  children : list nat
}.

(** [value->isConstant()]. *)
Definition isConstant (value : Value) : bool :=
  match opcode value with
  | Const32 | Const64 | ConstDouble => true
  | _ => false
  end.

(** [value->hasInt()]. *)
Definition hasInt (value : Value) : bool :=
  match opcode value with
  | Const32 | Const64 => true
  | _ => false
  end.

(** [value->representableAs<int32_t>()] for a value that has an integer. *)
Definition representableAsInt32 (value : Value) : bool :=
  (- 2 ^ 31 <=? bits value) && (bits value <? 2 ^ 31).

(** [value->key()]. *)
Definition key (value : Value) : ValueKey := (opcode value, type value, bits value).

(** [doubleZero()]: the key of [+0.0], whose bit pattern is zero. *)
Definition doubleZero : ValueKey := (ConstDouble, Double, 0).

Definition goesInTable (key : ValueKey) : bool :=
  bool_decide (keyOpcode key = ConstDouble) && bool_decide (key ≠ doubleZero).

Definition needsMotion (value : Value) : bool :=
  if negb (isConstant value) then false
  else if hasInt value && representableAsInt32 value then false
  else true.

(** The body of the first loop of [run] on one value: [m_toRemove] and
    [m_constTable]. *)
Definition collectConstant (acc : list Value * gmap ValueKey nat) (value : Value)
    : list Value * gmap ValueKey nat :=
  let '(toRemove, constTable) := acc in
  if negb (needsMotion value) then (toRemove, constTable)
  else
    let toRemove := toRemove ++ [value] in
    let key := key value in
    if goesInTable key then
      (toRemove,
       if constTable !! key is Some _ then constTable
       else <[key := size constTable]> constTable)
    else (toRemove, constTable).

Definition collectConstants (values : list Value)
    : list Value * gmap ValueKey nat :=
  foldl collectConstant ([], ∅) values.

Definition constTable (values : list Value) : gmap ValueKey nat :=
  (collectConstants values).2.

(** The data section: [m_dataSection[entry.value] = entry.key.value()]. *)
Definition dataSection (values : list Value) : gmap nat Z :=
  map_fold (λ key slot section, <[slot := keyValue key]> section) ∅ (constTable values).

End MoveConstants.

(** ** A small target and programs for the worked cases *)

Module Examples.
Import IRC Rewriter Driver.

(** Three GP registers (temporaries 1, 2, 3) of which two are handed out,
    two FP registers (temporaries -1, -2); allocatable GP temporaries start
    at 4 and allocatable FP temporaries at -3. *)
Definition demoTarget : Target :=
  {| numberOfGPRs := 3;
     numberOfFPRs := 2;
     regsInPriorityOrder := λ bank, match bank with GP => [1; 2] | FP => [-1; -2] end;
     moveAdmitsStack := λ _ _, true |}.

Definition use (tmp : Tmp) : Operand :=
  {| arg := ArgTmp tmp; role := Use; type := tmpType tmp; admitsStack := false |}.

Definition def (tmp : Tmp) : Operand :=
  {| arg := ArgTmp tmp; role := Def; type := tmpType tmp; admitsStack := false |}.

Definition inst (opcode : Air.Opcode) (args : list Operand) : Inst :=
  {| Air.opcode := opcode; args := args; origin := 0 |}.

(** Liveness of a block on its own, nothing being live at its end: the
    temporaries live before an instruction are the ones live after it that
    it does not define, and the ones it uses. *)
Definition liveBefore (i : Inst) (liveAfter : list Tmp) : list Tmp :=
  let defs := (λ x, x.1.1) <$> filter (λ x, isDef x.1.2 = true) (instTmps i) in
  let uses := (λ x, x.1.1) <$> filter (λ x, isUse x.1.2 = true) (instTmps i) in
  HashSet.addAll uses (filter (λ tmp, tmp ∉ defs) liveAfter).

Fixpoint liveAfterEach (block : list Inst) : list (list Tmp) * list Tmp :=
  match block with
  | [] => ([], [])
  | i :: block =>
      let '(lives, liveAfter) := liveAfterEach block in
      (liveAfter :: lives, liveBefore i liveAfter)
  end.

Definition blockLiveness (code : Code) (blockIndex instIndex : nat) : list Tmp :=
  default [] ((liveAfterEach (default [] (blocks code !! blockIndex))).1 !! instIndex).

Definition codeOf (block : list Inst) (numGP numFP : Z) : Code :=
  {| blocks := [block]; numGPTmps := numGP; numFPTmps := numFP; stackSlots := [] |}.

(** The graph of one bank for a one-block program, ready for the main loop. *)
Definition graphOf (bank : ArgType) (code : Code) : Allocator :=
  makeWorkList demoTarget bank (buildCode demoTarget bank (blockLiveness code) code).

(** An instruction that defines a GP and an FP temporary. *)
Definition twoBankDefs : InstPtr :=
  {| address := (0, 0)%nat; pointee := inst (Patch 0) [def 4; def (-3)] |}.

(** A precolored pair: register 2 is moved into temporary 4, temporaries 5
    and 6 are live across it, then 5 is moved into register 1. *)
Definition georgeProgram : Code :=
  codeOf [ inst Move [use 2; def 4];
           inst (Patch 0) [def 5];
           inst (Patch 0) [def 6];
           inst (Patch 1) [use 4; use 2];
           inst Move [use 5; def 1];
           inst (Patch 1) [use 1; use 6] ] 3 0.

(** Temporary 4 is moved into 5 and 5 into 6; 7 and 8 are live with 6. *)
Definition freezeProgram : Code :=
  codeOf [ inst (Patch 0) [def 4];
           inst (Patch 0) [def 7];
           inst (Patch 1) [use 7];
           inst Move [use 4; def 5];
           inst Move [use 5; def 6];
           inst (Patch 0) [def 8];
           inst (Patch 0) [def 7];
           inst (Patch 1) [use 6; use 8; use 7] ] 5 0.

(** Three temporaries of each bank live at once, with two registers each. *)
Definition spillingProgram : Code :=
  codeOf [ inst (Patch 0) [def 4]; inst (Patch 0) [def 5]; inst (Patch 0) [def 6];
           inst (Patch 1) [use 5]; inst (Patch 1) [use 6]; inst (Patch 1) [use 4];
           inst (Patch 0) [def (-3)]; inst (Patch 0) [def (-4)]; inst (Patch 0) [def (-5)];
           inst (Patch 1) [use (-4)]; inst (Patch 1) [use (-5)]; inst (Patch 1) [use (-3)] ]
         3 3.

(** A read-modify-write slot that admits a stack operand. *)
Definition useDefOnStack : Operand :=
  {| arg := ArgTmp 4; role := UseDef; type := GP; admitsStack := true |}.

(** Constants of a procedure: a 64-bit integer, [+0.0] and a double. *)
Definition bigInt : MoveConstants.Value :=
  {| MoveConstants.opcode := MoveConstants.Const64; MoveConstants.type := MoveConstants.Int64;
     MoveConstants.bits := 2 ^ 40; MoveConstants.children := [] |}.
Definition plusZero : MoveConstants.Value :=
  {| MoveConstants.opcode := MoveConstants.ConstDouble; MoveConstants.type := MoveConstants.Double;
     MoveConstants.bits := 0; MoveConstants.children := [] |}.
Definition pi : MoveConstants.Value :=
  {| MoveConstants.opcode := MoveConstants.ConstDouble; MoveConstants.type := MoveConstants.Double;
     MoveConstants.bits := 4614253070214989087; MoveConstants.children := [] |}.

End Examples.

(** ** A program that is colored without a spill *)

Module Programs.
Import Examples.

(** Temporaries 4 and 5 are live together; register 1 is written after they
    die and is live with temporary 6. *)
Definition coloringProgram : Rewriter.Code :=
  codeOf [ inst (Patch 0) [def 4];
           inst (Patch 0) [def 5];
           inst (Patch 1) [use 4; use 5];
           inst (Patch 0) [def 1];
           inst (Patch 0) [def 6];
           inst (Patch 1) [use 6; use 1] ] 3 0.

End Programs.

(** ** More of the interference edge and of the graph *)

Module Graph.
Import IRC.

(** [InterferenceEdge()]: [m_value { 0 }], the empty value of the hash
    traits. *)
Definition emptyEdge : Z := 0.

(** [InterferenceEdge(WTF::HashTableDeletedValue)]. *)
Definition deletedEdge : Z := 2 ^ 64 - 1.

(** [InterferenceEdge::isHashTableDeletedValue]. *)
Definition isHashTableDeletedValue (edge : Z) : bool := bool_decide (edge = deletedEdge).

End Graph.

(** ** The loop bodies of the allocator, one turn at a time *)

Module Turns.
Import IRC.
Section Bank.
Variable target : Target.
Variable bank : ArgType.

(** The body of the [for] loop of [makeWorkList] at index [i]. *)
Definition seedWorkList (s : Allocator) (i : Z) : Allocator :=
  let degree := default 0 (m_degrees s !! i) in
  if decide (degree = 0) then s
  else
    let tmp := tmpFromAbsoluteIndex bank i in
    if m_numberOfRegisters s <=? degree
    then set_spillWorklist (HashSet.add tmp (m_spillWorklist s)) s
    else if negb (bool_decide (moves bank s tmp = []))
    then set_freezeWorklist (HashSet.add tmp (m_freezeWorklist s)) s
    else set_simplifyWorklist (m_simplifyWorklist s ++ [tmp]) s.

(** The indices that the loop of [makeWorkList] visits. *)
Definition seededIndices (s : Allocator) : list Z :=
  let firstNonRegIndex := absoluteIndexOfIndex target bank 0 in
  seqZ firstNonRegIndex (m_tmpArraySize s - firstNonRegIndex).

End Bank.
End Turns.

(** ** What the builder keeps true of the graph *)

Module GraphInvariant.
Import IRC.
Section Bank.
Variable target : Target.
Variable bank : ArgType.

(** The adjacency vectors and the edge set describe the same graph: each
    neighbour is behind an edge of the set, an edge of the set is in the
    vector of each of its ends that is no register, no vector lists a
    temporary twice, and no temporary interferes with itself. *)
Definition graphConsistent (s : Allocator) : Prop :=
  (∀ a b, isInt a → b ∈ adjacency bank s a → isInt b ∧ a ≠ b ∧ interfere s a b = true)
  ∧ (∀ a b, isInt a → isInt b → interfere s a b = true → isReg target a = false →
            b ∈ adjacency bank s a)
  ∧ (∀ a, isInt a → NoDup (adjacency bank s a))
  ∧ (∀ a, isInt a → interfere s a a = false).

(** [m_degrees] counts the entries of [m_adjacencyList], as an [unsigned],
    from the first index that is no register on. *)
Definition degreesMatch (s : Allocator) : Prop :=
  ∀ i, absoluteIndexOfIndex target bank 0 ≤ i →
       default 0 (m_degrees s !! i)
       = Z.of_nat (length (default [] (m_adjacencyList s !! i))) mod 2 ^ 32.

End Bank.

(** The bit vector [m_isOnSelectStack] holds the indices of the temporaries
    of [m_selectStack], and no other. *)
Definition stackMatches (bank : ArgType) (s : Allocator) : Prop :=
  ∀ i, i ∈ m_isOnSelectStack s
       ↔ ∃ tmp, tmp ∈ m_selectStack s ∧ absoluteIndex bank tmp = i.

(** A register that [assignColors] may not give to [tmp]: the alias of a
    neighbour when it is a register, the register written for it otherwise. *)
Definition forbidden (target : Target) (bank : ArgType) (s : Allocator) (tmp : Tmp)
    (reg : Reg) : Prop :=
  ∃ adjacentTmp aliasTmp,
    adjacentTmp ∈ adjacency bank s tmp
    ∧ getAlias bank s adjacentTmp = Some aliasTmp
    ∧ if isReg target aliasTmp then reg = aliasTmp
      else reg = coloredTmp bank s aliasTmp ∧ reg ≠ 0.

(** The temporaries of an instruction are values of an [int]. *)
Definition instWellFormed (inst : Inst) : Prop :=
  ∀ tmp role argType, (tmp, role, argType) ∈ instTmps inst → isInt tmp.

(** The same of a whole program and of the sets its liveness reports. *)
Definition codeWellFormed (live : nat → nat → list Tmp) (code : Rewriter.Code) : Prop :=
  ∀ blockIndex block instIndex inst,
    Rewriter.blocks code !! blockIndex = Some block → block !! instIndex = Some inst →
    instWellFormed inst ∧ Forall isInt (live blockIndex instIndex).

(** The test [isInt] as a function, to run [codeWellFormed] on a program. *)
Definition isIntb (v : Z) : bool := (- 2 ^ 31 <=? v) && (v <? 2 ^ 31).

End GraphInvariant.

(** ** Constant motion inside a block *)

Module Materialize.
Import MoveConstants.

(** Modelled from the spec: B3InsertionSet.h, B3MemoryValue.h, B3Procedure.h
    and B3ValueKey.h are not part of the source tree.  The pass replaces a
    child "with a materialization inserted just before its first user in the
    block"; "table constants materialize as a load from [table-base +
    slot*wordsize]; the table-base is itself a constant pointer that is
    recursively materialized and cached in the same cache"; any other key
    materializes as the constant of the key.  A value of the procedure is
    named by its number, and a value that the pass makes takes the next free
    number.  An insertion records the index it is made at; the insertion set
    gives "insertion of instructions at an index with deferred execution".
    The origin that the source hands on to the new value is left out. *)
Inductive Materialization :=
| TableLoad (type : Type_) (tableBase : nat) (offset : Z)
| KeyConstant (key : ValueKey).

Record Insertion := {
  index : nat;
  inserted : nat;
  made : Materialization
}.

(** [m_constants], [m_insertionSet] and the number of values of the
    procedure. *)
Record State := {
  m_constants : gmap ValueKey nat;
  m_insertionSet : list Insertion;
  numValues : nat
}.

Definition keyType (key : ValueKey) : Type_ := key.1.2.

Section Pass.
(** [m_constTable]; the key [ValueKey(constPtrOpcode(), pointerType(),
    m_dataSection)] of the table base; [sizeof(intptr_t)]. *)
Variable m_constTable : gmap ValueKey nat.
Variable tableBaseKey : ValueKey.
Variable wordSize : Z.

(** [m_insertionSet.insert<...>(valueIndex, ...)] and
    [m_insertionSet.insertValue(valueIndex, ...)]. *)
Definition insertValue (valueIndex : nat) (made : Materialization) (st : State)
    : nat * State :=
  (numValues st,
   {| m_constants := m_constants st;
      m_insertionSet := m_insertionSet st
                        ++ [{| index := valueIndex; inserted := numValues st;
                               made := made |}];
      numValues := S (numValues st) |}).

(** [m_constants.add(key, result)], which keeps an entry that is there. *)
Definition addConstant (key : ValueKey) (result : nat) (st : State) : State :=
  {| m_constants := if m_constants st !! key is Some _ then m_constants st
                    else <[key := result]> (m_constants st);
     m_insertionSet := m_insertionSet st;
     numValues := numValues st |}.

(** [materialize(valueIndex, key, origin)]; [fuel] bounds the depth of its
    recursion. *)
Fixpoint materialize (fuel : nat) (valueIndex : nat) (key : ValueKey) (st : State)
    : option (nat * State) :=
  match fuel with
  | O => None
  | S fuel =>
      match m_constants st !! key with
      | Some result => Some (result, st)
      | None =>
          if goesInTable key then
            match materialize fuel valueIndex tableBaseKey st with
            | Some (tableBase, st) =>
                let '(result, st) :=
                  insertValue valueIndex
                    (TableLoad (keyType key) tableBase
                       (wordSize * Z.of_nat (default 0%nat (m_constTable !! key)))) st in
                Some (result, addConstant key result st)
            | None => None
            end
          else
            let '(result, st) := insertValue valueIndex (KeyConstant key) st in
            Some (result, addConstant key result st)
      end
  end.

(** The body of the loop over the children of a value, on one child. *)
Definition moveChild (fuel : nat) (values : list Value) (valueIndex : nat) (child : nat)
    (st : State) : option (nat * State) :=
  match values !! child with
  | Some childValue =>
      if negb (needsMotion childValue) then Some (child, st)
      else materialize fuel valueIndex (key childValue) st
  | None => Some (child, st)
  end.

(** [for (Value*& child : value->children())]. *)
Fixpoint moveChildren (fuel : nat) (values : list Value) (valueIndex : nat)
    (children : list nat) (st : State) : option (list nat * State) :=
  match children with
  | [] => Some ([], st)
  | child :: children =>
      match moveChild fuel values valueIndex child st with
      | Some (child, st) =>
          match moveChildren fuel values valueIndex children st with
          | Some (children, st) => Some (child :: children, st)
          | None => None
          end
      | None => None
      end
  end.

(** The loop over the values of a block from [valueIndex] on; it returns the
    children of each value after the pass. *)
Fixpoint moveValues (fuel : nat) (values : list Value) (valueIndex : nat)
    (block : list nat) (st : State) : option (list (list nat) * State) :=
  match block with
  | [] => Some ([], st)
  | value :: block =>
      match moveChildren fuel values valueIndex
              (default [] (children <$> values !! value)) st with
      | Some (children, st) =>
          match moveValues fuel values (S valueIndex) block st with
          | Some (rest, st) => Some (children :: rest, st)
          | None => None
          end
      | None => None
      end
  end.

(** One turn of the loop over the blocks: [m_constants.clear()], then the
    loop over the values. *)
Definition moveBlock (fuel : nat) (values : list Value) (block : list nat)
    (numValues : nat) : option (list (list nat) * State) :=
  moveValues fuel values 0 block
    {| m_constants := ∅; m_insertionSet := []; numValues := numValues |}.

End Pass.

(** What [st] has made for [key]: the constant of the key, or a load of the
    type of the key for a key that goes in the table. *)
Definition madeFor (key : ValueKey) (made : Materialization) : Prop :=
  match made with
  | KeyConstant k => k = key ∧ goesInTable key = false
  | TableLoad type _ _ => type = keyType key ∧ goesInTable key = true
  end.

(** The cache and the insertion set go together: every entry of the cache
    names the value that one insertion has made for its key, every insertion
    is the entry of a key, two keys never share a value, there are as many
    insertions as entries, and the values made have numbers of their own,
    below [numValues]. *)
Definition cacheMatches (st : State) : Prop :=
  (∀ key result, m_constants st !! key = Some result →
     ∃ insertion, insertion ∈ m_insertionSet st
                  ∧ inserted insertion = result ∧ madeFor key (made insertion))
  ∧ (∀ insertion, insertion ∈ m_insertionSet st →
       ∃ key, m_constants st !! key = Some (inserted insertion))
  ∧ (∀ key1 key2 result, m_constants st !! key1 = Some result →
       m_constants st !! key2 = Some result → key1 = key2)
  ∧ length (m_insertionSet st) = size (m_constants st)
  ∧ NoDup (inserted <$> m_insertionSet st)
  ∧ (∀ insertion, insertion ∈ m_insertionSet st → (inserted insertion < numValues st)%nat).

(** The children of a value after the pass: a child that needs motion has
    given way to the value that the cache holds for its key, any other child
    is as before. *)
Definition childMoved (values : list Value) (st : State) (child child' : nat) : Prop :=
  match values !! child with
  | Some childValue =>
      if needsMotion childValue then m_constants st !! key childValue = Some child'
      else child' = child
  | None => child' = child
  end.

End Materialize.

(** * Properties *)

(** ** Facts about the containers *)

Module HashSetFacts.
Section Facts.
Context {A : Type} `{EqDecision A}.
Implicit Types (x y : A) (l : list A).

Lemma contains_true x l : HashSet.contains x l = true ↔ x ∈ l.
Proof. unfold HashSet.contains. by rewrite bool_decide_eq_true. Qed.

Lemma contains_false x l : HashSet.contains x l = false ↔ x ∉ l.
Proof. unfold HashSet.contains. by rewrite bool_decide_eq_false. Qed.

Lemma elem_of_add y x l : y ∈ HashSet.add x l ↔ y = x ∨ y ∈ l.
Proof.
  unfold HashSet.add. destruct (HashSet.contains x l) eqn:Hc.
  - apply contains_true in Hc. split; [by right|]. by intros [->|?].
  - rewrite elem_of_app, list_elem_of_singleton. tauto.
Qed.

Lemma elem_of_remove y x l : y ∈ HashSet.remove x l ↔ y ≠ x ∧ y ∈ l.
Proof. unfold HashSet.remove. rewrite list_elem_of_filter. tauto. Qed.

Lemma add_NoDup x l : NoDup l → NoDup (HashSet.add x l).
Proof.
  intros Hl. unfold HashSet.add. destruct (HashSet.contains x l) eqn:Hc; [done|].
  apply contains_false in Hc. apply NoDup_app. split_and!; [done| |apply NoDup_singleton].
  intros y Hy ->%list_elem_of_singleton. done.
Qed.

Lemma add_length x l :
  length (HashSet.add x l) =
  if HashSet.contains x l then length l else S (length l).
Proof.
  unfold HashSet.add. destruct (HashSet.contains x l); [done|].
  rewrite length_app. simpl. lia.
Qed.

Lemma takeLast_Some l x rest :
  HashSet.takeLast l = Some (x, rest) → l = rest ++ [x].
Proof.
  unfold HashSet.takeLast. destruct (last l) as [y|] eqn:Hlast; [|done].
  intros [= <- <-]. apply last_Some in Hlast as [l' ->].
  by rewrite removelast_last.
Qed.

End Facts.
End HashSetFacts.

(** ** The allocator: frames, spill selection and coloring *)

Module IRCFacts.
Import IRC HashSetFacts.

Section Bank.
Variable target : Target.
Variable bank : ArgType.

Lemma keeps_foldl {X B} (field : Allocator → X) (f : Allocator → B → Allocator) l :
  (∀ x, keeps field (λ s, f s x)) → keeps field (λ s, foldl f s l).
Proof.
  intros Hf s. revert s. induction l as [|x l IH]; intros s; simpl; [done|].
  rewrite IH. apply Hf.
Qed.

Lemma keeps_forEachAdjacent {X} (field : Allocator → X) tmp function :
  (∀ t, keeps field (function t)) → keeps field (forEachAdjacent bank tmp function).
Proof.
  intros Hf s. unfold forEachAdjacent.
  generalize (adjacency bank s tmp). intros l. revert s.
  induction l as [|x l IH]; intros s; simpl; [done|].
  rewrite IH. destruct (hasBeenSimplified bank s x); [done|apply Hf].
Qed.

Lemma keeps_forEachNodeMoves {X} (field : Allocator → X) tmp function :
  (∀ t, keeps field (function t)) → keeps field (forEachNodeMoves bank tmp function).
Proof.
  intros Hf s. unfold forEachNodeMoves.
  generalize (moves bank s tmp). intros l. revert s.
  induction l as [|x l IH]; intros s; simpl; [done|].
  rewrite IH. destruct (isLiveMove s x); [apply Hf|done].
Qed.

Lemma addEdge_keeps_coalescedTmps a b : keeps m_coalescedTmps (addEdge target bank a b).
Proof. intros s. unfold addEdge, appendAdjacent. repeat case_match; done. Qed.

Lemma addEdge_keeps_worklistMoves a b : keeps m_worklistMoves (addEdge target bank a b).
Proof. intros s. unfold addEdge, appendAdjacent. repeat case_match; done. Qed.

Lemma addEdge_keeps_activeMoves a b : keeps m_activeMoves (addEdge target bank a b).
Proof. intros s. unfold addEdge, appendAdjacent. repeat case_match; done. Qed.

Lemma addEdge_keeps_moveList a b : keeps m_moveList (addEdge target bank a b).
Proof. intros s. unfold addEdge, appendAdjacent. repeat case_match; done. Qed.

Lemma freezeMoves_keeps_spillWorklist tmp : keeps m_spillWorklist (freezeMoves bank tmp).
Proof.
  apply keeps_forEachNodeMoves. intros inst s. cbv beta zeta.
  repeat (case_match; cbn); done.
Qed.

(** [freezeMoves] only appends to the simplify worklist. *)
Lemma freezeMoves_simplifyWorklist tmp s :
  ∃ transferred,
    m_simplifyWorklist (freezeMoves bank tmp s) = m_simplifyWorklist s ++ transferred.
Proof.
  unfold freezeMoves, forEachNodeMoves. generalize (moves bank s tmp). intros l.
  revert s. induction l as [|x l IH]; intros s; simpl.
  - exists []. by rewrite app_nil_r.
  - destruct (isLiveMove s x); [|apply IH].
    match goal with |- context [foldl ?f ?s' l] => destruct (IH s') as [tr Htr] end.
    rewrite Htr. repeat case_match; cbn; eauto.
    all: rewrite <- app_assoc; eauto.
Qed.

Lemma selectSpillVictim_spec s iterator seen victim :
  firstOfMaximalDegree bank s seen victim →
  firstOfMaximalDegree bank s (seen ++ iterator)
    (selectSpillVictim bank s victim (degree bank s victim) iterator).
Proof.
  revert seen victim. induction iterator as [|tmp iterator IH]; intros seen victim Hinv.
  - by rewrite app_nil_r.
  - simpl. rewrite (assoc_L (++) seen [tmp] iterator : seen ++ tmp :: iterator = _).
    destruct Hinv as (i & Hi & Hmax & Hfirst).
    assert (i < length seen)%nat as Hlt by (by eapply lookup_lt_Some).
    destruct (degree bank s victim <? degree bank s tmp) eqn:Hlt'.
    + apply Z.ltb_lt in Hlt'. apply IH. exists (length seen). split_and!.
      * by rewrite lookup_app_r, Nat.sub_diag.
      * intros j t Hj. apply lookup_snoc_Some in Hj as [[_ Hj]|[_ <-]]; [|lia].
        specialize (Hmax _ _ Hj). lia.
      * intros j t Hjlt Hj. rewrite lookup_app_l in Hj by done.
        specialize (Hmax _ _ Hj). lia.
    + apply Z.ltb_ge in Hlt'. apply IH. exists i. split_and!.
      * by rewrite lookup_app_l.
      * intros j t Hj. apply lookup_snoc_Some in Hj as [[_ Hj]|[_ <-]]; [|lia].
        by eapply Hmax.
      * intros j t Hjlt Hj. rewrite lookup_app_l in Hj by lia. by eapply Hfirst.
Qed.

Lemma selectSpillVictim_ext s s' iterator victim maxDegree :
  (∀ t, t ∈ iterator → degree bank s' t = degree bank s t) →
  selectSpillVictim bank s' victim maxDegree iterator
  = selectSpillVictim bank s victim maxDegree iterator.
Proof.
  revert victim maxDegree. induction iterator as [|tmp iterator IH];
    intros victim maxDegree Hdeg; simpl; [done|].
  rewrite (Hdeg tmp) by left.
  destruct (maxDegree <? degree bank s tmp); apply IH; intros t Ht; apply Hdeg; by right.
Qed.

(** C7.  [selectSpill] takes, in the iteration order of the spill worklist,
    the first temporary whose degree is the largest; it removes it from the
    spill worklist, appends it to the simplify worklist and runs
    [freezeMoves] on it.  The choice depends on nothing but the order of the
    worklist and the degrees of its members. *)
Theorem selectSpill_takes_first_of_maximal_degree (s : Allocator) :
  m_spillWorklist s ≠ [] →
  ∃ victim,
    spillVictim bank s = Some victim
    ∧ firstOfMaximalDegree bank s (m_spillWorklist s) victim
    ∧ (selectSpill bank s
       = freezeMoves bank victim
           (set_simplifyWorklist (m_simplifyWorklist s ++ [victim])
              (set_spillWorklist (HashSet.remove victim (m_spillWorklist s)) s)))
    ∧ m_spillWorklist (selectSpill bank s) = HashSet.remove victim (m_spillWorklist s)
    ∧ (victim ∉ m_spillWorklist (selectSpill bank s))
    ∧ (∃ transferred,
         m_simplifyWorklist (selectSpill bank s)
         = m_simplifyWorklist s ++ (victim :: transferred))
    ∧ (∀ s', m_spillWorklist s' = m_spillWorklist s →
             (∀ t, t ∈ m_spillWorklist s → degree bank s' t = degree bank s t) →
             spillVictim bank s' = Some victim).
Proof.
  intros Hne. unfold spillVictim, selectSpill.
  destruct (m_spillWorklist s) as [|tmp iterator] eqn:Hspill; [done|].
  set (victim := selectSpillVictim bank s tmp (degree bank s tmp) iterator).
  exists victim. split_and!.
  - done.
  - apply (selectSpillVictim_spec s iterator [tmp] tmp).
    exists 0%nat. split; [done|]. split; [|lia].
    intros [|j] t Hj; simpl in Hj.
    + injection Hj as <-. lia.
    + by rewrite lookup_nil in Hj.
  - done.
  - by rewrite freezeMoves_keeps_spillWorklist.
  - rewrite freezeMoves_keeps_spillWorklist.
    cbn [m_spillWorklist set_simplifyWorklist set_spillWorklist].
    rewrite elem_of_remove. by intros [].
  - match goal with
    | |- context [freezeMoves bank ?v ?st] =>
        destruct (freezeMoves_simplifyWorklist v st) as [transferred Htr]
    end.
    exists transferred. rewrite Htr. cbn. by rewrite <- app_assoc.
  - intros s' -> Hdeg. f_equal. subst victim.
    rewrite (Hdeg tmp) by left.
    apply selectSpillVictim_ext. intros t Ht. apply Hdeg. by right.
Qed.

(** [getAlias] reads nothing but the alias map. *)
Lemma getAliasFrom_ext fuel s s' tmp :
  m_coalescedTmps s' = m_coalescedTmps s →
  getAliasFrom bank fuel s' tmp = getAliasFrom bank fuel s tmp.
Proof.
  intros Heq. revert tmp. induction fuel as [|fuel IH]; intros tmp; simpl; [done|].
  unfold coalescedTmp. rewrite Heq. case_decide; [done|apply IH].
Qed.

Lemma getAlias_ext s s' tmp :
  m_coalescedTmps s' = m_coalescedTmps s →
  getAlias bank s' tmp = getAlias bank s tmp.
Proof. intros Heq. unfold getAlias. rewrite Heq. by apply getAliasFrom_ext. Qed.

Lemma coloredRegisters_total s adjacents set :
  (∀ t, is_Some (getAlias bank s t)) →
  is_Some (coloredRegisters target bank s adjacents set).
Proof.
  intros Halias. revert set. induction adjacents as [|t adjacents IH]; intros set; simpl.
  - by eexists.
  - destruct (Halias t) as [aliasTmp ->]. simpl.
    repeat case_match; apply IH.
Qed.

Lemma assignColor_total tmp s :
  (∀ t, is_Some (getAlias bank s t)) →
  ∃ s', assignColor target bank tmp s = Some s'
        ∧ m_coalescedTmps s' = m_coalescedTmps s.
Proof.
  intros Halias. unfold assignColor.
  destruct (coloredRegisters_total s (adjacency bank s tmp) [] Halias) as [forbidden ->].
  simpl. case_match; eexists; split; done.
Qed.

Lemma colorSelectStack_total stack s :
  (∀ t, is_Some (getAlias bank s t)) →
  is_Some (colorSelectStack target bank stack s).
Proof.
  revert s. induction stack as [|tmp stack IH]; intros s Halias; simpl.
  - by eexists.
  - destruct (assignColor_total tmp s Halias) as (s' & -> & Heq). simpl.
    apply IH. intros t. rewrite (getAlias_ext s s') by done. apply Halias.
Qed.

(** C8.  The coloring phase returns, and when it returns with a spilled
    temporary the color map is empty; the driver puts registers into the
    program only when nothing spilled, and the spill code otherwise. *)
Theorem assignColors_all_or_nothing (s : Allocator) :
  (∀ t, is_Some (getAlias bank s t)) →
  ∃ s',
    assignColors target bank s = Some s'
    ∧ (m_spilledTmp s' ≠ [] → m_coloredTmp s' = ∅)
    ∧ (∀ code code',
         Driver.finish target bank code s' = Some (code', true) → m_spilledTmp s' = [])
    ∧ (∀ code,
         m_spilledTmp s' ≠ [] →
         Driver.finish target bank code s'
         = Some (Rewriter.addSpillAndFillToProgram target bank code (m_spilledTmp s'),
                 false)).
Proof.
  intros Halias. unfold assignColors.
  destruct (colorSelectStack_total (reverse (m_selectStack (reclaim s))) (reclaim s))
    as [colored Hcolored].
  { intros t. rewrite (getAlias_ext s (reclaim s)) by done. apply Halias. }
  rewrite Hcolored. cbn [mbind option_bind].
  eexists. split; [reflexivity|]. split_and!.
  - destruct (bool_decide (m_spilledTmp (set_selectStack [] colored) ≠ [])) eqn:Hb.
    + done.
    + apply bool_decide_eq_false in Hb. intros Hspilled. by destruct Hb.
  - intros code code'. unfold Driver.finish.
    case_bool_decide as Hempty; [done|]. by intros [=].
  - intros code Hspilled. unfold Driver.finish. by rewrite bool_decide_eq_false_2.
Qed.

End Bank.

Lemma selectSpill_takes_first_of_maximal_degree_witness :
  ∃ victim,
    spillVictim GP (Examples.graphOf GP Examples.spillingProgram) = Some victim
    ∧ (victim ∉ m_spillWorklist (selectSpill GP (Examples.graphOf GP Examples.spillingProgram))).
Proof.
  destruct (selectSpill_takes_first_of_maximal_degree GP
              (Examples.graphOf GP Examples.spillingProgram))
    as (victim & Hvictim & _ & _ & _ & Hgone & _).
  - vm_compute. discriminate.
  - exists victim. split; [exact Hvictim|exact Hgone].
Defined.

(** The GP graph of the spilling program once the main loop has emptied
    the worklists: coloring it leaves temporary 4 without a register, and the
    colors given to 5 and 6 are dropped. *)
Lemma assignColors_all_or_nothing_witness :
  ∃ s s',
    mainLoop Examples.demoTarget GP 20 (Examples.graphOf GP Examples.spillingProgram) = Some s
    ∧ assignColors Examples.demoTarget GP s = Some s'
    ∧ (m_spilledTmp s' ≠ [] → m_coloredTmp s' = ∅).
Proof.
  assert (∃ s, mainLoop Examples.demoTarget GP 20
                 (Examples.graphOf GP Examples.spillingProgram) = Some s
               ∧ m_coalescedTmps s = ∅) as (s & Hs & Hempty).
  { eexists. split; vm_compute; reflexivity. }
  destruct (assignColors_all_or_nothing Examples.demoTarget GP s)
    as (s' & Hs' & Hdiscard & _).
  - intros t. unfold getAlias. rewrite Hempty. simpl. unfold coalescedTmp.
    rewrite Hempty, lookup_empty. by eexists.
  - exists s, s'. split; [exact Hs|]. split; [exact Hs'|exact Hdiscard].
Defined.

Example partial_coloring_is_dropped :
  ∃ s colored,
    mainLoop Examples.demoTarget GP 20 (Examples.graphOf GP Examples.spillingProgram) = Some s
    ∧ colorSelectStack Examples.demoTarget GP (reverse (m_selectStack s)) (reclaim s)
      = Some colored
    ∧ map_to_list (m_coloredTmp colored) = [(5, 2); (6, 1)]
    ∧ m_spilledTmp colored = [4]
    ∧ (m_coloredTmp <$> assignColors Examples.demoTarget GP s) = Some ∅.
Proof.
  eexists _, _. split; [vm_compute; reflexivity|].
  split; [vm_compute; reflexivity|].
  split_and!; vm_compute; reflexivity.
Qed.

End IRCFacts.

(** ** The interference builder *)

Module BuildFacts.
Import IRC HashSetFacts IRCFacts.

Lemma toUnsigned_range v : 0 ≤ toUnsigned v < 2 ^ 32.
Proof. unfold toUnsigned. apply Z.mod_pos_bound. lia. Qed.

Lemma toUnsigned_inj a b : isInt a → isInt b → toUnsigned a = toUnsigned b → a = b.
Proof.
  unfold isInt, toUnsigned. intros Ha Hb Heq.
  assert (∀ v, - 2 ^ 31 ≤ v < 2 ^ 31 →
            v mod 2 ^ 32 = if decide (v < 0) then v + 2 ^ 32 else v) as Hmod.
  { intros v Hv. destruct (decide (v < 0)); [|apply Z.mod_small; lia].
    symmetry. apply (Z.mod_unique v (2 ^ 32) (-1)); lia. }
  rewrite (Hmod a Ha), (Hmod b Hb) in Heq.
  destruct (decide (a < 0)), (decide (b < 0)); lia.
Qed.

(** The two halves of a packed edge. *)
Lemma pack_high lo hi :
  0 ≤ lo → 0 ≤ hi < 2 ^ 32 → Z.shiftr (Z.lor (Z.shiftl lo 32) hi) 32 = lo.
Proof.
  intros Hlo Hhi. rewrite Z.shiftr_lor, Z.shiftr_shiftl_l by lia.
  replace (32 - 32) with 0 by lia. rewrite Z.shiftl_0_r.
  rewrite (Z.shiftr_div_pow2 hi) by lia. rewrite Z.div_small by lia.
  apply Z.lor_0_r.
Qed.

Lemma pack_low lo hi :
  0 ≤ lo → 0 ≤ hi < 2 ^ 32 → Z.land (Z.lor (Z.shiftl lo 32) hi) (Z.ones 32) = hi.
Proof.
  intros Hlo Hhi. rewrite Z.land_ones by lia.
  rewrite <- Z.lxor_lor, <- Z.add_nocarry_lxor.
  - rewrite Z.shiftl_mul_pow2 by lia.
    rewrite Z.add_comm, Z.mod_add by lia. apply Z.mod_small. lia.
  - apply Z.bits_inj'. intros n Hn. rewrite Z.land_spec, Z.bits_0.
    destruct (decide (n < 32)).
    + rewrite Z.shiftl_spec_low by lia. done.
    + rewrite (Z.bits_above_log2 hi n); [apply andb_false_r|lia|].
      destruct (decide (hi = 0)) as [->|]; [simpl; lia|].
      assert (Z.log2 hi < 32); [|lia]. apply Z.log2_lt_pow2; lia.
  - apply Z.bits_inj'. intros n Hn. rewrite Z.land_spec, Z.bits_0.
    destruct (decide (n < 32)).
    + rewrite Z.shiftl_spec_low by lia. done.
    + rewrite (Z.bits_above_log2 hi n); [apply andb_false_r|lia|].
      destruct (decide (hi = 0)) as [->|]; [simpl; lia|].
      assert (Z.log2 hi < 32); [|lia]. apply Z.log2_lt_pow2; lia.
Qed.

Lemma pack_inj lo hi lo' hi' :
  0 ≤ lo → 0 ≤ hi < 2 ^ 32 → 0 ≤ lo' → 0 ≤ hi' < 2 ^ 32 →
  Z.lor (Z.shiftl lo 32) hi = Z.lor (Z.shiftl lo' 32) hi' → lo = lo' ∧ hi = hi'.
Proof.
  intros ? ? ? ? Heq. split.
  - rewrite <- (pack_high lo hi), <- (pack_high lo' hi') by done. by rewrite Heq.
  - rewrite <- (pack_low lo hi), <- (pack_low lo' hi') by done. by rewrite Heq.
Qed.

(** An edge determines its unordered pair of temporaries. *)
Lemma InterferenceEdge_inj a b c d :
  isInt a → isInt b → isInt c → isInt d →
  InterferenceEdge a b = InterferenceEdge c d →
  (a = c ∧ b = d) ∨ (a = d ∧ b = c).
Proof.
  intros Ha Hb Hc Hd. unfold InterferenceEdge.
  pose proof (toUnsigned_range a). pose proof (toUnsigned_range b).
  pose proof (toUnsigned_range c). pose proof (toUnsigned_range d).
  repeat case_match; intros [Hlo Hhi]%pack_inj; try lia;
    apply toUnsigned_inj in Hlo, Hhi; auto.
Qed.

Lemma InterferenceEdge_sym a b : InterferenceEdge a b = InterferenceEdge b a.
Proof.
  unfold InterferenceEdge.
  destruct (toUnsigned b <? toUnsigned a) eqn:H1, (toUnsigned a <? toUnsigned b) eqn:H2;
    try done.
  - apply Z.ltb_lt in H1, H2. lia.
  - apply Z.ltb_ge in H1, H2. by replace (toUnsigned a) with (toUnsigned b) by lia.
Qed.

Section Bank.
Variable target : Target.
Variable bank : ArgType.

Lemma interfere_true s a b :
  interfere s a b = true ↔ InterferenceEdge a b ∈ m_interferenceEdges s.
Proof. unfold interfere. by rewrite bool_decide_eq_true. Qed.

(** The edges after [addEdge]: the ones before, and the new one unless it
    would be a self-edge. *)
Lemma addEdge_edges a b s e :
  e ∈ m_interferenceEdges (addEdge target bank a b s)
  ↔ e ∈ m_interferenceEdges s ∨ (a ≠ b ∧ e = InterferenceEdge a b).
Proof.
  unfold addEdge. case_decide as Hab.
  { split; [by left|]. by intros [?|[]]. }
  destruct (interfere s a b) eqn:Hi.
  - apply interfere_true in Hi. split; [by left|]. by intros [?|[_ ->]].
  - assert (∀ x y s', m_interferenceEdges
              (if isReg target x then s' else appendAdjacent bank x y s')
            = m_interferenceEdges s') as Hkeep.
    { intros x y s'. by destruct (isReg target x). }
    rewrite !Hkeep. cbn. rewrite elem_of_union, elem_of_singleton. tauto.
Qed.

Lemma addEdge_self a s : addEdge target bank a a s = s.
Proof. unfold addEdge. by rewrite decide_True. Qed.

Lemma addMoveEdges_edges defTmp useTmp live s e :
  e ∈ m_interferenceEdges (addMoveEdges target bank defTmp useTmp live s)
  ↔ e ∈ m_interferenceEdges s
    ∨ ∃ liveTmp, liveTmp ∈ live ∧ liveTmp ≠ useTmp ∧ inBank bank liveTmp = true
                 ∧ defTmp ≠ liveTmp ∧ e = InterferenceEdge defTmp liveTmp.
Proof.
  unfold addMoveEdges. revert s. induction live as [|t live IH]; intros s; simpl.
  - split; [by left|]. intros [?|(? & []%elem_of_nil & _)]. done.
  - rewrite IH. clear IH. split.
    + intros [He|(l & Hl & H)].
      * destruct (bool_decide (t ≠ useTmp) && inBank bank t) eqn:Hc; [|by left].
        apply addEdge_edges in He as [He|[Hne ->]]; [by left|].
        apply andb_true_iff in Hc as [Hu%bool_decide_eq_true Hb].
        right. exists t. split_and!; try done. left.
      * right. exists l. split; [by right|done].
    + intros [He|(l & Hl & Hu & Hb & Hne & ->)].
      * left. case_match; [|done]. apply addEdge_edges. by left.
      * apply elem_of_cons in Hl as [->|Hl].
        -- left. rewrite bool_decide_eq_true_2, Hb by done. simpl.
           apply addEdge_edges. by right.
        -- right. by exists l.
Qed.

Lemma addMoveEdges_keeps {X} (field : Allocator → X) defTmp useTmp live :
  (∀ a b, keeps field (addEdge target bank a b)) →
  keeps field (addMoveEdges target bank defTmp useTmp live).
Proof.
  intros H. apply keeps_foldl. intros x s. case_match; [apply H|done].
Qed.

Lemma addToMoveList_elem inst tmp s tmp' :
  inst ∈ moves bank s tmp' ∨ absoluteIndex bank tmp' = absoluteIndex bank tmp →
  inst ∈ moves bank (addToMoveList bank inst tmp s) tmp'.
Proof.
  unfold addToMoveList, moves. cbn.
  destruct (decide (absoluteIndex bank tmp = absoluteIndex bank tmp')) as [Heq|Hne].
  - intros _. rewrite Heq, lookup_insert_eq. simpl. apply elem_of_add. by left.
  - rewrite lookup_insert_ne by done. intros [?|?]; [done|congruence].
Qed.

(** C6.  On a coalescable move [def <- use] the builder puts the move on the
    move lists of both temporaries and on [worklistMoves], and makes [def]
    interfere with every temporary of the bank that is live after the move,
    except [use]: no edge between [def] and [use] is added.  A temporary
    does not interfere with itself ([addEdge] returns at [a == b]), so the
    pair of [def] with itself, which is live after the move whenever its
    value is read later, is no edge either. *)
Theorem build_coalescable_move
    (inst : InstPtr) (live : list Tmp) (s : Allocator)
    (useOperand defOperand : Operand) (useTmp defTmp : Tmp) :
  opcode (pointee inst) = match bank with GP => Move | FP => MoveDouble end →
  args (pointee inst) = [useOperand; defOperand] →
  arg useOperand = ArgTmp useTmp → role useOperand = Use →
  arg defOperand = ArgTmp defTmp → role defOperand = Def →
  mayBeCoalescable bank (pointee inst) = true
  ∧ inst ∈ moves bank (build target bank inst live s) useTmp
  ∧ inst ∈ moves bank (build target bank inst live s) defTmp
  ∧ inst ∈ m_worklistMoves (build target bank inst live s)
  ∧ (∀ liveTmp,
       liveTmp ∈ live → inBank bank liveTmp = true →
       liveTmp ≠ useTmp → liveTmp ≠ defTmp →
       interfere (build target bank inst live s) defTmp liveTmp = true)
  ∧ (isInt useTmp → isInt defTmp → (∀ liveTmp, liveTmp ∈ live → isInt liveTmp) →
     interfere s defTmp useTmp = false →
     interfere (build target bank inst live s) defTmp useTmp = false).
Proof.
  intros Hop Hargs Huse Hrole Hdef Hrole'.
  assert (mayBeCoalescable bank (pointee inst) = true) as Hmove.
  { unfold mayBeCoalescable, argAt. rewrite Hop, Hargs. simpl. rewrite Huse, Hdef.
    destruct bank; simpl; by rewrite ?bool_decide_eq_true_2, ?bool_decide_eq_false_2 by auto. }
  assert (instTmps (pointee inst)
          = [(useTmp, Use, type useOperand); (defTmp, Def, type defOperand)]) as Htmps.
  { unfold instTmps, operandTmps. rewrite Hargs. simpl.
    by rewrite Huse, Hdef, Hrole, Hrole'. }
  assert (addDefEdges target bank (pointee inst) s = s) as Hdefs.
  { unfold addDefEdges. rewrite Htmps. simpl.
    repeat case_bool_decide; simpl; try done; by rewrite addEdge_self. }
  assert (moveDefUse (pointee inst) = (defTmp, useTmp)) as Hdu.
  { unfold moveDefUse. by rewrite Htmps. }
  assert (build target bank inst live s
          = addMoveEdges target bank defTmp useTmp live
              (set_worklistMoves
                 (HashSet.add inst
                    (m_worklistMoves
                       (addToMoveList bank inst defTmp (addToMoveList bank inst useTmp s))))
                 (addToMoveList bank inst defTmp (addToMoveList bank inst useTmp s))))
    as Hbuild.
  { unfold build. rewrite Hmove, Hdefs, Hdu, Hargs. simpl. by rewrite Huse, Hdef. }
  rewrite Hbuild. split; [done|]. split_and!.
  - unfold moves. rewrite (addMoveEdges_keeps m_moveList) by apply addEdge_keeps_moveList.
    apply addToMoveList_elem. left. apply addToMoveList_elem. by right.
  - unfold moves. rewrite (addMoveEdges_keeps m_moveList) by apply addEdge_keeps_moveList.
    apply addToMoveList_elem. by right.
  - rewrite (addMoveEdges_keeps m_worklistMoves) by apply addEdge_keeps_worklistMoves.
    cbn. apply elem_of_add. by left.
  - intros liveTmp Hin Hbank Hu Hd. apply interfere_true, addMoveEdges_edges.
    right. exists liveTmp. split_and!; auto.
  - intros Hiu Hid Hil Hbefore. unfold interfere. apply bool_decide_eq_false.
    rewrite addMoveEdges_edges. intros [He|(l & Hl & Hu & _ & Hne & He)].
    + unfold interfere in Hbefore. by apply bool_decide_eq_false in Hbefore.
    + apply InterferenceEdge_inj in He as [[_ ?]|[? ?]]; auto; congruence.
Qed.

End Bank.

Lemma build_coalescable_move_witness :
  let inst := {| address := (0, 0)%nat;
                 pointee := Examples.inst Move [Examples.use 4; Examples.def 5] |} in
  let s := build Examples.demoTarget GP inst [4; 5; 6; -3] (newAllocator Examples.demoTarget GP 3) in
  inst ∈ m_worklistMoves s
  ∧ interfere s 5 6 = true
  ∧ interfere s 5 4 = false.
Proof.
  intros inst s.
  destruct (build_coalescable_move Examples.demoTarget GP inst [4; 5; 6; -3]
              (newAllocator Examples.demoTarget GP 3)
              (Examples.use 4) (Examples.def 5) 4 5)
    as (_ & _ & _ & Hworklist & Hlive & Huse); try reflexivity.
  split; [exact Hworklist|]. split.
  - apply (Hlive 6); [|reflexivity|lia|lia].
    apply elem_of_cons; right; apply elem_of_cons; right; apply elem_of_cons; left; reflexivity.
  - apply Huse; [unfold isInt; lia|unfold isInt; lia| |reflexivity].
    intros liveTmp Hin. unfold isInt.
    repeat (apply elem_of_cons in Hin as [->|Hin]; [lia|]).
    by apply elem_of_nil in Hin.
Defined.

(** C1.  An instruction that defines temporary 4 of the GP bank and
    temporary -3 of the FP bank: the GP builder records an interference edge
    between the two, and files each as a neighbour of the other. *)
Theorem build_joins_the_two_banks :
  let s := build Examples.demoTarget GP Examples.twoBankDefs []
             (newAllocator Examples.demoTarget GP 1) in
  isGP 4 = true ∧ isFP (-3) = true
  ∧ isReg Examples.demoTarget 4 = false ∧ isReg Examples.demoTarget (-3) = false
  ∧ interfere s 4 (-3) = true
  ∧ elements (m_interferenceEdges s) = [InterferenceEdge 4 (-3)]
  ∧ first (InterferenceEdge 4 (-3)) = 4
  ∧ second (InterferenceEdge 4 (-3)) = -3
  ∧ adjacency GP s 4 = [-3]
  ∧ adjacency GP s (-3) = [4]
  ∧ absoluteIndex GP (-3) = 4294967293.
Proof. vm_compute. by repeat split. Qed.

End BuildFacts.

(** ** Coalescing *)

Module CoalesceFacts.
Import IRC HashSetFacts IRCFacts.

Section Bank.
Variable target : Target.
Variable bank : ArgType.

Lemma precoloredCoalescingHeuristic_sound s u v :
  precoloredCoalescingHeuristic target bank s u v = true →
  georgeRuleOnGraph target bank s u v.
Proof.
  unfold precoloredCoalescingHeuristic. rewrite forallb_forall.
  intros Hall t Ht. specialize (Hall t (proj1 (list_elem_of_In _ _) Ht)).
  apply negb_true_iff in Hall.
  destruct (interfere s u t); [by left|].
  destruct (isReg target t); [by right; left|].
  destruct (m_numberOfRegisters s <=? degree bank s t) eqn:Hdeg;
    [|apply Z.leb_gt in Hdeg; by right; right; left].
  unfold hasBeenSimplified in Hall.
  destruct (isOnSelectStack bank s t); [by right; right; right; left|].
  right; right; right; right.
  simpl in Hall. rewrite !andb_true_r in Hall.
  apply negb_false_iff, negb_true_iff, bool_decide_eq_false in Hall. done.
Qed.

(** What a loop of [conservativeHeuristic] leaves in [highOrderAdjacents]
    when it runs to its end. *)
Lemma addHighOrderAdjacents_spec s adjacents high high' :
  addHighOrderAdjacents bank s adjacents high = Some high' →
  NoDup high →
  Z.of_nat (length high) < m_numberOfRegisters s →
  NoDup high'
  ∧ Z.of_nat (length high') < m_numberOfRegisters s
  ∧ ∀ t, t ∈ high' ↔
         t ∈ high
         ∨ (t ∈ adjacents ∧ hasBeenSimplified bank s t = false
            ∧ m_numberOfRegisters s ≤ degree bank s t).
Proof.
  revert high. induction adjacents as [|a adjacents IH]; intros high; simpl.
  - intros [= <-] Hnd Hlen. split_and!; [done..|].
    intros t. split; [by left|]. intros [?|[[]%elem_of_nil _]]. done.
  - destruct (hasBeenSimplified bank s a) eqn:Hsimp; simpl.
    { intros Hrest Hnd Hlen. destruct (IH _ Hrest Hnd Hlen) as (? & ? & Hiff).
      split_and!; [done..|]. intros t. rewrite Hiff, elem_of_cons. split.
      - intros [?|(? & ? & ?)]; [by left|]. right. auto.
      - intros [?|([->|?] & ? & ?)]; [by left|congruence|]. right. auto. }
    destruct (m_numberOfRegisters s <=? degree bank s a) eqn:Hdeg; simpl.
    2:{ apply Z.leb_gt in Hdeg.
        intros Hrest Hnd Hlen. destruct (IH _ Hrest Hnd Hlen) as (? & ? & Hiff).
        split_and!; [done..|]. intros t. rewrite Hiff, elem_of_cons. split.
        - intros [?|(? & ? & ?)]; [by left|]. right. auto.
        - intros [?|([->|?] & ? & ?)]; [by left|lia|]. right. auto. }
    apply Z.leb_le in Hdeg.
    destruct (negb (HashSet.contains a high)
              && (m_numberOfRegisters s <=? Z.of_nat (length (HashSet.add a high))))
      eqn:Hfull; [done|].
    intros Hrest Hnd Hlen.
    destruct (IH _ Hrest) as (? & ? & Hiff).
    + by apply add_NoDup.
    + rewrite add_length in *. destruct (HashSet.contains a high); [done|].
      simpl in Hfull. apply Z.leb_gt in Hfull. lia.
    + split_and!; [done..|]. intros t. rewrite Hiff, elem_of_add, elem_of_cons. split.
      * intros [[->|?]|(? & ? & ?)]; [|by left|]; right; auto.
      * intros [?|([->|?] & ? & ?)]; [by left; right|by left; left|]. right. auto.
Qed.

Lemma conservativeHeuristic_sound s u v :
  0 < m_numberOfRegisters s →
  conservativeHeuristic bank s u v = true →
  briggsRuleOnGraph bank s u v.
Proof.
  intros HK. unfold conservativeHeuristic, briggsRuleOnGraph, highOrderNeighbours.
  set (P := λ t, hasBeenSimplified bank s t = false
                 ∧ m_numberOfRegisters s ≤ degree bank s t).
  destruct (_ <? _) eqn:Hfast.
  - intros _. apply Z.ltb_lt in Hfast.
    assert (remove_dups (filter P (adjacency bank s u ++ adjacency bank s v))
            ⊆+ adjacency bank s u ++ adjacency bank s v) as Hsub.
    { apply NoDup_submseteq; [apply NoDup_remove_dups|].
      intros t Ht. rewrite elem_of_remove_dups, list_elem_of_filter in Ht.
      by destruct Ht. }
    apply submseteq_length in Hsub. rewrite length_app in Hsub. lia.
  - destruct (addHighOrderAdjacents bank s (adjacency bank s u) []) as [high|] eqn:Hu;
      [|done].
    destruct (addHighOrderAdjacents bank s (adjacency bank s v) high) as [high'|] eqn:Hv;
      [|done].
    intros _.
    destruct (addHighOrderAdjacents_spec _ _ _ _ Hu) as (Hnd & Hlen & Hiff);
      [apply NoDup_nil_2|simpl; lia|].
    destruct (addHighOrderAdjacents_spec _ _ _ _ Hv Hnd Hlen) as (Hnd' & Hlen' & Hiff').
    assert (remove_dups (filter P (adjacency bank s u ++ adjacency bank s v)) ≡ₚ high')
      as Hperm.
    { apply NoDup_Permutation; [apply NoDup_remove_dups|done|].
      intros t. rewrite elem_of_remove_dups, list_elem_of_filter, elem_of_app, Hiff', Hiff.
      rewrite elem_of_nil. unfold P. tauto. }
    by rewrite (Permutation_length Hperm).
Qed.

(** C5, as the code has it.  When [coalesce] takes its combining branch on
    [u] and [v], the test it has just made holds of the graph as it is then:
    for a precolored [u], every neighbour of [v] interferes with [u], or is
    precolored, or has a degree below [K], or is on the select stack, or has
    been coalesced; otherwise fewer than [K] distinct neighbours of [u] and
    [v] have a degree of [K] or more and are neither on the select stack nor
    coalesced. *)
Theorem combine_only_when_conservative (s s' : Allocator) (u v : Tmp) :
  coalesceTraced target bank s = Some (s', Some (SafeCoalescing u v)) →
  (∃ moveInst rest,
     HashSet.takeLast (m_worklistMoves s) = Some (moveInst, rest)
     ∧ s' = addWorkList target bank u
              (combine target bank u v (set_worklistMoves rest s)))
  ∧ (isReg target u = true → georgeRuleOnGraph target bank s u v)
  ∧ (isReg target u = false → 0 < m_numberOfRegisters s →
     briggsRuleOnGraph bank s u v).
Proof.
  unfold coalesceTraced.
  destruct (HashSet.takeLast (m_worklistMoves s)) as [[moveInst rest]|]; [|done].
  destruct (coalesceOperands target bank (set_worklistMoves rest s) moveInst)
    as [[u' v']|]; [|done].
  simpl. case_decide; [done|].
  destruct (isReg target v' || interfere (set_worklistMoves rest s) u' v'); [done|].
  destruct (canBeSafelyCoalesced target bank (set_worklistMoves rest s) u' v') eqn:Hsafe;
    [|done].
  intros [= <- <- <-]. unfold canBeSafelyCoalesced in Hsafe. split_and!.
  - by exists moveInst, rest.
  - intros Hreg. rewrite Hreg in Hsafe.
    by apply precoloredCoalescingHeuristic_sound in Hsafe.
  - intros Hreg HK. rewrite Hreg in Hsafe.
    by apply conservativeHeuristic_sound in Hsafe.
Qed.

End Bank.

Lemma combine_only_when_conservative_witness :
  briggsRuleOnGraph GP (Examples.graphOf GP Examples.freezeProgram) 4 5.
Proof.
  destruct (combine_only_when_conservative Examples.demoTarget GP
              (Examples.graphOf GP Examples.freezeProgram)
              (addWorkList Examples.demoTarget GP 4
                 (combine Examples.demoTarget GP 4 5
                    (set_worklistMoves
                       (removelast (m_worklistMoves (Examples.graphOf GP Examples.freezeProgram)))
                       (Examples.graphOf GP Examples.freezeProgram))))
              4 5) as (_ & _ & Hbriggs).
  - vm_compute; reflexivity.
  - apply Hbriggs; [reflexivity|vm_compute; reflexivity].
Defined.

(** C5, as the design document words it, fails on [georgeProgram]: after
    temporary 4 has been coalesced into register 2, [coalesce] combines
    register 1 and temporary 5, whose neighbour 4 does not interfere with
    register 1, is not precolored, has degree 2 = K and is not on the select
    stack. *)
Lemma george_rule_as_worded_fails :
  ∃ s s',
    steps Examples.demoTarget GP 1 (Examples.graphOf GP Examples.georgeProgram)
    = Some s
    ∧ coalesceTraced Examples.demoTarget GP s = Some (s', Some (SafeCoalescing 1 5))
    ∧ isReg Examples.demoTarget 1 = true
    ∧ ¬ georgeRule Examples.demoTarget GP s 1 5.
Proof.
  eexists _, _. split; [vm_compute; reflexivity|].
  split; [vm_compute; reflexivity|]. split; [reflexivity|].
  intros Hrule. specialize (Hrule 4).
  destruct Hrule as [H|[H|[H|H]]]; try (vm_compute in H; discriminate).
  vm_compute. by repeat constructor.
Qed.

End CoalesceFacts.

(** ** The alias map *)

Module AliasFacts.
Import IRC HashSetFacts IRCFacts BuildFacts.

Lemma toUnsigned_inj_window a b :
  - 2 ^ 32 < a - b < 2 ^ 32 → toUnsigned a = toUnsigned b → a = b.
Proof.
  unfold toUnsigned. intros Hwin Heq.
  pose proof (Z.div_mod a (2 ^ 32)). pose proof (Z.div_mod b (2 ^ 32)).
  assert (a / 2 ^ 32 = b / 2 ^ 32) by nia. lia.
Qed.

Section Bank.
Variable target : Target.
Variable bank : ArgType.

Lemma absoluteIndex_inj u v :
  isInt u → isInt v → absoluteIndex bank u = absoluteIndex bank v → u = v.
Proof.
  unfold isInt, absoluteIndex. intros Hu Hv. destruct bank.
  - apply toUnsigned_inj_window. lia.
  - intros H%toUnsigned_inj_window; lia.
Qed.

(** *** Frames *)

Lemma aliasFrame_refl s : aliasFrame s s.
Proof. by split. Qed.

Lemma aliasFrame_trans s1 s2 s3 : aliasFrame s1 s2 → aliasFrame s2 s3 → aliasFrame s1 s3.
Proof. intros [E1 M1] [E2 M2]. split; [congruence|auto]. Qed.

Lemma aliasFrame_same s s' :
  m_coalescedTmps s' = m_coalescedTmps s →
  m_worklistMoves s' = m_worklistMoves s →
  m_activeMoves s' = m_activeMoves s →
  aliasFrame s s'.
Proof. intros E W A. split; [done|]. unfold liveMove. by rewrite W, A. Qed.

Lemma aliasFrame_foldl {B} (f : Allocator → B → Allocator) l s :
  (∀ s x, aliasFrame s (f s x)) → aliasFrame s (foldl f s l).
Proof.
  intros Hf. revert s. induction l as [|x l IH]; intros s; simpl.
  - apply aliasFrame_refl.
  - eapply aliasFrame_trans; [apply Hf|apply IH].
Qed.

Lemma aliasFrame_forEachAdjacent tmp function s :
  (∀ t s, aliasFrame s (function t s)) →
  aliasFrame s (forEachAdjacent bank tmp function s).
Proof.
  intros Hf. apply aliasFrame_foldl. intros s' x.
  destruct (hasBeenSimplified bank s' x); [apply aliasFrame_refl|apply Hf].
Qed.

Lemma aliasFrame_forEachNodeMoves tmp function s :
  (∀ t s, aliasFrame s (function t s)) →
  aliasFrame s (forEachNodeMoves bank tmp function s).
Proof.
  intros Hf. apply aliasFrame_foldl. intros s' x.
  destruct (isLiveMove s' x); [apply Hf|apply aliasFrame_refl].
Qed.

Lemma aliasFrame_addEdge a b s : aliasFrame s (addEdge target bank a b s).
Proof.
  apply aliasFrame_same;
    [apply addEdge_keeps_coalescedTmps|apply addEdge_keeps_worklistMoves
    |apply addEdge_keeps_activeMoves].
Qed.

Lemma aliasFrame_enableMovesOnValue tmp s : aliasFrame s (enableMovesOnValue bank tmp s).
Proof.
  apply aliasFrame_foldl. intros s' inst.
  destruct (HashSet.contains inst (m_activeMoves s')) eqn:Hc; [|apply aliasFrame_refl].
  apply contains_true in Hc. split; [done|]. unfold liveMove. cbn.
  intros m [Hm|Hm].
  - apply elem_of_add in Hm as [->|Hm]; auto.
  - apply elem_of_remove in Hm as [_ Hm]. auto.
Qed.

Lemma aliasFrame_enableMovesOnValueAndAdjacents tmp s :
  aliasFrame s (enableMovesOnValueAndAdjacents bank tmp s).
Proof.
  unfold enableMovesOnValueAndAdjacents.
  eapply aliasFrame_trans; [apply aliasFrame_enableMovesOnValue|].
  apply aliasFrame_forEachAdjacent. intros; apply aliasFrame_enableMovesOnValue.
Qed.

Lemma aliasFrame_decrementDegree tmp s : aliasFrame s (decrementDegree bank tmp s).
Proof.
  unfold decrementDegree. case_decide; [|by apply aliasFrame_same].
  match goal with
  | |- context [enableMovesOnValueAndAdjacents bank tmp ?s0] =>
      pose proof (aliasFrame_enableMovesOnValueAndAdjacents tmp s0) as Hen
  end.
  eapply aliasFrame_trans; [by apply aliasFrame_same|].
  eapply aliasFrame_trans; [exact Hen|].
  destruct (isMoveRelated _ _ _); by apply aliasFrame_same.
Qed.

Lemma aliasFrame_simplify s : aliasFrame s (simplify bank s).
Proof.
  unfold simplify. destruct (HashSet.takeLast _) as [[last rest]|]; [|apply aliasFrame_refl].
  eapply aliasFrame_trans; [|apply aliasFrame_forEachAdjacent;
                              intros; apply aliasFrame_decrementDegree].
  by apply aliasFrame_same.
Qed.

Lemma aliasFrame_addWorkList tmp s : aliasFrame s (addWorkList target bank tmp s).
Proof. unfold addWorkList. case_match; by apply aliasFrame_same. Qed.

Lemma aliasFrame_freezeMoves tmp s : aliasFrame s (freezeMoves bank tmp s).
Proof.
  apply aliasFrame_forEachNodeMoves. intros inst s'. cbv beta zeta.
  match goal with
  | |- aliasFrame _ (if ?c then set_simplifyWorklist _ (set_freezeWorklist _ ?s1) else _) =>
      assert (aliasFrame s' s1) as Hs1
  end.
  { destruct (HashSet.contains inst (m_activeMoves s')); split; try done;
      unfold liveMove; cbn; intros m [Hm|Hm]; auto;
      apply elem_of_remove in Hm as [_ Hm]; auto. }
  match goal with |- aliasFrame _ (if ?c then _ else _) => destruct c end;
    [|exact Hs1].
  eapply aliasFrame_trans; [exact Hs1|]. by apply aliasFrame_same.
Qed.

Lemma aliasFrame_freeze s : aliasFrame s (freeze bank s).
Proof.
  unfold freeze. destruct (m_freezeWorklist s); [apply aliasFrame_refl|].
  eapply aliasFrame_trans; [|apply aliasFrame_freezeMoves]. by apply aliasFrame_same.
Qed.

Lemma aliasFrame_selectSpill s : aliasFrame s (selectSpill bank s).
Proof.
  unfold selectSpill. destruct (m_spillWorklist s); [apply aliasFrame_refl|].
  eapply aliasFrame_trans; [|apply aliasFrame_freezeMoves]. by apply aliasFrame_same.
Qed.

(** [combine] writes one entry of the alias map and revives no move. *)
Lemma combine_alias u v s :
  m_coalescedTmps (combine target bank u v s)
  = <[absoluteIndex bank v := u]> (m_coalescedTmps s)
  ∧ ∀ inst, liveMove (combine target bank u v s) inst → liveMove s inst.
Proof.
  unfold combine.
  match goal with
  | |- context [forEachAdjacent bank v ?f ?s0] =>
      pose proof (aliasFrame_forEachAdjacent v f s0) as [Hc Hm]
  end.
  { intros t s'. eapply aliasFrame_trans;
      [apply aliasFrame_addEdge|apply aliasFrame_decrementDegree]. }
  match goal with
  | |- context [if ?c then ?a else ?b] =>
      assert (aliasFrame b (if c then a else b)) as [Hc' Hm']
        by (destruct c; by apply aliasFrame_same)
  end.
  rewrite Hc', Hc. split.
  - cbn. destruct (HashSet.contains v (m_freezeWorklist s)); done.
  - intros inst Hl. apply Hm', Hm in Hl. revert Hl. unfold liveMove. cbn.
    destruct (HashSet.contains v (m_freezeWorklist s)); done.
Qed.

(** *** Chains of aliases *)

Lemma aliasChain_root_unaliased s tmp n root :
  aliasChain bank s tmp n root → coalescedTmp bank s root = 0.
Proof. induction 1; auto. Qed.

Lemma aliasChain_unique s tmp n root n' root' :
  aliasChain bank s tmp n root → aliasChain bank s tmp n' root' →
  n = n' ∧ root = root'.
Proof.
  intros Hchain. revert n' root'.
  induction Hchain as [tmp Hroot|tmp n root Hnext _ IH]; intros n' root' Hchain'.
  - by inversion Hchain'.
  - inversion Hchain' as [|? ? ? _ Hrest]; subst; [done|].
    destruct (IH _ _ Hrest) as [-> ->]. done.
Qed.

Lemma aliasChain_getAliasFrom s tmp n root fuel :
  aliasChain bank s tmp n root → (n < fuel)%nat →
  getAliasFrom bank fuel s tmp = Some root.
Proof.
  intros Hchain. revert fuel. induction Hchain as [tmp Hroot|tmp n root Hnext _ IH];
    intros [|fuel] Hlt; try lia; simpl.
  - by rewrite decide_True.
  - rewrite decide_False by done. apply IH. lia.
Qed.

Lemma aliasChain_ext s s' tmp n root :
  m_coalescedTmps s' = m_coalescedTmps s →
  aliasChain bank s tmp n root → aliasChain bank s' tmp n root.
Proof.
  intros Heq. assert (∀ t, coalescedTmp bank s' t = coalescedTmp bank s t) as Hc.
  { intros t. unfold coalescedTmp. by rewrite Heq. }
  induction 1; [apply aliasChain_root|apply aliasChain_next]; rewrite ?Hc; auto.
Qed.

Lemma aliasChain_wellFormed s tmp n root :
  (∀ i t, m_coalescedTmps s !! i = Some t → wellFormedTmp t) →
  wellFormedTmp tmp → aliasChain bank s tmp n root → wellFormedTmp root.
Proof.
  intros Hwf Htmp Hchain. induction Hchain as [|tmp n root Hnext _ IH]; [done|].
  apply IH. unfold coalescedTmp in *.
  destruct (m_coalescedTmps s !! absoluteIndex bank tmp) eqn:Hl; [|done].
  by eapply Hwf.
Qed.

(** A chain after one entry has been written at a temporary that had no
    alias: at most one read longer. *)
Lemma aliasChain_insert s s' u v tmp n root :
  m_coalescedTmps s' = <[absoluteIndex bank v := u]> (m_coalescedTmps s) →
  m_coalescedTmps s !! absoluteIndex bank v = None →
  coalescedTmp bank s u = 0 →
  absoluteIndex bank u ≠ absoluteIndex bank v →
  u ≠ 0 →
  aliasChain bank s tmp n root →
  ∃ n' root', aliasChain bank s' tmp n' root' ∧ (n' ≤ S n)%nat.
Proof.
  intros Heq Hv Hu Hne Hu0 Hchain.
  assert (∀ t, absoluteIndex bank t ≠ absoluteIndex bank v →
               coalescedTmp bank s' t = coalescedTmp bank s t) as Hother.
  { intros t Ht. unfold coalescedTmp. by rewrite Heq, lookup_insert_ne. }
  assert (∀ t, absoluteIndex bank t = absoluteIndex bank v →
               coalescedTmp bank s' t = u) as Hat.
  { intros t Ht. unfold coalescedTmp. by rewrite Heq, Ht, lookup_insert_eq. }
  assert (aliasChain bank s' u 0 u) as Hroot.
  { apply aliasChain_root. by rewrite Hother. }
  induction Hchain as [tmp Htmp|tmp n root Hnext _ IH].
  - destruct (decide (absoluteIndex bank tmp = absoluteIndex bank v)) as [Htv|Htv].
    + exists 1%nat, u. split; [|lia]. apply aliasChain_next; rewrite Hat by done; done.
    + exists 0%nat, tmp. split; [|lia]. apply aliasChain_root. by rewrite Hother.
  - assert (absoluteIndex bank tmp ≠ absoluteIndex bank v) as Htv.
    { intros Htv. apply Hnext. unfold coalescedTmp. by rewrite Htv, Hv. }
    destruct IH as (n' & root' & Hchain' & Hle).
    exists (S n'), root'. split; [|lia].
    apply aliasChain_next; rewrite Hother by done; done.
Qed.

(** *** The invariant *)

Lemma aliasInvariant_unaliased s tmp :
  aliasInvariant bank s →
  coalescedTmp bank s tmp = 0 → m_coalescedTmps s !! absoluteIndex bank tmp = None.
Proof.
  intros (Hwf & _) Hroot. unfold coalescedTmp in Hroot.
  destruct (m_coalescedTmps s !! absoluteIndex bank tmp) as [t|] eqn:Hl; [|done].
  simpl in Hroot. subst t. by destruct (Hwf _ _ Hl).
Qed.

Lemma aliasInvariant_getAlias s tmp :
  aliasInvariant bank s →
  ∃ n root, aliasChain bank s tmp n root
            ∧ getAlias bank s tmp = Some root
            ∧ coalescedTmp bank s root = 0
            ∧ (wellFormedTmp tmp → wellFormedTmp root).
Proof.
  intros (Hwf & _ & Hchains). destruct (Hchains tmp) as (n & root & Hchain & Hle).
  exists n, root. split_and!.
  - done.
  - unfold getAlias. eapply aliasChain_getAliasFrom; [done|lia].
  - by eapply aliasChain_root_unaliased.
  - intros Htmp. by eapply aliasChain_wellFormed.
Qed.

Lemma aliasInvariant_frame s s' :
  aliasInvariant bank s → aliasFrame s s' → aliasInvariant bank s'.
Proof.
  intros (Hwf & Hmoves & Hchains) [Heq Hshrink]. split_and!.
  - by rewrite Heq.
  - intros inst Hinst. by apply Hmoves, Hshrink.
  - intros tmp. destruct (Hchains tmp) as (n & root & Hchain & Hle).
    exists n, root. rewrite Heq. split; [by eapply aliasChain_ext|done].
Qed.

Lemma aliasInvariant_combine s u v :
  aliasInvariant bank s →
  wellFormedTmp u → wellFormedTmp v → u ≠ v →
  coalescedTmp bank s u = 0 → coalescedTmp bank s v = 0 →
  aliasInvariant bank (combine target bank u v s).
Proof.
  intros Hinv [Hu0 Hu] [Hv0 Hv] Huv Hru Hrv.
  destruct (combine_alias u v s) as [Heq Hshrink].
  pose proof (aliasInvariant_unaliased s v Hinv Hrv) as Hnone.
  destruct Hinv as (Hwf & Hmoves & Hchains). split_and!.
  - rewrite Heq. intros i t. rewrite lookup_insert. case_decide; [|apply Hwf].
    by intros [= <-].
  - intros inst Hinst. by apply Hmoves, Hshrink.
  - intros tmp. destruct (Hchains tmp) as (n & root & Hchain & Hle).
    destruct (aliasChain_insert s (combine target bank u v s) u v tmp n root)
      as (n' & root' & Hchain' & Hle'); try done.
    { intros Hidx. by apply absoluteIndex_inj in Hidx. }
    exists n', root'. split; [done|].
    rewrite Heq, map_size_insert_None by done. lia.
Qed.

Lemma aliasInvariant_fresh s :
  m_coalescedTmps s = ∅ → movesWellFormed s → aliasInvariant bank s.
Proof.
  intros Hempty Hmoves. split_and!; [|done|].
  - intros i tmp. by rewrite Hempty, lookup_empty.
  - intros tmp. exists 0%nat, tmp. split; [|lia].
    apply aliasChain_root. unfold coalescedTmp. by rewrite Hempty, lookup_empty.
Qed.

(** What one run of [coalesce] does to the alias map. *)
Lemma coalesceTraced_invariant s :
  aliasInvariant bank s →
  ∃ s' outcome,
    coalesceTraced target bank s = Some (s', outcome)
    ∧ aliasInvariant bank s'
    ∧ (∀ tmp, coalescedTmp bank s tmp ≠ 0 →
              coalescedTmp bank s' tmp = coalescedTmp bank s tmp)
    ∧ (∀ u v, outcome = Some (SafeCoalescing u v) →
              coalescedTmp bank s v = 0 ∧ coalescedTmp bank s u = 0 ∧ u ≠ v
              ∧ m_coalescedTmps s' = <[absoluteIndex bank v := u]> (m_coalescedTmps s)).
Proof.
  intros Hinv. unfold coalesceTraced.
  destruct (HashSet.takeLast (m_worklistMoves s)) as [[moveInst rest]|] eqn:Htake.
  2:{ exists s, None. split_and!; done. }
  apply takeLast_Some in Htake.
  set (s1 := set_worklistMoves rest s).
  assert (aliasFrame s s1) as Hframe.
  { split; [done|]. unfold liveMove. cbn. rewrite Htake.
    intros inst [?|?]; [left; apply elem_of_app; by left|by right]. }
  assert (liveMove s moveInst) as Hlive.
  { left. rewrite Htake. apply elem_of_app. right. by left. }
  pose proof (aliasInvariant_frame s s1 Hinv Hframe) as Hinv1.
  pose proof Hinv as (Hwf & Hmoves & Hchains).
  destruct (Hmoves moveInst Hlive) as [Hwf0 Hwf1].
  destruct (aliasInvariant_getAlias s1 (argTmp (argAt (pointee moveInst) 0)) Hinv1)
    as (n0 & r0 & _ & Hr0 & Hroot0 & Hwfr0).
  destruct (aliasInvariant_getAlias s1 (argTmp (argAt (pointee moveInst) 1)) Hinv1)
    as (n1 & r1 & _ & Hr1 & Hroot1 & Hwfr1).
  specialize (Hwfr0 Hwf0). specialize (Hwfr1 Hwf1).
  unfold coalesceOperands. rewrite Hr0, Hr1. cbn [mbind option_bind].
  assert (∃ u v, (if isReg target r1 then (r1, r0) else (r0, r1)) = (u, v)
                 ∧ wellFormedTmp u ∧ wellFormedTmp v
                 ∧ coalescedTmp bank s1 u = 0 ∧ coalescedTmp bank s1 v = 0)
    as (u & v & -> & Hu & Hv & Hru & Hrv).
  { destruct (isReg target r1); eexists _, _; split_and!; done. }
  case_decide as Huv.
  { eexists _, _. split; [done|]. split_and!.
    - eapply aliasInvariant_frame; [exact Hinv1|apply aliasFrame_addWorkList].
    - intros tmp _. unfold coalescedTmp.
      by destruct (aliasFrame_addWorkList u s1) as [-> _].
    - done. }
  destruct (isReg target v || interfere s1 u v).
  { eexists _, _. split; [done|]. split_and!.
    - eapply aliasInvariant_frame; [exact Hinv1|].
      eapply aliasFrame_trans; apply aliasFrame_addWorkList.
    - intros tmp _. unfold coalescedTmp.
      destruct (aliasFrame_addWorkList v (addWorkList target bank u s1)) as [-> _].
      by destruct (aliasFrame_addWorkList u s1) as [-> _].
    - done. }
  destruct (canBeSafelyCoalesced target bank s1 u v).
  - pose proof (aliasInvariant_combine s1 u v Hinv1 Hu Hv Huv Hru Hrv) as Hinv2.
    destruct (combine_alias u v s1) as [Hcomb _].
    destruct (aliasFrame_addWorkList u (combine target bank u v s1))
      as [Hadd _].
    eexists _, _. split; [done|]. split_and!.
    + eapply aliasInvariant_frame; [exact Hinv2|apply aliasFrame_addWorkList].
    + intros tmp Htmp. unfold coalescedTmp in *. rewrite Hadd, Hcomb. cbn.
      rewrite lookup_insert_ne; [done|]. intros Heq. rewrite <- Heq in Htmp.
      pose proof (aliasInvariant_unaliased s1 v Hinv1 Hrv) as Hnone.
      cbn in Hnone. by rewrite Hnone in Htmp.
    + intros ? ? [= <- <-]. split_and!; [done..|]. by rewrite Hadd, Hcomb.
  - eexists _, _. split; [done|]. split_and!; [|done..].
    eapply aliasInvariant_frame; [exact Hinv|]. split; [done|].
    intros inst [Hin|Hin].
    + apply (proj2 Hframe). by left.
    + cbn in Hin. apply elem_of_add in Hin as [->|?]; [exact Hlive|].
      apply (proj2 Hframe). by right.
Qed.

Lemma step_invariant s :
  aliasInvariant bank s →
  ∃ s', step target bank s = Some s'
        ∧ aliasInvariant bank s'
        ∧ ∀ tmp, coalescedTmp bank s tmp ≠ 0 →
                 coalescedTmp bank s' tmp = coalescedTmp bank s tmp.
Proof.
  intros Hinv. unfold step.
  assert (∀ s', aliasFrame s s' →
            aliasInvariant bank s'
            ∧ ∀ tmp, coalescedTmp bank s tmp ≠ 0 →
                     coalescedTmp bank s' tmp = coalescedTmp bank s tmp) as Hframe.
  { intros s' Hf. split; [by eapply aliasInvariant_frame|].
    intros tmp _. unfold coalescedTmp. by destruct Hf as [-> _]. }
  destruct (negb (bool_decide (m_simplifyWorklist s = []))).
  { eexists. split; [done|]. apply Hframe, aliasFrame_simplify. }
  destruct (negb (bool_decide (m_worklistMoves s = []))).
  { destruct (coalesceTraced_invariant s Hinv) as (s' & outcome & Hc & Hinv' & Hkept & _).
    exists s'. unfold coalesce. rewrite Hc. done. }
  destruct (negb (bool_decide (m_freezeWorklist s = []))).
  { eexists. split; [done|]. apply Hframe, aliasFrame_freeze. }
  destruct (negb (bool_decide (m_spillWorklist s = []))).
  { eexists. split; [done|]. apply Hframe, aliasFrame_selectSpill. }
  eexists. split; [done|]. apply Hframe, aliasFrame_refl.
Qed.

Lemma steps_invariant n s :
  aliasInvariant bank s →
  ∃ s', steps target bank n s = Some s' ∧ aliasInvariant bank s'.
Proof.
  revert s. induction n as [|n IH]; intros s Hinv; simpl.
  - by exists s.
  - destruct (step_invariant s Hinv) as (s1 & -> & Hinv1 & _). simpl. by apply IH.
Qed.

(** C10.  From a graph without aliases, whose moves are between non-null
    temporaries, every number of turns of the main loop returns, and in the
    state it returns the alias map has no cycle: from every temporary a
    finite chain of aliases leads to a temporary without alias, no other
    chain starts there, and [getAlias] returns the end of that chain.  The
    next turn returns too and keeps every alias that is set; and when
    [coalesce] combines [u] and [v], neither has an alias, they differ, and
    the alias of [v] becomes [u] while no other entry changes. *)
Theorem alias_map_stays_acyclic (s0 : Allocator) (n : nat) :
  m_coalescedTmps s0 = ∅ →
  movesWellFormed s0 →
  ∃ s,
    steps target bank n s0 = Some s
    ∧ (∀ tmp, ∃ length root,
         aliasChain bank s tmp length root
         ∧ (∀ length' root', aliasChain bank s tmp length' root' →
                             length' = length ∧ root' = root)
         ∧ getAlias bank s tmp = Some root
         ∧ coalescedTmp bank s root = 0)
    ∧ (∃ s', step target bank s = Some s'
             ∧ ∀ tmp, coalescedTmp bank s tmp ≠ 0 →
                      coalescedTmp bank s' tmp = coalescedTmp bank s tmp)
    ∧ (∀ s' u v,
         coalesceTraced target bank s = Some (s', Some (SafeCoalescing u v)) →
         coalescedTmp bank s v = 0 ∧ coalescedTmp bank s u = 0 ∧ u ≠ v
         ∧ m_coalescedTmps s' = <[absoluteIndex bank v := u]> (m_coalescedTmps s)).
Proof.
  intros Hempty Hmoves.
  destruct (steps_invariant n s0 (aliasInvariant_fresh s0 Hempty Hmoves)) as (s & Hs & Hinv).
  exists s. split; [done|]. split_and!.
  - intros tmp.
    destruct (aliasInvariant_getAlias s tmp Hinv) as (len & root & Hchain & ? & ? & _).
    exists len, root. split_and!; try done.
    intros len' root' Hchain'.
    by destruct (aliasChain_unique _ _ _ _ _ _ Hchain Hchain') as [-> ->].
  - destruct (step_invariant s Hinv) as (s' & ? & _ & ?). by exists s'.
  - intros s' u v Hc.
    destruct (coalesceTraced_invariant s Hinv) as (s'' & outcome & Hc' & _ & _ & Hcomb).
    rewrite Hc in Hc'. injection Hc' as <- <-. by apply Hcomb.
Qed.

End Bank.

(** The graph of [freezeProgram] after three turns: temporary 5 has been
    coalesced into 4. *)
Lemma alias_map_stays_acyclic_witness :
  ∃ s,
    steps Examples.demoTarget GP 3 (Examples.graphOf GP Examples.freezeProgram) = Some s
    ∧ (∀ tmp, ∃ length root,
         aliasChain GP s tmp length root
         ∧ getAlias GP s tmp = Some root ∧ coalescedTmp GP s root = 0).
Proof.
  destruct (alias_map_stays_acyclic Examples.demoTarget GP
              (Examples.graphOf GP Examples.freezeProgram) 3)
    as (s & Hs & Halias & _).
  - vm_compute; reflexivity.
  - intros inst [Hin|Hin]; vm_compute in Hin.
    + repeat (apply elem_of_cons in Hin as [->|Hin];
              [unfold wellFormedTmp, isInt; vm_compute; repeat split; congruence|]).
      by apply elem_of_nil in Hin.
    + by apply elem_of_nil in Hin.
  - exists s. split; [exact Hs|]. intros tmp.
    destruct (Halias tmp) as (len & root & Hchain & _ & Hget & Hroot).
    exists len, root. split; [exact Hchain|]. split; [exact Hget|exact Hroot].
Defined.

Example alias_of_coalesced_temporary :
  (s ← steps Examples.demoTarget GP 3 (Examples.graphOf GP Examples.freezeProgram);
   getAlias GP s 5) = Some 4.
Proof. vm_compute. reflexivity. Qed.

End AliasFacts.

(** ** Freezing *)

Module FreezeFacts.
Import IRC.

(** C3.  [freezeProgram] after two turns of the main loop: temporary 5 has
    been coalesced into 4, and the move [5 -> 6] waits in [activeMoves]
    because 4 and 6 may not be coalesced yet.  [freezeMoves] on 4 finds that
    move on the merged move list of 4.  Its endpoints after alias resolution
    are 4 and 6, and 6 has degree 2 = K, so nothing is to be transferred; the
    code takes the operand of the move that differs from 4 as written, the
    coalesced temporary 5, and appends it to the simplify worklist. *)
Theorem freezeMoves_takes_the_operand_as_written :
  ∃ s move,
    steps Examples.demoTarget GP 2 (Examples.graphOf GP Examples.freezeProgram) = Some s
    ∧ m_freezeWorklist s = [4]
    ∧ m_simplifyWorklist s = []
    ∧ m_activeMoves s = [move]
    ∧ move ∈ moves GP s 4
    ∧ argTmp (argAt (pointee move) 0) = 5
    ∧ argTmp (argAt (pointee move) 1) = 6
    ∧ getAlias GP s 5 = Some 4
    ∧ getAlias GP s 6 = Some 6
    ∧ degree GP s 6 = m_numberOfRegisters s
    ∧ coalescedTmp GP s 5 = 4
    ∧ m_simplifyWorklist (freezeMoves GP 4 s) = [5]
    ∧ m_simplifyWorklist (freeze GP s) = [4; 5].
Proof.
  eexists _, _. split; [vm_compute; reflexivity|].
  split; [vm_compute; reflexivity|]. split; [vm_compute; reflexivity|].
  split; [vm_compute; reflexivity|].
  split; [vm_compute; repeat constructor|].
  split_and!; vm_compute; reflexivity.
Qed.

End FreezeFacts.

(** ** Spill insertion *)

Module SpillFacts.
Import IRC Rewriter.

Section Bank.
Variable target : Target.
Variable bank : ArgType.

Lemma extends_refl acc : extends bank acc acc.
Proof. by split_and!. Qed.

Lemma extends_trans a b c : extends bank a b → extends bank b c → extends bank a c.
Proof.
  intros (B1 & A1 & N1) (B2 & A2 & N2).
  split_and!; [by etrans|by etrans|lia].
Qed.

Lemma newTmp_numTmps code :
  numTmps (newTmp target bank code).2 bank = numTmps code bank + 1
  ∧ (newTmp target bank code).1 = tmpForIndex target bank (numTmps code bank).
Proof. unfold newTmp. by destruct bank. Qed.

Lemma fillAndSpill_extends stackSlots origin tmp role argType acc :
  extends bank acc (fillAndSpill target bank stackSlots origin tmp role argType acc).2.
Proof.
  unfold fillAndSpill.
  destruct (isReg target tmp || bool_decide (argType ≠ bank)); [apply extends_refl|].
  destruct (stackSlots !! tmp) as [slot|]; [|apply extends_refl].
  pose proof (newTmp_numTmps (updatedCode acc)) as [Hn _].
  destruct (newTmp target bank (updatedCode acc)) as [newTmp code'].
  simpl in Hn.
  destruct (isUse role), (isDef role); simpl; split_and!;
    try reflexivity; try (apply prefix_app_r; reflexivity); cbn; lia.
Qed.

Lemma fillAndSpillOperand_extends stackSlots origin o acc :
  extends bank acc (fillAndSpillOperand target bank stackSlots origin o acc).2.
Proof.
  unfold fillAndSpillOperand. destruct (arg o); try apply extends_refl.
  - pose proof (fillAndSpill_extends stackSlots origin tmp (role o) (type o) acc).
    by destruct (fillAndSpill _ _ _ _ _ _ _ _).
  - pose proof (fillAndSpill_extends stackSlots origin base Use GP acc).
    by destruct (fillAndSpill _ _ _ _ _ _ _ _).
Qed.

Lemma fillAndSpillOperands_extends stackSlots origin operands acc :
  extends bank acc (fillAndSpillOperands target bank stackSlots origin operands acc).2.
Proof.
  revert acc. induction operands as [|o operands IH]; intros acc; simpl.
  - apply extends_refl.
  - pose proof (fillAndSpillOperand_extends stackSlots origin o acc) as H1.
    destruct (fillAndSpillOperand _ _ _ _ _ _) as [o' acc1].
    pose proof (IH acc1) as H2.
    destruct (fillAndSpillOperands _ _ _ _ _ _) as [operands' acc2].
    simpl in *. by eapply extends_trans.
Qed.

(** The slot [i] of the rewritten argument list is slot [i] of the
    original one after the lambda has run on it, from some state of the
    insertions that lies between the first and the last. *)
Lemma fillAndSpillOperands_lookup stackSlots origin operands acc i o :
  operands !! i = Some o →
  ∃ acc1,
    extends bank acc acc1
    ∧ extends bank (fillAndSpillOperand target bank stackSlots origin o acc1).2
              (fillAndSpillOperands target bank stackSlots origin operands acc).2
    ∧ (fillAndSpillOperands target bank stackSlots origin operands acc).1 !! i
      = Some (fillAndSpillOperand target bank stackSlots origin o acc1).1.
Proof.
  revert acc i. induction operands as [|o0 operands IH]; intros acc i Hi; [done|].
  destruct i as [|i]; simpl in Hi.
  - injection Hi as ->. exists acc. simpl.
    destruct (fillAndSpillOperand _ _ _ _ _ _) as [o' acc1] eqn:Ho.
    pose proof (fillAndSpillOperands_extends stackSlots origin operands acc1) as H2.
    destruct (fillAndSpillOperands _ _ _ _ _ _) as [operands' acc2].
    split_and!; [apply extends_refl|done|done].
  - simpl.
    pose proof (fillAndSpillOperand_extends stackSlots origin o0 acc) as H1.
    destruct (fillAndSpillOperand _ _ _ _ o0 _) as [o' acc1].
    destruct (IH acc1 i Hi) as (acc' & He1 & He2 & Hl).
    destruct (fillAndSpillOperands _ _ _ _ _ _) as [operands' acc2].
    exists acc'. split_and!; [by eapply extends_trans|done|done].
Qed.

(** C2, as the code has it.  An argument slot that holds a spilled
    temporary of the bank is replaced by the stack slot exactly when the slot
    admits a stack operand, whatever its role.  When it does not, a role
    that uses gets a temporary that the program did not have, filled from
    the stack slot before the instruction; a role that does not use keeps its
    temporary; and a role that defines gets a spill of the temporary left in
    the slot after the instruction. *)
Theorem spilled_slot_rewrite
    (stackSlots : gmap Z N) (inst : Inst) (code : Code)
    (i : nat) (o : Operand) (tmp : Tmp) (slot : N) :
  args inst !! i = Some o →
  arg o = ArgTmp tmp →
  tmpType tmp = bank → type o = bank → isReg target tmp = false →
  stackSlots !! tmp = Some slot →
  ∃ fills rewritten spills o',
    (spillInst target bank stackSlots inst code).1 = fills ++ [rewritten] ++ spills
    ∧ opcode rewritten = opcode inst
    ∧ args rewritten !! i = Some o'
    ∧ (arg o' = ArgStack slot ↔ admitsStack o = true)
    ∧ (admitsStack o = false →
       ∃ tmp',
         arg o' = ArgTmp tmp'
         ∧ (isUse (role o) = true →
            (∃ index, numTmps code bank ≤ index
                      ∧ tmp' = tmpForIndex target bank index)
            ∧ moveInst target bank (origin inst) (ArgStack slot) (ArgTmp tmp') ∈ fills)
         ∧ (isUse (role o) = false → tmp' = tmp)
         ∧ (isDef (role o) = true →
            moveInst target bank (origin inst) (ArgTmp tmp') (ArgStack slot) ∈ spills)).
Proof.
  intros Hi Harg Hbank Htype Hreg Hslot. unfold spillInst.
  set (acc0 := {| updatedCode := code; before := []; after := [] |}).
  assert ((replaceByStack target bank stackSlots <$> args inst) !! i
          = Some (replaceByStack target bank stackSlots o)) as Hi'.
  { by rewrite list_lookup_fmap, Hi. }
  destruct (fillAndSpillOperands_lookup stackSlots (origin inst) _ acc0 _ _ Hi')
    as (acc1 & He1 & He2 & Hl).
  destruct (fillAndSpillOperands target bank stackSlots (origin inst)
              (replaceByStack target bank stackSlots <$> args inst) acc0)
    as [operands acc'] eqn:Hops.
  simpl in He2, Hl.
  eexists (before acc'), _, (after acc'), _. split; [reflexivity|].
  split; [reflexivity|]. split; [exact Hl|].
  assert (replaceByStack target bank stackSlots o
          = if admitsStack o
            then {| arg := ArgStack slot; role := role o; type := type o;
                    admitsStack := admitsStack o |}
            else o) as Hreplace.
  { unfold replaceByStack. rewrite Harg, Hreg, Hslot.
    by rewrite bool_decide_eq_true_2 by done. }
  rewrite Hreplace in *. clear Hreplace.
  destruct (admitsStack o) eqn:Hadmits.
  { unfold fillAndSpillOperand. simpl. split; [done|]. intros [=]. }
  destruct He1 as (_ & _ & Hnum). simpl in Hnum.
  destruct He2 as (Hbefore & Hafter & _).
  revert Hbefore Hafter.
  unfold fillAndSpillOperand, fillAndSpill. rewrite Harg, Hreg, Hslot.
  rewrite bool_decide_eq_false_2 by (intros H; by apply H).
  pose proof (newTmp_numTmps (updatedCode acc1)) as [_ Hnew].
  destruct (newTmp target bank (updatedCode acc1)) as [fresh code1].
  simpl in Hnew.
  destruct (isUse (role o)) eqn:Huse, (isDef (role o)) eqn:Hdef;
    simpl; intros Hbefore Hafter; (split; [split; [done|intros [=]]|]);
    intros _; eexists; (split; [reflexivity|]); split_and!; try done.
  - intros _. split; [exists (numTmps (updatedCode acc1) bank); by split|].
    eapply elem_of_prefix; [|exact Hbefore]. apply elem_of_app. right. by left.
  - intros _. eapply elem_of_prefix; [|exact Hafter]. apply elem_of_app. right. by left.
  - intros _. split; [exists (numTmps (updatedCode acc1) bank); by split|].
    eapply elem_of_prefix; [|exact Hbefore]. apply elem_of_app. right. by left.
  - intros _. eapply elem_of_prefix; [|exact Hafter]. apply elem_of_app. right. by left.
Qed.

End Bank.

(** A read-modify-write slot that does not admit a stack operand: the
    temporary 4 gives way to a temporary of index 1 or more, filled before
    and spilled after. *)
Lemma spilled_slot_rewrite_witness :
  let o := {| arg := ArgTmp 4; role := UseDef; type := GP; admitsStack := false |} in
  let inst := Examples.inst (Patch 2) [o] in
  ∃ fills rewritten spills o',
    (spillInst Examples.demoTarget GP {[4 := 0%N]} inst (Examples.codeOf [inst] 1 0)).1
    = fills ++ [rewritten] ++ spills
    ∧ opcode rewritten = opcode inst
    ∧ args rewritten !! 0%nat = Some o'
    ∧ (arg o' = ArgStack 0 ↔ admitsStack o = true)
    ∧ (admitsStack o = false →
       ∃ tmp',
         arg o' = ArgTmp tmp'
         ∧ (isUse (role o) = true →
            (∃ index, numTmps (Examples.codeOf [inst] 1 0) GP ≤ index
                      ∧ tmp' = tmpForIndex Examples.demoTarget GP index)
            ∧ moveInst Examples.demoTarget GP (origin inst) (ArgStack 0) (ArgTmp tmp')
              ∈ fills)
         ∧ (isUse (role o) = false → tmp' = 4)
         ∧ (isDef (role o) = true →
            moveInst Examples.demoTarget GP (origin inst) (ArgTmp tmp') (ArgStack 0)
            ∈ spills)).
Proof.
  intros o inst.
  apply (spilled_slot_rewrite Examples.demoTarget GP {[4 := 0%N]} inst
           (Examples.codeOf [inst] 1 0) 0 o 4 0%N); reflexivity.
Defined.

Example use_def_slot_without_stack :
  (spillInst Examples.demoTarget GP {[4 := 0%N]}
     (Examples.inst (Patch 2)
        [ {| arg := ArgTmp 4; role := UseDef; type := GP; admitsStack := false |} ])
     (Examples.codeOf [] 1 0)).1
  = [ moveInst Examples.demoTarget GP 0 (ArgStack 0) (ArgTmp 5);
      Examples.inst (Patch 2)
        [ {| arg := ArgTmp 5; role := UseDef; type := GP; admitsStack := false |} ];
      moveInst Examples.demoTarget GP 0 (ArgTmp 5) (ArgStack 0) ].
Proof. vm_compute. reflexivity. Qed.

(** C2, as the design document words it, fails on a read-modify-write slot
    that admits a stack operand: spill insertion puts the stack slot in the
    argument although the role is neither a pure use nor a pure definition;
    it makes no temporary and inserts no move. *)
Lemma use_def_slot_replaced_by_stack :
  role Examples.useDefOnStack = UseDef
  ∧ admitsStack Examples.useDefOnStack = true
  ∧ addSpillAndFillToProgram Examples.demoTarget GP
      (Examples.codeOf [Examples.inst (Patch 2) [Examples.useDefOnStack]] 1 0) [4]
    = {| blocks :=
           [[ Examples.inst (Patch 2)
                [ {| arg := ArgStack 0; role := UseDef; type := GP;
                     admitsStack := true |} ] ]];
         numGPTmps := 1; numFPTmps := 0; stackSlots := [8] |}.
Proof. vm_compute. by repeat split. Qed.

End SpillFacts.

(** ** Facts about the bank driver *)

Module DriverFacts.
Import IRC Rewriter Driver.

#[local] Arguments allocate : simpl never.
#[local] Arguments finish : simpl never.
#[local] Arguments buildCode : simpl never.

Section Passes.
Variable target : Target.
Variable liveness : Code → nat → nat → list Tmp.

Lemma iteratedRegisterCoalescingOnType_rounds fuel bank code code' rounds :
  iteratedRegisterCoalescingOnType target liveness fuel bank code = Some (code', rounds) →
  ∃ n, rounds = uncoupledRounds bank n.
Proof.
  revert code code' rounds. induction fuel as [|fuel IH]; intros code code' rounds; [done|].
  simpl.
  destruct (allocate target bank (S fuel) _) as [allocator|]; [|done]. simpl.
  destruct (finish target bank code allocator) as [[code1 [|]]|]; [| |done].
  - intros [= <- <-]. by exists 0%nat.
  - destruct (iteratedRegisterCoalescingOnType target liveness fuel bank code1)
      as [[code2 rounds2]|] eqn:Hrec; [|done].
    simpl. intros [= <- <-]. destruct (IH _ _ _ Hrec) as [n ->]. by exists (S n).
Qed.

Lemma coupledRounds_rounds fuel code code' gp fp rounds :
  coupledRounds target liveness fuel code = Some (code', gp, fp, rounds) →
  ∃ n, rounds = replicate n (Coupled false false) ++ [Coupled gp fp]
       ∧ gp || fp = true.
Proof.
  revert code code' gp fp rounds.
  induction fuel as [|fuel IH]; intros code code' gp fp rounds; [done|].
  simpl.
  destruct (allocate target GP (S fuel) _) as [gpAllocator|]; [|done]. simpl.
  destruct (finish target GP code gpAllocator) as [[code1 gp1]|]; [|done]. simpl.
  destruct (allocate target FP (S fuel) _) as [fpAllocator|]; [|done]. simpl.
  destruct (finish target FP code1 fpAllocator) as [[code2 fp1]|]; [|done]. simpl.
  destruct gp1, fp1; simpl; try (intros [= <- <- <- <-]; by exists 0%nat).
  destruct (coupledRounds target liveness fuel code2) as [[[[code3 gp3] fp3] rounds3]|]
    eqn:Hrec; [|done].
  simpl. intros [= <- <- <- <-]. destruct (IH _ _ _ _ _ Hrec) as (n & -> & Hor).
  by exists (S n).
Qed.

(** C4, as the code has it.  When the entry point returns, its turns are:
    coupled turns in which both banks spilled, as many as there were; one
    coupled turn in which at least one bank was colored; then, for the GP
    bank if that turn did not color it, the turns of its own loop, and
    likewise for the FP bank.  A bank that the coupled turn colored has no
    turn of its own. *)
Theorem entry_point_rounds (fuel : nat) (code code' : Code) (rounds : list Round) :
  iteratedRegisterCoalescing target liveness fuel code = Some (code', rounds) →
  ∃ n gp fp gpRounds fpRounds,
    rounds = replicate n (Coupled false false) ++ [Coupled gp fp] ++ gpRounds ++ fpRounds
    ∧ gp || fp = true
    ∧ (if gp then gpRounds = [] else ∃ k, gpRounds = uncoupledRounds GP k)
    ∧ (if fp then fpRounds = [] else ∃ k, fpRounds = uncoupledRounds FP k).
Proof.
  unfold iteratedRegisterCoalescing.
  destruct (coupledRounds target liveness fuel code) as [[[[code1 gp] fp] rounds1]|]
    eqn:Hcoupled; [|done].
  simpl. destruct (coupledRounds_rounds _ _ _ _ _ _ Hcoupled) as (n & -> & Hor).
  destruct gp; simpl.
  - destruct fp; simpl.
    + intros [= <- <-]. exists n, true, true, [], []. by rewrite !app_nil_r.
    + destruct (iteratedRegisterCoalescingOnType target liveness fuel FP code1)
        as [[code2 rounds2]|] eqn:Hfp; [|done].
      simpl. intros [= <- <-].
      exists n, true, false, [], rounds2. rewrite <- app_assoc.
      split_and!; try done. by eapply iteratedRegisterCoalescingOnType_rounds.
  - destruct (iteratedRegisterCoalescingOnType target liveness fuel GP code1)
      as [[code2 rounds2]|] eqn:Hgp; [|done].
    simpl. destruct fp; [|done]. simpl. intros [= <- <-].
    exists n, false, true, rounds2, []. rewrite <- !app_assoc, app_nil_r.
    split_and!; try done. by eapply iteratedRegisterCoalescingOnType_rounds.
Qed.

End Passes.

(** [georgeProgram]: the coupled turn colors the FP bank and spills in the
    GP bank, which then takes two turns of its own. *)
Lemma entry_point_rounds_witness :
  ∃ code' n gp fp gpRounds fpRounds,
    iteratedRegisterCoalescing Examples.demoTarget Examples.blockLiveness 40
      Examples.georgeProgram
    = Some (code', replicate n (Coupled false false) ++ [Coupled gp fp]
                   ++ gpRounds ++ fpRounds)
    ∧ gp || fp = true
    ∧ (if gp then gpRounds = [] else ∃ k, gpRounds = uncoupledRounds GP k)
    ∧ (if fp then fpRounds = [] else ∃ k, fpRounds = uncoupledRounds FP k).
Proof.
  assert (∃ result,
            iteratedRegisterCoalescing Examples.demoTarget Examples.blockLiveness 40
              Examples.georgeProgram = Some result) as [[code' rounds] Hrun].
  { eexists. vm_compute. reflexivity. }
  destruct (entry_point_rounds Examples.demoTarget Examples.blockLiveness 40
              Examples.georgeProgram code' rounds Hrun)
    as (n & gp & fp & gpRounds & fpRounds & Heq & H).
  exists code', n, gp, fp, gpRounds, fpRounds. subst rounds. split; [exact Hrun|exact H].
Defined.

Example rounds_of_georgeProgram :
  snd <$> iteratedRegisterCoalescing Examples.demoTarget Examples.blockLiveness 40
            Examples.georgeProgram
  = Some [Coupled false true; Uncoupled GP false; Uncoupled GP true].
Proof. vm_compute. reflexivity. Qed.

(** C4, as the design document words it, fails on [spillingProgram]: both
    banks spill in the first coupled turn, and the entry point takes a second
    coupled turn instead of one loop per bank. *)
Lemma two_coupled_rounds :
  snd <$> iteratedRegisterCoalescing Examples.demoTarget Examples.blockLiveness 40
            Examples.spillingProgram
  = Some [Coupled false false; Coupled true true].
Proof. vm_compute. reflexivity. Qed.

End DriverFacts.

(** ** Constant motion *)

Module MoveConstantsFacts.
Import MoveConstants.

Lemma collectConstant_lookup acc value k :
  is_Some ((collectConstant acc value).2 !! k) ↔
  is_Some (acc.2 !! k)
  ∨ (needsMotion value = true ∧ goesInTable (key value) = true ∧ key value = k).
Proof.
  destruct acc as [toRemove table]. unfold collectConstant.
  destruct (needsMotion value) eqn:Hmotion; simpl;
    [|split; [by left|]; by intros [?|(? & _)]].
  destruct (goesInTable (key value)) eqn:Htable; simpl;
    [|split; [by left|]; by intros [?|(_ & ? & _)]].
  destruct (table !! key value) as [slot|] eqn:Hslot.
  - split; [by left|]. intros [H|(_ & _ & <-)]; [done|]. by rewrite Hslot.
  - rewrite lookup_insert. case_decide as Hk; simplify_eq.
    + split; [by right|]. by eexists.
    + split; [by left|]. by intros [H|(_ & _ & ?)].
Qed.

Lemma collectConstants_lookup values acc k :
  is_Some ((foldl collectConstant acc values).2 !! k) ↔
  is_Some (acc.2 !! k)
  ∨ ∃ value, value ∈ values ∧ needsMotion value = true
             ∧ goesInTable (key value) = true ∧ key value = k.
Proof.
  revert acc. induction values as [|value values IH]; intros acc; simpl.
  - split; [by left|]. intros [H|(value & Hin & _)]; [done|]. by apply elem_of_nil in Hin.
  - rewrite IH, collectConstant_lookup. split.
    + intros [[H|H]|(v & Hin & H)]; [by left| |].
      * right. exists value. split; [left|done].
      * right. exists v. split; [by right|done].
    + intros [H|(v & Hin & H)]; [by left; left|].
      apply elem_of_cons in Hin as [->|Hin]; [by left; right|].
      right. by exists v.
Qed.

Lemma constDouble_needsMotion value :
  opcode value = ConstDouble → needsMotion value = true.
Proof. intros H. unfold needsMotion, isConstant, hasInt. by rewrite H. Qed.

(** C9.  A constant of the procedure has its key in the data-section table
    exactly when it is a double constant whose key is not the key of [+0.0];
    the key of [+0.0] is in the table of no procedure. *)
Theorem constant_in_table_iff (values : list Value) (value : Value) :
  value ∈ values →
  isConstant value = true →
  (is_Some (constTable values !! key value)
   ↔ opcode value = ConstDouble ∧ key value ≠ doubleZero)
  ∧ constTable values !! doubleZero = None.
Proof.
  intros Hin Hconst. unfold constTable, collectConstants. split.
  - rewrite collectConstants_lookup. simpl. rewrite lookup_empty. split.
    + intros [[? H]|(v & _ & _ & Htable & Hkey)]; [done|].
      unfold goesInTable in Htable. rewrite Hkey in Htable.
      apply andb_true_iff in Htable as [Hop Hzero].
      apply bool_decide_eq_true in Hop, Hzero. done.
    + intros [Hop Hzero]. right. exists value.
      split_and!; [done|by apply constDouble_needsMotion| |done].
      unfold goesInTable. apply andb_true_iff.
      split; apply bool_decide_eq_true; done.
  - apply eq_None_not_Some. rewrite collectConstants_lookup. simpl.
    rewrite lookup_empty.
    intros [[? H]|(v & _ & _ & Htable & Hkey)]; [done|].
    unfold goesInTable in Htable. rewrite Hkey in Htable.
    apply andb_true_iff in Htable as [_ Hzero].
    by apply bool_decide_eq_true in Hzero.
Qed.

Lemma constant_in_table_iff_witness :
  (is_Some (constTable [Examples.bigInt; Examples.plusZero; Examples.pi] !! key Examples.pi)
   ↔ opcode Examples.pi = ConstDouble ∧ key Examples.pi ≠ doubleZero)
  ∧ constTable [Examples.bigInt; Examples.plusZero; Examples.pi] !! doubleZero = None.
Proof.
  apply (constant_in_table_iff [Examples.bigInt; Examples.plusZero; Examples.pi] Examples.pi).
  - by vm_compute; repeat constructor.
  - reflexivity.
Defined.

(** The table of that procedure holds the double and nothing else. *)
Example table_of_three_constants :
  map_to_list (constTable [Examples.bigInt; Examples.plusZero; Examples.pi])
  = [(key Examples.pi, 0%nat)].
Proof. by vm_compute. Qed.

End MoveConstantsFacts.

(** ** Facts about the edge encoding *)

Module EdgeFacts.
Import IRC Graph BuildFacts.

Lemma toInt_toUnsigned v : isInt v → toInt (toUnsigned v) = v.
Proof.
  unfold isInt, toInt, toUnsigned. intros Hv. rewrite Z.mod_mod by lia.
  destruct (decide (v < 0)).
  - rewrite <- (Z.mod_unique v (2 ^ 32) (-1) (v + 2 ^ 32)) by lia.
    destruct (_ <? _) eqn:H; [apply Z.ltb_lt in H; lia|lia].
  - rewrite Z.mod_small by lia.
    destruct (_ <? _) eqn:H; [done|apply Z.ltb_ge in H; lia].
Qed.

Lemma toInt_congruent v : toUnsigned (toInt v) = toUnsigned v.
Proof.
  unfold toInt, toUnsigned. pose proof (Z.mod_pos_bound v (2 ^ 32)).
  destruct (_ <? _); [apply Z.mod_mod; lia|].
  rewrite <- (Z.mod_add _ 1) by lia.
  replace (v mod 2 ^ 32 - 2 ^ 32 + 1 * 2 ^ 32) with (v mod 2 ^ 32) by lia.
  apply Z.mod_mod. lia.
Qed.

Lemma toInt_isInt v : isInt (toInt v).
Proof.
  unfold toInt, isInt. pose proof (Z.mod_pos_bound v (2 ^ 32)).
  destruct (_ <? _) eqn:Hlt; [apply Z.ltb_lt in Hlt|apply Z.ltb_ge in Hlt]; lia.
Qed.

Lemma toUnsigned_opp_toUnsigned v : toUnsigned (- toUnsigned v) = toUnsigned (- v).
Proof.
  unfold toUnsigned. rewrite (Z.mod_eq v (2 ^ 32)) by lia.
  replace (- (v - 2 ^ 32 * (v / 2 ^ 32))) with (- v + (v / 2 ^ 32) * 2 ^ 32) by lia.
  apply Z.mod_add. lia.
Qed.

Lemma toUnsigned_opp_toInt v : toUnsigned (- toInt v) = toUnsigned (- v).
Proof.
  rewrite <- toUnsigned_opp_toUnsigned, toInt_congruent. apply toUnsigned_opp_toUnsigned.
Qed.

(** X1.  An edge is its unordered pair of temporaries. *)
Theorem InterferenceEdge_unordered_pair (a b c d : Tmp) :
  isInt a → isInt b → isInt c → isInt d →
  InterferenceEdge a b = InterferenceEdge c d
  ↔ (a = c ∧ b = d) ∨ (a = d ∧ b = c).
Proof.
  intros Ha Hb Hc Hd. split.
  - by apply InterferenceEdge_inj.
  - intros [[-> ->]|[-> ->]]; [done|apply InterferenceEdge_sym].
Qed.

Lemma InterferenceEdge_unordered_pair_witness :
  InterferenceEdge 4 (-3) = InterferenceEdge (-3) 4
  ↔ (4 = -3 ∧ -3 = 4) ∨ (4 = 4 ∧ -3 = -3).
Proof.
  apply (InterferenceEdge_unordered_pair 4 (-3) (-3) 4); unfold isInt; lia.
Defined.

(** X2.  [first] and [second] give back the two temporaries of an edge, the
    one whose internal value is smaller as an [unsigned] first. *)
Theorem first_second_of_InterferenceEdge (a b : Tmp) :
  isInt a → isInt b →
  (first (InterferenceEdge a b), second (InterferenceEdge a b))
  = if toUnsigned b <? toUnsigned a then (b, a) else (a, b).
Proof.
  intros Ha Hb. unfold first, second, InterferenceEdge.
  pose proof (toUnsigned_range a). pose proof (toUnsigned_range b).
  change 4294967295 with (Z.ones 32).
  destruct (toUnsigned b <? toUnsigned a);
    rewrite pack_high, pack_low by lia; by rewrite !toInt_toUnsigned.
Qed.

Lemma first_second_of_InterferenceEdge_witness :
  (first (InterferenceEdge 4 (-3)), second (InterferenceEdge 4 (-3)))
  = if toUnsigned (-3) <? toUnsigned 4 then (-3, 4) else (4, -3).
Proof.
  apply (first_second_of_InterferenceEdge 4 (-3)); unfold isInt; lia.
Defined.

(** X3.  The edge of two distinct temporaries is neither the empty value
    nor the deleted value of the hash table that holds the edges. *)
Theorem InterferenceEdge_is_no_marker (a b : Tmp) :
  isInt a → isInt b → a ≠ b →
  InterferenceEdge a b ≠ emptyEdge
  ∧ isHashTableDeletedValue (InterferenceEdge a b) = false.
Proof.
  intros Ha Hb Hab.
  assert (emptyEdge = InterferenceEdge 0 0) as -> by reflexivity.
  assert (deletedEdge = InterferenceEdge (-1) (-1)) as Hdel by reflexivity.
  unfold isHashTableDeletedValue. rewrite Hdel, bool_decide_eq_false. split.
  - intros [[? ?]|[? ?]]%InterferenceEdge_inj; unfold isInt in *; try lia.
  - intros [[? ?]|[? ?]]%InterferenceEdge_inj; unfold isInt in *; try lia.
Qed.

Lemma InterferenceEdge_is_no_marker_witness :
  InterferenceEdge 4 (-3) ≠ emptyEdge
  ∧ isHashTableDeletedValue (InterferenceEdge 4 (-3)) = false.
Proof.
  apply (InterferenceEdge_is_no_marker 4 (-3)); unfold isInt; lia.
Defined.

Section Bank.
Variable bank : ArgType.

Lemma tmpFromAbsoluteIndex_absoluteIndex (tmp : Tmp) :
  isInt tmp → tmpFromAbsoluteIndex bank (absoluteIndex bank tmp) = tmp.
Proof.
  intros Htmp. unfold tmpFromAbsoluteIndex, absoluteIndex. destruct bank.
  - by apply toInt_toUnsigned.
  - apply toUnsigned_inj; [apply toInt_isInt|done|].
    rewrite toInt_congruent, toUnsigned_opp_toUnsigned. f_equal. lia.
Qed.

Lemma absoluteIndex_tmpFromAbsoluteIndex (index : Z) :
  0 ≤ index < 2 ^ 32 → absoluteIndex bank (tmpFromAbsoluteIndex bank index) = index.
Proof.
  intros Hindex. unfold tmpFromAbsoluteIndex, absoluteIndex. destruct bank.
  - rewrite toInt_congruent. unfold toUnsigned. apply Z.mod_small. lia.
  - rewrite toUnsigned_opp_toInt. unfold toUnsigned.
    replace (- - index) with index by lia. apply Z.mod_small. lia.
Qed.

(** X4.  [tmpFromAbsoluteIndex] undoes [absoluteIndex] on every temporary,
    and [absoluteIndex] undoes [tmpFromAbsoluteIndex] on every index that an
    [unsigned] holds. *)
Theorem absoluteIndex_round_trip (tmp : Tmp) (index : Z) :
  isInt tmp → 0 ≤ index < 2 ^ 32 →
  tmpFromAbsoluteIndex bank (absoluteIndex bank tmp) = tmp
  ∧ absoluteIndex bank (tmpFromAbsoluteIndex bank index) = index.
Proof.
  intros Htmp Hindex. split.
  - by apply tmpFromAbsoluteIndex_absoluteIndex.
  - by apply absoluteIndex_tmpFromAbsoluteIndex.
Qed.

End Bank.

Lemma absoluteIndex_round_trip_witness :
  tmpFromAbsoluteIndex FP (absoluteIndex FP (-3)) = -3
  ∧ absoluteIndex FP (tmpFromAbsoluteIndex FP 3) = 3.
Proof. apply (absoluteIndex_round_trip FP (-3) 3); unfold isInt; lia. Defined.

End EdgeFacts.

(** ** Facts about the graph that the builder makes *)

Module GraphFacts.
Import IRC HashSetFacts IRCFacts BuildFacts AliasFacts GraphInvariant Rewriter Driver.

Lemma foldl_invariant {A B} (P : A → Prop) (f : A → B → A) (l : list B) (a : A) :
  P a → (∀ a x, x ∈ l → P a → P (f a x)) → P (foldl f a l).
Proof.
  revert a. induction l as [|x l IH]; intros a Ha Hf; simpl; [done|].
  apply IH.
  - apply Hf; [left|done].
  - intros a' y Hy. apply Hf. by right.
Qed.

Section Bank.
Variable target : Target.
Variable bank : ArgType.

Lemma adjacency_appendAdjacent a b s x :
  adjacency bank (appendAdjacent bank a b s) x
  = if decide (absoluteIndex bank x = absoluteIndex bank a)
    then adjacency bank s a ++ [b] else adjacency bank s x.
Proof.
  unfold appendAdjacent, adjacency. cbn. case_decide as Hx.
  - by rewrite Hx, lookup_insert_eq.
  - by rewrite lookup_insert_ne.
Qed.

(** The adjacency vectors after [addEdge]. *)
Lemma adjacency_addEdge a b s x :
  isInt a → isInt b → isInt x →
  adjacency bank (addEdge target bank a b s) x
  = if decide (a = b) then adjacency bank s x
    else if interfere s a b then adjacency bank s x
    else if decide (x = a ∧ isReg target a = false) then adjacency bank s x ++ [b]
    else if decide (x = b ∧ isReg target b = false) then adjacency bank s x ++ [a]
    else adjacency bank s x.
Proof.
  intros Ha Hb Hx. unfold addEdge. case_decide as Hab; [done|].
  destruct (interfere s a b); [done|].
  assert (∀ y, isInt y → absoluteIndex bank x = absoluteIndex bank y ↔ x = y) as Hinj.
  { intros y Hy. split; [by apply absoluteIndex_inj|by intros ->]. }
  pose proof (Hinj a Ha) as Hxa. pose proof (Hinj b Hb) as Hxb.
  destruct (isReg target a) eqn:Hra, (isReg target b) eqn:Hrb;
    rewrite ?adjacency_appendAdjacent.
  - rewrite !decide_False by (by intros []). done.
  - rewrite (decide_False (P := x = a ∧ _)) by (by intros []).
    destruct (decide (absoluteIndex bank x = absoluteIndex bank b)) as [Hi|Hi].
    + apply Hxb in Hi as ->. by rewrite decide_True.
    + rewrite decide_False; [done|]. intros [-> _]. by apply Hi.
  - rewrite (decide_False (P := x = b ∧ _)) by (by intros []).
    destruct (decide (absoluteIndex bank x = absoluteIndex bank a)) as [Hi|Hi].
    + apply Hxa in Hi as ->. by rewrite decide_True.
    + rewrite decide_False; [done|]. intros [-> _]. by apply Hi.
  - destruct (decide (absoluteIndex bank x = absoluteIndex bank b)) as [Hi|Hi].
    + apply Hxb in Hi as ->.
      rewrite (decide_False (P := b = a ∧ _)) by (intros [? _]; by apply Hab).
      rewrite (decide_True (P := b = b ∧ _)) by (by split).
      rewrite decide_False; [done|]. intros Hi. apply absoluteIndex_inj in Hi; [|done..].
      by apply Hab.
    + rewrite (decide_False (P := x = b ∧ _)) by (intros [-> _]; by apply Hi).
      destruct (decide (absoluteIndex bank x = absoluteIndex bank a)) as [Hj|Hj].
      * apply Hxa in Hj as ->. by rewrite decide_True.
      * rewrite decide_False; [done|]. intros [-> _]. by apply Hj.
Qed.

Lemma graphConsistent_addEdge a b s :
  isInt a → isInt b →
  graphConsistent target bank s → graphConsistent target bank (addEdge target bank a b s).
Proof.
  intros Ha Hb (Hadj & Hedge & Hnodup & Hirr).
  assert (∀ x y, interfere (addEdge target bank a b s) x y = true
                 ↔ interfere s x y = true
                   ∨ (a ≠ b ∧ InterferenceEdge x y = InterferenceEdge a b)) as Hint.
  { intros x y. rewrite !interfere_true. apply addEdge_edges. }
  destruct (decide (a = b)) as [Hab|Hab].
  { unfold addEdge. by rewrite decide_True. }
  destruct (interfere s a b) eqn:Hi.
  { unfold addEdge. rewrite decide_False, Hi by done. done. }
  assert (b ∉ adjacency bank s a) as Hba.
  { intros Hin. destruct (Hadj a b Ha Hin) as (_ & _ & Hi'). congruence. }
  assert (a ∉ adjacency bank s b) as Hab'.
  { intros Hin. destruct (Hadj b a Hb Hin) as (_ & _ & Hi').
    unfold interfere in Hi, Hi'. rewrite InterferenceEdge_sym in Hi'. congruence. }
  split_and!.
  - intros x y Hx. rewrite (adjacency_addEdge a b s x Ha Hb Hx).
    rewrite decide_False, Hi by done. rewrite Hint.
    repeat case_decide; rewrite ?elem_of_app, ?list_elem_of_singleton.
    + destruct H as [-> _]. intros [Hin| ->].
      * destruct (Hadj a y Hx Hin) as (? & ? & ?). auto.
      * split_and!; [done|done|]. right. done.
    + destruct H0 as [-> _]. intros [Hin| ->].
      * destruct (Hadj b y Hx Hin) as (? & ? & ?). auto.
      * split_and!; [done|by apply not_eq_sym|]. right. split; [done|].
        apply InterferenceEdge_sym.
    + intros Hin. destruct (Hadj x y Hx Hin) as (? & ? & ?). auto.
  - intros x y Hx Hy Hxy Hreg. rewrite (adjacency_addEdge a b s x Ha Hb Hx).
    rewrite decide_False, Hi by done. apply Hint in Hxy as [Hold|[_ Hnew]].
    + specialize (Hedge x y Hx Hy Hold Hreg).
      repeat case_decide; rewrite ?elem_of_app; auto.
    + apply InterferenceEdge_inj in Hnew as [[-> ->]|[-> ->]]; try done.
      * rewrite decide_True by done. apply elem_of_app. right. left.
      * rewrite decide_False by (intros [? _]; by apply Hab).
        rewrite decide_True by done. apply elem_of_app. right. left.
  - intros x Hx. rewrite (adjacency_addEdge a b s x Ha Hb Hx).
    rewrite decide_False, Hi by done. specialize (Hnodup x Hx).
    repeat case_decide; try done.
    + destruct H as [-> _]. apply NoDup_app. split_and!; [done| |apply NoDup_singleton].
      intros y Hy ->%list_elem_of_singleton. done.
    + destruct H0 as [-> _]. apply NoDup_app. split_and!; [done| |apply NoDup_singleton].
      intros y Hy ->%list_elem_of_singleton. done.
  - intros x Hx. apply not_true_is_false. rewrite Hint. intros [Hold|[_ Hnew]].
    + by rewrite Hirr in Hold.
    + apply InterferenceEdge_inj in Hnew as [[-> ->]|[-> ->]]; done.
Qed.

Lemma degreesMatch_appendAdjacent a b s :
  degreesMatch target bank s → degreesMatch target bank (appendAdjacent bank a b s).
Proof.
  intros Hs i Hi. specialize (Hs i Hi).
  unfold appendAdjacent, degree, adjacency.
  cbn [m_degrees m_adjacencyList set_degrees set_adjacencyList].
  destruct (decide (i = absoluteIndex bank a)) as [->|Hne].
  - rewrite !lookup_insert_eq. cbn [default from_option id].
    rewrite Hs, length_app, Nat2Z.inj_add. cbn [length].
    by rewrite Zplus_mod_idemp_l.
  - rewrite !lookup_insert_ne by done. done.
Qed.

Lemma degreesMatch_addEdge a b s :
  degreesMatch target bank s → degreesMatch target bank (addEdge target bank a b s).
Proof.
  intros Hs. unfold addEdge. case_decide; [done|].
  destruct (interfere s a b); [done|].
  destruct (isReg target a), (isReg target b);
    repeat apply degreesMatch_appendAdjacent; done.
Qed.

Lemma graphConsistent_newAllocator numTmps :
  graphConsistent target bank (newAllocator target bank numTmps).
Proof.
  split_and!.
  - intros a b _. unfold adjacency. cbn. rewrite lookup_empty. cbn. by intros ?%elem_of_nil.
  - intros a b _ _. unfold interfere. cbn. rewrite bool_decide_eq_true.
    by intros ?%elem_of_empty.
  - intros a _. unfold adjacency. cbn. rewrite lookup_empty. constructor.
  - intros a _. unfold interfere. cbn. apply bool_decide_eq_false, not_elem_of_empty.
Qed.

Lemma degreesMatch_newAllocator numTmps :
  degreesMatch target bank (newAllocator target bank numTmps).
Proof.
  intros i Hi. cbn. rewrite lookup_empty. cbn. unfold initializeDegrees. cbn zeta.
  rewrite (not_elem_of_list_to_map_1 _ i); [done|].
  rewrite <- list_fmap_compose. cbn. rewrite list_fmap_id.
  rewrite elem_of_seqZ. lia.
Qed.

(** What [build] keeps: a property of the graph that [addEdge] keeps on the
    temporaries [Q] and that does not read the move lists. *)
Section BuildInvariant.
Variable P : Allocator → Prop.
Variable Q : Tmp → Prop.
Hypothesis P_addEdge : ∀ a b s, Q a → Q b → P s → P (addEdge target bank a b s).
Hypothesis P_moves : ∀ s ml wl, P s → P (set_worklistMoves wl (set_moveList ml s)).
Hypothesis Q_zero : Q 0.

Lemma addDefEdges_invariant inst s :
  (∀ tmp role argType, (tmp, role, argType) ∈ instTmps inst → Q tmp) →
  P s → P (addDefEdges target bank inst s).
Proof.
  intros Hinst Hs. unfold addDefEdges.
  apply (foldl_invariant P); [done|].
  intros s1 [[arg role] argType] Harg Hs1.
  destruct (bool_decide (argType ≠ bank)); [done|].
  destruct (isDef role); [|done].
  apply (foldl_invariant P); [done|].
  intros s2 [[otherArg role'] argType'] Hother Hs2.
  destruct (isDef role'); [|done].
  apply P_addEdge; [by eapply Hinst..|done].
Qed.

Lemma addEdges_invariant inst live s :
  (∀ tmp role argType, (tmp, role, argType) ∈ instTmps inst → Q tmp) →
  Forall Q live → P s → P (addEdges target bank inst live s).
Proof.
  intros Hinst Hlive Hs. unfold addEdges.
  apply (foldl_invariant P); [done|].
  intros s1 [[arg role] argType] Harg Hs1.
  destruct (bool_decide (argType = bank) && isDef role); [|done].
  apply (foldl_invariant P); [done|].
  intros s2 liveTmp Hin Hs2.
  destruct (inBank bank liveTmp); [|done].
  apply P_addEdge; [by eapply Hinst| |done].
  by eapply Forall_forall in Hlive.
Qed.

Lemma addMoveEdges_invariant defTmp useTmp live s :
  Q defTmp → Forall Q live → P s → P (addMoveEdges target bank defTmp useTmp live s).
Proof.
  intros Hdef Hlive Hs. unfold addMoveEdges.
  apply (foldl_invariant P); [done|].
  intros s1 liveTmp Hin Hs1.
  destruct (bool_decide (liveTmp ≠ useTmp) && inBank bank liveTmp); [|done].
  apply P_addEdge; [done| |done].
  by eapply Forall_forall in Hlive.
Qed.

Lemma moveDefUse_invariant inst :
  (∀ tmp role argType, (tmp, role, argType) ∈ instTmps inst → Q tmp) →
  Q (moveDefUse inst).1 ∧ Q (moveDefUse inst).2.
Proof.
  intros Hinst. unfold moveDefUse.
  apply (foldl_invariant (λ p : Tmp * Tmp, Q p.1 ∧ Q p.2)); [done|].
  intros [defTmp useTmp] [[argTmp role] argType] Hin [Hd Hu].
  destruct (isDef role); cbn; split; try done; by eapply Hinst.
Qed.

Lemma build_invariant inst live s :
  (∀ tmp role argType, (tmp, role, argType) ∈ instTmps (pointee inst) → Q tmp) →
  Forall Q live → P s → P (build target bank inst live s).
Proof.
  intros Hinst Hlive Hs. unfold build.
  pose proof (addDefEdges_invariant _ _ Hinst Hs) as Hs1.
  destruct (mayBeCoalescable bank (pointee inst)); [|by apply addEdges_invariant].
  destruct (moveDefUse_invariant _ Hinst) as [Hd Hu].
  destruct (moveDefUse (pointee inst)) as [defTmp useTmp].
  apply addMoveEdges_invariant; [done|done|].
  set (s1 := addDefEdges target bank (pointee inst) s) in *.
  assert (∀ l s', P s' → P (foldl (λ s o, addToMoveList bank inst (argTmp (arg o)) s) s' l))
    as Hfold.
  { induction l as [|o l IH]; intros s' Hs'; simpl; [done|].
    apply IH. unfold addToMoveList.
    specialize (P_moves s' (<[absoluteIndex bank (argTmp (arg o)) :=
        HashSet.add inst (moves bank s' (argTmp (arg o)))]> (m_moveList s'))
        (m_worklistMoves s') Hs').
    by destruct s'. }
  specialize (Hfold (args (pointee inst)) s1 Hs1).
  set (s2 := foldl _ _ _) in *.
  specialize (P_moves s2 (m_moveList s2) (HashSet.add inst (m_worklistMoves s2)) Hfold).
  by destruct s2.
Qed.

Lemma buildBlock_invariant live blockIndex block s :
  (∀ instIndex inst, block !! instIndex = Some inst →
     (∀ tmp role argType, (tmp, role, argType) ∈ instTmps inst → Q tmp)
     ∧ Forall Q (live instIndex)) →
  P s → P (buildBlock target bank live blockIndex block s).
Proof.
  intros Hblock Hs. unfold buildBlock.
  apply (foldl_invariant P); [done|].
  intros s1 [instIndex inst] Hin Hs1.
  apply elem_of_reverse, elem_of_lookup_imap in Hin as (i & x & [= -> ->] & Hlook).
  destruct (Hblock _ _ Hlook) as [Hinst Hlive].
  by apply build_invariant.
Qed.

Lemma buildCode_invariant live code :
  (∀ blockIndex block instIndex inst,
     blocks code !! blockIndex = Some block → block !! instIndex = Some inst →
     (∀ tmp role argType, (tmp, role, argType) ∈ instTmps inst → Q tmp)
     ∧ Forall Q (live blockIndex instIndex)) →
  P (newAllocator target bank (numTmps code bank)) →
  P (buildCode target bank live code).
Proof.
  intros Hcode Hs. unfold buildCode.
  apply (foldl_invariant P); [done|].
  intros s1 [blockIndex block] Hin Hs1.
  apply elem_of_lookup_imap in Hin as (i & x & [= -> ->] & Hlook).
  apply buildBlock_invariant; [|done].
  intros instIndex inst Hinst. by eapply Hcode.
Qed.

End BuildInvariant.

(** X5. When [build] is over, the degree of every index from the first
    temporary that is no register on is the length of its adjacency vector,
    as an [unsigned]: [addEdge] appends and increments together, for any
    program and any liveness. *)
Theorem degrees_count_the_neighbours live code :
  degreesMatch target bank (buildCode target bank live code).
Proof.
  apply (buildCode_invariant (degreesMatch target bank) (λ _, True)).
  - intros a b s _ _. apply degreesMatch_addEdge.
  - intros s ml wl Hs. by destruct s.
  - done.
  - intros blockIndex block instIndex inst _ _. split; [done|].
    by apply Forall_forall.
  - apply degreesMatch_newAllocator.
Qed.

(** X6. When [build] is over on a program whose temporaries are values of an
    [int], the adjacency vectors and the edge set hold the same graph: every
    neighbour in a vector is behind an edge of the set, every edge of the set
    is in the vector of each end that is no register, no vector holds a
    temporary twice and no temporary interferes with itself. *)
Theorem build_keeps_graph_consistent live code :
  codeWellFormed live code →
  graphConsistent target bank (buildCode target bank live code).
Proof.
  intros Hcode.
  apply (buildCode_invariant (graphConsistent target bank) isInt).
  - intros a b s. apply graphConsistent_addEdge.
  - intros s ml wl Hs. by destruct s.
  - unfold isInt. lia.
  - intros blockIndex block instIndex inst Hb Hi.
    destruct (Hcode _ _ _ _ Hb Hi) as [Hinst Hlive]. done.
  - apply graphConsistent_newAllocator.
Qed.

End Bank.

Lemma isIntb_isInt v : isIntb v = true → isInt v.
Proof. unfold isIntb, isInt. intros [? ?]%andb_true_iff. lia. Qed.

Lemma instWellFormed_forallb inst :
  forallb (λ x, isIntb x.1.1) (instTmps inst) = true → instWellFormed inst.
Proof.
  intros Hall tmp role argType Hin. apply isIntb_isInt.
  by apply (proj1 (forallb_forall _ _) Hall (tmp, role, argType)), list_elem_of_In.
Qed.

Lemma Forall_isInt_forallb l : forallb isIntb l = true → Forall isInt l.
Proof.
  intros Hall. apply Forall_forall. intros v Hv. apply isIntb_isInt.
  by apply (proj1 (forallb_forall _ _) Hall v), list_elem_of_In.
Qed.

Lemma codeWellFormed_forallb live code :
  forallb (λ '(blockIndex, block),
             forallb (λ '(instIndex, inst),
                        forallb (λ x, isIntb x.1.1) (instTmps inst)
                        && forallb isIntb (live blockIndex instIndex))
                     (imap (λ instIndex inst, (instIndex, inst)) block))
          (imap (λ blockIndex block, (blockIndex, block)) (blocks code)) = true →
  codeWellFormed live code.
Proof.
  intros Hall blockIndex block instIndex inst Hb Hi.
  assert (In (blockIndex, block)
             (imap (λ blockIndex block, (blockIndex, block)) (blocks code))) as Hin1.
  { apply list_elem_of_In, elem_of_lookup_imap. eauto. }
  pose proof (proj1 (forallb_forall _ _) Hall _ Hin1) as Hblock. cbn beta iota in Hblock.
  assert (In (instIndex, inst) (imap (λ instIndex inst, (instIndex, inst)) block)) as Hin2.
  { apply list_elem_of_In, elem_of_lookup_imap. eauto. }
  pose proof (proj1 (forallb_forall _ _) Hblock _ Hin2) as Hinst. cbn beta iota in Hinst.
  apply andb_true_iff in Hinst as [H1 H2].
  split; [by apply instWellFormed_forallb|by apply Forall_isInt_forallb].
Qed.

Lemma build_keeps_graph_consistent_witness :
  codeWellFormed (Examples.blockLiveness Examples.spillingProgram) Examples.spillingProgram
  ∧ graphConsistent Examples.demoTarget FP
      (buildCode Examples.demoTarget FP
         (Examples.blockLiveness Examples.spillingProgram) Examples.spillingProgram).
Proof.
  assert (codeWellFormed (Examples.blockLiveness Examples.spillingProgram)
            Examples.spillingProgram) as Hcode.
  { apply codeWellFormed_forallb. vm_compute. reflexivity. }
  split; [done|]. by apply build_keeps_graph_consistent.
Defined.

End GraphFacts.

(** ** Facts about the seeding of the worklists *)

Module WorklistFacts.
Import IRC Turns HashSetFacts IRCFacts BuildFacts EdgeFacts GraphFacts.

Section Bank.
Variable target : Target.
Variable bank : ArgType.

Local Abbreviation seed := (seedWorkList bank).

Lemma makeWorkList_seedWorkList s :
  makeWorkList target bank s = foldl seed s (seededIndices target bank s).
Proof. reflexivity. Qed.

Lemma seed_frame s i :
  m_degrees (seed s i) = m_degrees s
  ∧ m_moveList (seed s i) = m_moveList s
  ∧ m_numberOfRegisters (seed s i) = m_numberOfRegisters s
  ∧ m_tmpArraySize (seed s i) = m_tmpArraySize s.
Proof.
  unfold seedWorkList. cbv zeta. case_decide; [done|].
  destruct (_ <=? _); [done|]. by destruct (negb _).
Qed.

Lemma seeds_frame l s :
  m_degrees (foldl seed s l) = m_degrees s
  ∧ m_moveList (foldl seed s l) = m_moveList s
  ∧ m_numberOfRegisters (foldl seed s l) = m_numberOfRegisters s
  ∧ m_tmpArraySize (foldl seed s l) = m_tmpArraySize s.
Proof.
  revert s. induction l as [|i l IH]; intros s; [done|].
  cbn [foldl]. destruct (IH (seed s i)) as (-> & -> & -> & ->). apply seed_frame.
Qed.

(** [makeWorkList] writes the three worklists only. *)
Lemma makeWorkList_keeps {X} (field : Allocator → X) s :
  (∀ x s, field (set_simplifyWorklist x s) = field s) →
  (∀ x s, field (set_spillWorklist x s) = field s) →
  (∀ x s, field (set_freezeWorklist x s) = field s) →
  field (makeWorkList target bank s) = field s.
Proof.
  intros Hsimplify Hspill Hfreeze. rewrite makeWorkList_seedWorkList.
  generalize (seededIndices target bank s). intros l. revert s.
  induction l as [|i l IH]; intros s; [done|]. cbn [foldl]. rewrite IH.
  unfold seedWorkList. cbv zeta. case_decide; [done|].
  destruct (_ <=? _); [done|]. by destruct (negb _).
Qed.

Lemma seeds_worklists l s tmp :
  let degree i := default 0 (m_degrees s !! i) in
  let seeded i := i ∈ l ∧ tmp = tmpFromAbsoluteIndex bank i ∧ degree i ≠ 0 in
  (tmp ∈ m_spillWorklist (foldl seed s l)
   ↔ tmp ∈ m_spillWorklist s ∨ ∃ i, seeded i ∧ m_numberOfRegisters s ≤ degree i)
  ∧ (tmp ∈ m_freezeWorklist (foldl seed s l)
     ↔ tmp ∈ m_freezeWorklist s
       ∨ ∃ i, seeded i ∧ degree i < m_numberOfRegisters s ∧ moves bank s tmp ≠ [])
  ∧ (tmp ∈ m_simplifyWorklist (foldl seed s l)
     ↔ tmp ∈ m_simplifyWorklist s
       ∨ ∃ i, seeded i ∧ degree i < m_numberOfRegisters s ∧ moves bank s tmp = []).
Proof.
  cbv zeta. revert s. induction l as [|i l IH]; intros s.
  { cbn [foldl]. split_and!; (split; [by left|]);
      (intros [?|(i & (Hi%elem_of_nil & _) & _)]; done). }
  cbn [foldl]. destruct (IH (seed s i)) as (Hspill & Hfreeze & Hsimplify).
  destruct (seed_frame s i) as (Hd & Hm & Hk & _).
  unfold moves in *. rewrite ?Hd, ?Hm, ?Hk in Hspill, Hfreeze, Hsimplify.
  rewrite Hspill, Hfreeze, Hsimplify. clear Hspill Hfreeze Hsimplify Hd Hm Hk IH.
  assert (∀ P : Z → Prop,
            (∃ j, (j ∈ i :: l ∧ tmp = tmpFromAbsoluteIndex bank j
                   ∧ default 0 (m_degrees s !! j) ≠ 0) ∧ P j)
            ↔ (tmp = tmpFromAbsoluteIndex bank i ∧ default 0 (m_degrees s !! i) ≠ 0 ∧ P i)
              ∨ ∃ j, (j ∈ l ∧ tmp = tmpFromAbsoluteIndex bank j
                      ∧ default 0 (m_degrees s !! j) ≠ 0) ∧ P j) as Hcons.
  { intros P. split.
    - intros (j & (Hj & Ht & Hdeg) & HP). apply elem_of_cons in Hj as [->|Hj]; [by left|].
      right. eauto 6.
    - intros [(Ht & Hdeg & HP)|(j & (Hj & Ht & Hdeg) & HP)].
      + exists i. split_and!; [left|done..].
      + exists j. split_and!; [by right|done..]. }
  rewrite !Hcons. clear Hcons.
  unfold seedWorkList. cbv zeta. case_decide as Hzero.
  { split_and!; split; try tauto; intros [?|[(_ & ? & _)|?]]; tauto. }
  destruct (m_numberOfRegisters s <=? default 0 (m_degrees s !! i)) eqn:Hhigh.
  { apply Z.leb_le in Hhigh.
    cbn [m_spillWorklist m_freezeWorklist m_simplifyWorklist set_spillWorklist].
    rewrite elem_of_add. split_and!; split; intuition (subst; try done; try lia). }
  apply Z.leb_gt in Hhigh.
  destruct (bool_decide _) eqn:Hmoves; cbn [negb].
  - apply bool_decide_eq_true in Hmoves.
    cbn [m_spillWorklist m_freezeWorklist m_simplifyWorklist set_simplifyWorklist].
    rewrite elem_of_app, list_elem_of_singleton.
    split_and!; split; intuition (subst; try done; try lia).
  - apply bool_decide_eq_false in Hmoves.
    cbn [m_spillWorklist m_freezeWorklist m_simplifyWorklist set_freezeWorklist].
    rewrite elem_of_add.
    split_and!; split; intuition (subst; try done; try lia).
Qed.

Lemma seeds_NoDup l s :
  NoDup l → (∀ i, i ∈ l → 0 ≤ i < 2 ^ 32) →
  m_simplifyWorklist s = [] → m_freezeWorklist s = [] → m_spillWorklist s = [] →
  NoDup (m_simplifyWorklist (foldl seed s l))
  ∧ NoDup (m_freezeWorklist (foldl seed s l))
  ∧ NoDup (m_spillWorklist (foldl seed s l)).
Proof.
  intros Hl Hrange Hsimplify Hfreeze Hspill.
  induction l as [|i l IH] using rev_ind.
  { cbn [foldl]. rewrite Hsimplify, Hfreeze, Hspill. split_and!; constructor. }
  apply NoDup_app in Hl as (Hl & Hi & _).
  destruct IH as (IH1 & IH2 & IH3); [done|intros j Hj; apply Hrange, elem_of_app; by left|].
  rewrite foldl_snoc.
  pose proof (seeds_worklists l s (tmpFromAbsoluteIndex bank i)) as (_ & _ & Hin).
  cbv zeta in Hin. rewrite Hsimplify in Hin.
  set (s1 := foldl seed s l) in *.
  unfold seedWorkList. cbv zeta. case_decide; [done|].
  destruct (_ <=? _); [split_and!; try done; by apply add_NoDup|].
  destruct (negb _); [split_and!; try done; by apply add_NoDup|].
  split_and!; try done. cbn [m_simplifyWorklist set_simplifyWorklist].
  apply NoDup_app. split_and!; [done| |apply NoDup_singleton].
  intros tmp Htmp ->%list_elem_of_singleton.
  apply Hin in Htmp as [Htmp%elem_of_nil|(j & (Hj & Heq & _) & _)]; [done|].
  apply (f_equal (absoluteIndex bank)) in Heq.
  rewrite !absoluteIndex_tmpFromAbsoluteIndex in Heq.
  - subst j. apply (Hi i); [done|]. by apply list_elem_of_singleton.
  - apply Hrange, elem_of_app. by left.
  - apply Hrange, elem_of_app. right. by apply list_elem_of_singleton.
Qed.

Lemma seededIndices_range s i :
  i ∈ seededIndices target bank s → 0 ≤ i ∧ absoluteIndexOfIndex target bank 0 ≤ i < m_tmpArraySize s.
Proof.
  unfold seededIndices. cbv zeta. rewrite elem_of_seqZ. intros Hi.
  assert (0 ≤ absoluteIndexOfIndex target bank 0); [|lia].
  unfold absoluteIndexOfIndex, absoluteIndex. destruct bank; apply toUnsigned_range.
Qed.

(** X7. [makeWorkList] adds the temporary of an index to a worklist exactly
    when the index is one of a temporary that is no register, below the size
    of the degree vector, and its degree is not zero: to the spill worklist
    for a degree of [K] or more, else to the freeze worklist when its move
    list is not empty, else to the simplify worklist.  A temporary without a
    neighbour is put on no worklist. *)
Theorem makeWorkList_seeds (s : Allocator) (tmp : Tmp) :
  let degree i := default 0 (m_degrees s !! i) in
  let seeded i := absoluteIndexOfIndex target bank 0 ≤ i < m_tmpArraySize s
                  ∧ tmp = tmpFromAbsoluteIndex bank i ∧ degree i ≠ 0 in
  let s' := makeWorkList target bank s in
  (tmp ∈ m_spillWorklist s'
   ↔ tmp ∈ m_spillWorklist s ∨ ∃ i, seeded i ∧ m_numberOfRegisters s ≤ degree i)
  ∧ (tmp ∈ m_freezeWorklist s'
     ↔ tmp ∈ m_freezeWorklist s
       ∨ ∃ i, seeded i ∧ degree i < m_numberOfRegisters s ∧ moves bank s tmp ≠ [])
  ∧ (tmp ∈ m_simplifyWorklist s'
     ↔ tmp ∈ m_simplifyWorklist s
       ∨ ∃ i, seeded i ∧ degree i < m_numberOfRegisters s ∧ moves bank s tmp = []).
Proof.
  cbv zeta. rewrite makeWorkList_seedWorkList.
  pose proof (seeds_worklists (seededIndices target bank s) s tmp) as Hseeds.
  cbv zeta in Hseeds. destruct Hseeds as (-> & -> & ->).
  assert (∀ i, i ∈ seededIndices target bank s
               ↔ absoluteIndexOfIndex target bank 0 ≤ i < m_tmpArraySize s) as Hin.
  { intros i. unfold seededIndices. cbv zeta. rewrite elem_of_seqZ. lia. }
  split_and!; (split; (intros [?|(i & (Hi & ?) & ?)]; [by left|]);
               right; exists i; apply Hin in Hi; done).
Qed.

(** X8. On an allocator whose worklists are still empty and whose degree
    vector has a size that an [unsigned] holds, [makeWorkList] puts no
    temporary on a worklist twice and none on two worklists. *)
Theorem makeWorkList_partitions (s : Allocator) :
  m_simplifyWorklist s = [] → m_freezeWorklist s = [] → m_spillWorklist s = [] →
  m_tmpArraySize s ≤ 2 ^ 32 →
  let s' := makeWorkList target bank s in
  NoDup (m_simplifyWorklist s' ++ m_freezeWorklist s' ++ m_spillWorklist s').
Proof.
  intros Hsimplify Hfreeze Hspill Hsize. cbv zeta.
  rewrite makeWorkList_seedWorkList.
  assert (∀ i, i ∈ seededIndices target bank s → 0 ≤ i < 2 ^ 32) as Hrange.
  { intros i Hi%seededIndices_range. lia. }
  destruct (seeds_NoDup (seededIndices target bank s) s) as (H1 & H2 & H3);
    [apply NoDup_seqZ|done..|].
  assert (∀ i j, i ∈ seededIndices target bank s → j ∈ seededIndices target bank s →
                 tmpFromAbsoluteIndex bank i = tmpFromAbsoluteIndex bank j → i = j) as Hinj.
  { intros i j Hi Hj Heq. apply (f_equal (absoluteIndex bank)) in Heq.
    by rewrite !absoluteIndex_tmpFromAbsoluteIndex in Heq by by apply Hrange. }
  apply NoDup_app. split_and!; [done| |apply NoDup_app; split_and!; [done| |done]].
  - intros tmp Hin1 Hin2.
    pose proof (seeds_worklists (seededIndices target bank s) s tmp) as Hseeds.
    cbv zeta in Hseeds. destruct Hseeds as (Hs1 & Hs2 & Hs3).
    rewrite Hspill in Hs1. rewrite Hfreeze in Hs2. rewrite Hsimplify in Hs3.
    apply Hs3 in Hin1 as [?%elem_of_nil|(i & (Hi & Hti & _) & Hlow & Hmoves)]; [done|].
    apply elem_of_app in Hin2 as [Hin2|Hin2].
    + apply Hs2 in Hin2 as [?%elem_of_nil|(j & _ & _ & Hne)]; done.
    + apply Hs1 in Hin2 as [?%elem_of_nil|(j & (Hj & Htj & _) & Hhigh)]; [done|].
      assert (i = j) as -> by (apply Hinj; congruence). lia.
  - intros tmp Hin1 Hin2.
    pose proof (seeds_worklists (seededIndices target bank s) s tmp) as Hseeds.
    cbv zeta in Hseeds. destruct Hseeds as (Hs1 & Hs2 & Hs3).
    rewrite Hspill in Hs1. rewrite Hfreeze in Hs2.
    apply Hs2 in Hin1 as [?%elem_of_nil|(i & (Hi & Hti & _) & Hlow & Hmoves)]; [done|].
    apply Hs1 in Hin2 as [?%elem_of_nil|(j & (Hj & Htj & _) & Hhigh)]; [done|].
    assert (i = j) as -> by (apply Hinj; congruence). lia.
Qed.

End Bank.

Lemma makeWorkList_partitions_witness :
  m_tmpArraySize (Driver.buildCode Examples.demoTarget GP
                    (Examples.blockLiveness Examples.freezeProgram) Examples.freezeProgram)
  ≤ 2 ^ 32
  ∧ NoDup (m_simplifyWorklist (Examples.graphOf GP Examples.freezeProgram)
           ++ m_freezeWorklist (Examples.graphOf GP Examples.freezeProgram)
           ++ m_spillWorklist (Examples.graphOf GP Examples.freezeProgram)).
Proof.
  split; [by vm_compute|].
  apply (makeWorkList_partitions Examples.demoTarget GP
           (Driver.buildCode Examples.demoTarget GP
              (Examples.blockLiveness Examples.freezeProgram) Examples.freezeProgram));
    by vm_compute.
Defined.

End WorklistFacts.

(** ** What the main loop leaves alone, and the select stack *)

Module LoopFacts.
Import IRC Turns GraphInvariant HashSetFacts IRCFacts BuildFacts EdgeFacts GraphFacts.

Section Bank.
Variable target : Target.
Variable bank : ArgType.

(** A field that none of the setters of the main loop but the two of
    [simplify] writes is kept by every operation of the loop. *)
Section Untouched.
Context {X : Type} (field : Allocator → X).
Hypothesis field_interferenceEdges : ∀ x s, field (set_interferenceEdges x s) = field s.
Hypothesis field_adjacencyList : ∀ x s, field (set_adjacencyList x s) = field s.
Hypothesis field_degrees : ∀ x s, field (set_degrees x s) = field s.
Hypothesis field_moveList : ∀ x s, field (set_moveList x s) = field s.
Hypothesis field_coalescedTmps : ∀ x s, field (set_coalescedTmps x s) = field s.
Hypothesis field_worklistMoves : ∀ x s, field (set_worklistMoves x s) = field s.
Hypothesis field_activeMoves : ∀ x s, field (set_activeMoves x s) = field s.
Hypothesis field_simplifyWorklist : ∀ x s, field (set_simplifyWorklist x s) = field s.
Hypothesis field_spillWorklist : ∀ x s, field (set_spillWorklist x s) = field s.
Hypothesis field_freezeWorklist : ∀ x s, field (set_freezeWorklist x s) = field s.

Local Ltac untouched :=
  repeat first
    [ rewrite field_interferenceEdges | rewrite field_adjacencyList
    | rewrite field_degrees | rewrite field_moveList
    | rewrite field_coalescedTmps | rewrite field_worklistMoves
    | rewrite field_activeMoves | rewrite field_simplifyWorklist
    | rewrite field_spillWorklist | rewrite field_freezeWorklist ].

Lemma untouched_addEdge a b : keeps field (addEdge target bank a b).
Proof.
  intros s. unfold addEdge, appendAdjacent. cbv zeta.
  repeat case_match; untouched; done.
Qed.

Lemma untouched_enableMovesOnValue tmp : keeps field (enableMovesOnValue bank tmp).
Proof.
  intros s. unfold enableMovesOnValue. generalize (moves bank s tmp). intros l.
  revert s. induction l as [|x l IH]; intros s; simpl; [done|].
  rewrite IH. case_match; untouched; done.
Qed.

Lemma untouched_enableMovesOnValueAndAdjacents tmp :
  keeps field (enableMovesOnValueAndAdjacents bank tmp).
Proof.
  intros s. unfold enableMovesOnValueAndAdjacents.
  rewrite (keeps_forEachAdjacent bank field); [apply untouched_enableMovesOnValue|].
  intros t. apply untouched_enableMovesOnValue.
Qed.

Lemma untouched_decrementDegree tmp : keeps field (decrementDegree bank tmp).
Proof.
  intros s. unfold decrementDegree. cbv zeta.
  repeat case_match; untouched; rewrite ?untouched_enableMovesOnValueAndAdjacents;
    untouched; done.
Qed.

Lemma untouched_addWorkList tmp : keeps field (addWorkList target bank tmp).
Proof. intros s. unfold addWorkList. case_match; untouched; done. Qed.

Lemma untouched_combine u v : keeps field (combine target bank u v).
Proof.
  intros s. unfold combine. cbv zeta.
  case_match; untouched.
  all: rewrite (keeps_forEachAdjacent bank field);
    [|intros t s'; by rewrite untouched_decrementDegree, untouched_addEdge].
  all: untouched; by case_match; untouched.
Qed.

Lemma untouched_freezeMoves tmp : keeps field (freezeMoves bank tmp).
Proof.
  apply keeps_forEachNodeMoves. intros inst s. cbv beta zeta.
  repeat case_match; untouched; done.
Qed.

Lemma untouched_freeze : keeps field (freeze bank).
Proof.
  intros s. unfold freeze. case_match; [done|].
  rewrite untouched_freezeMoves. untouched. done.
Qed.

Lemma untouched_selectSpill : keeps field (selectSpill bank).
Proof.
  intros s. unfold selectSpill. case_match; [done|]. cbv zeta.
  rewrite untouched_freezeMoves. untouched. done.
Qed.

Lemma untouched_coalesce s s' :
  coalesce target bank s = Some s' → field s' = field s.
Proof.
  unfold coalesce, coalesceTraced. destruct (HashSet.takeLast _) as [[moveInst rest]|].
  2: { by intros [= <-]. }
  cbv zeta. destruct (coalesceOperands _ _ _ _) as [[u v]|]; [|done]. cbn.
  repeat case_match; intros [= <-];
    rewrite ?untouched_addWorkList, ?untouched_combine; untouched; done.
Qed.

Lemma untouched_step s s' :
  (∀ x s, field (set_selectStack x s) = field s) →
  (∀ x s, field (set_isOnSelectStack x s) = field s) →
  step target bank s = Some s' → field s' = field s.
Proof.
  intros field_selectStack field_isOnSelectStack. unfold step. repeat case_match.
  - intros [= <-]. unfold simplify. case_match; [|done]. case_match. cbv zeta.
    rewrite (keeps_forEachAdjacent bank field); [|apply untouched_decrementDegree].
    rewrite field_isOnSelectStack, field_selectStack. untouched. done.
  - apply untouched_coalesce.
  - intros [= <-]. apply untouched_freeze.
  - intros [= <-]. apply untouched_selectSpill.
  - by intros [= <-].
Qed.

Lemma untouched_mainLoop fuel s s' :
  (∀ x s, field (set_selectStack x s) = field s) →
  (∀ x s, field (set_isOnSelectStack x s) = field s) →
  mainLoop target bank fuel s = Some s' → field s' = field s.
Proof.
  intros field_selectStack field_isOnSelectStack. revert s.
  induction fuel as [|fuel IH]; intros s; [done|]. cbn [mainLoop].
  destruct (step target bank s) as [s1|] eqn:Hstep; [|done]. cbn.
  apply untouched_step in Hstep; [|done..].
  destruct (worklistsEmpty s1).
  - intros [= <-]. done.
  - intros Hloop. apply IH in Hloop. congruence.
Qed.

End Untouched.

(** What one turn of the loop of [allocate] does to the select stack. *)
Lemma step_selectStack s s' :
  step target bank s = Some s' →
  m_selectStack s'
  = m_selectStack s ++ option_list (last (m_simplifyWorklist s))
  ∧ ∀ i, i ∈ m_isOnSelectStack s'
         ↔ i ∈ m_isOnSelectStack s
           ∨ ∃ t, last (m_simplifyWorklist s) = Some t ∧ absoluteIndex bank t = i.
Proof.
  unfold step. destruct (m_simplifyWorklist s) as [|t l] eqn:Hwl.
  - rewrite bool_decide_eq_true_2 by done. cbn [negb last option_list].
    rewrite app_nil_r.
    assert (∀ s1 : Allocator,
              m_selectStack s1 = m_selectStack s →
              m_isOnSelectStack s1 = m_isOnSelectStack s →
              m_selectStack s1 = m_selectStack s
              ∧ ∀ i, i ∈ m_isOnSelectStack s1
                     ↔ i ∈ m_isOnSelectStack s
                       ∨ ∃ t, None = Some t ∧ absoluteIndex bank t = i) as Hsame.
    { intros s1 H1 H2. split; [done|]. intros i. rewrite H2. split; [by left|].
      by intros [?|(? & ? & _)]. }
    repeat case_match.
    + intros Hc. apply Hsame.
      * by apply (untouched_coalesce m_selectStack) in Hc.
      * by apply (untouched_coalesce m_isOnSelectStack) in Hc.
    + intros [= <-]. apply Hsame; by rewrite untouched_freeze.
    + intros [= <-]. apply Hsame; by rewrite untouched_selectSpill.
    + intros [= <-]. by apply Hsame.
  - rewrite bool_decide_eq_false_2 by done. cbn [negb]. intros [= <-].
    unfold simplify, HashSet.takeLast. rewrite Hwl.
    destruct (last (t :: l)) as [x|] eqn:Hlast.
    2: { by apply last_None in Hlast. }
    cbv zeta. split.
    + rewrite (keeps_forEachAdjacent bank m_selectStack);
        [done|intros a; by apply untouched_decrementDegree].
    + rewrite (keeps_forEachAdjacent bank m_isOnSelectStack);
        [|intros a; by apply untouched_decrementDegree].
      intros i. cbn [m_isOnSelectStack set_isOnSelectStack].
      rewrite elem_of_union, elem_of_singleton. split.
      * intros [->|?]; [right; by exists x|by left].
      * intros [?|(t' & [= <-] & <-)]; [by right|by left].
Qed.


Lemma mainLoop_worklistsEmpty fuel s s' :
  mainLoop target bank fuel s = Some s' → worklistsEmpty s' = true.
Proof.
  revert s. induction fuel as [|fuel IH]; intros s; [done|]. cbn [mainLoop].
  destruct (step target bank s) as [s1|]; [|done]. cbn.
  destruct (worklistsEmpty s1) eqn:Hempty; [by intros [= <-]|apply IH].
Qed.

(** X10. When the loop of [allocate] is over, the four worklists are empty;
    the loop has written no register and spilled nothing, has left the number
    [K] of registers and the size of the vectors as they were, and has only
    pushed on the select stack, whose bit vector it has kept in step. *)
Theorem mainLoop_ends_with_empty_worklists (fuel : nat) (s s' : Allocator) :
  mainLoop target bank fuel s = Some s' →
  worklistsEmpty s' = true
  ∧ m_coloredTmp s' = m_coloredTmp s
  ∧ m_spilledTmp s' = m_spilledTmp s
  ∧ m_numberOfRegisters s' = m_numberOfRegisters s
  ∧ m_tmpArraySize s' = m_tmpArraySize s
  ∧ m_selectStack s `prefix_of` m_selectStack s'
  ∧ (stackMatches bank s → stackMatches bank s').
Proof.
  intros Hloop. split_and!.
  - by eapply mainLoop_worklistsEmpty.
  - by apply (untouched_mainLoop m_coloredTmp) in Hloop.
  - by apply (untouched_mainLoop m_spilledTmp) in Hloop.
  - by apply (untouched_mainLoop m_numberOfRegisters) in Hloop.
  - by apply (untouched_mainLoop m_tmpArraySize) in Hloop.
  - revert s Hloop. induction fuel as [|fuel IH]; intros s; [done|]. cbn [mainLoop].
    destruct (step target bank s) as [s1|] eqn:Hstep; [|done]. cbn.
    apply step_selectStack in Hstep as [Hstack _].
    assert (m_selectStack s `prefix_of` m_selectStack s1) as Hprefix.
    { rewrite Hstack. by apply prefix_app_r. }
    destruct (worklistsEmpty s1); [by intros [= <-]|].
    intros Hloop. etrans; [done|by apply IH].
  - revert s Hloop. induction fuel as [|fuel IH]; intros s; [done|]. cbn [mainLoop].
    destruct (step target bank s) as [s1|] eqn:Hstep; [|done]. cbn.
    intros Hloop Hs.
    assert (stackMatches bank s1) as Hs1.
    { intros i. apply step_selectStack in Hstep as [Hstack Hbits].
      rewrite Hbits, Hstack, (Hs i). setoid_rewrite elem_of_app. split.
      - intros [(tmp & Hin & <-)|(tmp & Hlast & <-)]; exists tmp; [auto|].
        split; [|done]. right. rewrite Hlast. by apply list_elem_of_singleton.
      - intros (tmp & [Hin|Hin] & <-); [left; by exists tmp|right].
        exists tmp. split; [|done]. destruct (last _); [|by apply elem_of_nil in Hin].
        by apply list_elem_of_singleton in Hin as ->. }
    destruct (worklistsEmpty s1); [by injection Hloop as <-|by eapply IH].
Qed.

End Bank.



Lemma mainLoop_ends_with_empty_worklists_witness :
  ∃ s',
    mainLoop Examples.demoTarget GP 20 (Examples.graphOf GP Examples.freezeProgram)
    = Some s'
    ∧ worklistsEmpty s' = true
    ∧ m_selectStack (Examples.graphOf GP Examples.freezeProgram) `prefix_of` m_selectStack s'.
Proof.
  assert (∃ s', mainLoop Examples.demoTarget GP 20
                  (Examples.graphOf GP Examples.freezeProgram) = Some s') as [s' Hs'].
  { eexists. vm_compute. reflexivity. }
  exists s'. split; [exact Hs'|].
  destruct (mainLoop_ends_with_empty_worklists Examples.demoTarget GP 20 _ _ Hs')
    as (Hempty & _ & _ & _ & _ & Hprefix & _).
  split; [exact Hempty|exact Hprefix].
Defined.

End LoopFacts.

(** ** Facts about the coloring *)

Module ColorFacts.
Import IRC Turns GraphInvariant HashSetFacts IRCFacts BuildFacts EdgeFacts GraphFacts.

Lemma filter_head_inv {A} (P : A → Prop) `{!∀ x, Decision (P x)} (l : list A) x rest :
  filter P l = x :: rest →
  ∃ before after, l = before ++ x :: after ∧ Forall (λ y, ¬ P y) before ∧ P x.
Proof.
  induction l as [|y l IH]; [done|]. rewrite filter_cons. case_decide as Hy.
  - intros [= -> <-]. exists [], l. by split_and!.
  - intros (before & after & -> & Hall & Hx)%IH.
    exists (y :: before), after. split_and!; [done|by constructor|done].
Qed.

Lemma filter_nil_inv {A} (P : A → Prop) `{!∀ x, Decision (P x)} (l : list A) :
  filter P l = [] → Forall (λ y, ¬ P y) l.
Proof.
  induction l as [|y l IH]; [by constructor|]. rewrite filter_cons. case_decide; [done|].
  intros Hl. constructor; [done|by apply IH].
Qed.

Section Bank.
Variable target : Target.
Variable bank : ArgType.

(** The register set that the loop over the neighbours fills. *)
Lemma coloredRegisters_spec s adjacents set result :
  coloredRegisters target bank s adjacents set = Some result →
  ∀ reg, reg ∈ result
         ↔ reg ∈ set
           ∨ ∃ adjacentTmp aliasTmp,
               adjacentTmp ∈ adjacents
               ∧ getAlias bank s adjacentTmp = Some aliasTmp
               ∧ if isReg target aliasTmp then reg = aliasTmp
                 else reg = coloredTmp bank s aliasTmp ∧ reg ≠ 0.
Proof.
  revert set. induction adjacents as [|adjacentTmp adjacents IH]; intros set.
  { intros [= <-] reg. split; [by left|]. by intros [?|(? & ? & ?%elem_of_nil & _)]. }
  cbn [coloredRegisters]. destruct (getAlias bank s adjacentTmp) as [aliasTmp|] eqn:Halias;
    [|done]. cbn.
  assert (∀ reg,
    (∃ a al, a ∈ adjacentTmp :: adjacents ∧ getAlias bank s a = Some al
             ∧ if isReg target al then reg = al
               else reg = coloredTmp bank s al ∧ reg ≠ 0)
    ↔ (if isReg target aliasTmp then reg = aliasTmp
       else reg = coloredTmp bank s aliasTmp ∧ reg ≠ 0)
      ∨ ∃ a al, a ∈ adjacents ∧ getAlias bank s a = Some al
                ∧ if isReg target al then reg = al
                  else reg = coloredTmp bank s al ∧ reg ≠ 0) as Hcons.
  { intros reg. split.
    - intros (a & al & [->|Hin]%elem_of_cons & Hal & Hreg).
      + left. rewrite Halias in Hal. by injection Hal as <-.
      + right. eauto.
    - intros [Hreg|(a & al & Hin & Hal & Hreg)].
      + exists adjacentTmp, aliasTmp. split_and!; [left|done..].
      + exists a, al. split_and!; [by right|done..]. }
  destruct (isReg target aliasTmp) eqn:Hisreg.
  - intros Hrest reg. rewrite (IH _ Hrest reg), elem_of_add, Hcons. tauto.
  - case_decide as Hzero.
    + intros Hrest reg. rewrite (IH _ Hrest reg), Hcons. split; [tauto|].
      intros [?|[[? ?]|?]]; [tauto|congruence|tauto].
    + intros Hrest reg. rewrite (IH _ Hrest reg), elem_of_add, Hcons. split.
      * intros [[->|?]|?]; tauto.
      * intros [?|[[-> ?]|?]]; tauto.
Qed.

(** The two ways out of one turn of the loop of [assignColors], on the
    register set [result] of the neighbours. *)
Lemma assignColor_inv tmp s s' :
  assignColor target bank tmp s = Some s' →
  ∃ result,
    coloredRegisters target bank s (adjacency bank s tmp) [] = Some result
    ∧ ((∃ before reg after,
          regsInPriorityOrder target bank = before ++ reg :: after
          ∧ Forall (λ r, r ∈ result) before
          ∧ (reg ∉ result)
          ∧ s' = set_coloredTmp (<[absoluteIndex bank tmp := reg]> (m_coloredTmp s)) s)
       ∨ (Forall (λ r, r ∈ result) (regsInPriorityOrder target bank)
          ∧ s' = set_spilledTmp (HashSet.add tmp (m_spilledTmp s)) s)).
Proof.
  unfold assignColor.
  destruct (coloredRegisters target bank s (adjacency bank s tmp) []) as [result|] eqn:Hres;
    [|done]. cbn.
  intros Hs'. exists result. split; [done|].
  destruct (filter _ _) as [|reg rest] eqn:Hfilter; injection Hs' as <-.
  - right. split; [|done].
    apply filter_nil_inv in Hfilter. eapply Forall_impl; [done|].
    intros reg Hreg. by destruct (decide (reg ∈ result)).
  - left. apply filter_head_inv in Hfilter as (before & after & Hregs & Hbefore & Hreg).
    exists before, reg, after. split_and!; [done| |done..].
    eapply Forall_impl; [done|]. intros r Hr. by destruct (decide (r ∈ result)).
Qed.

Lemma coloredRegisters_forbidden s tmp result :
  coloredRegisters target bank s (adjacency bank s tmp) [] = Some result →
  ∀ reg, reg ∈ result ↔ forbidden target bank s tmp reg.
Proof.
  intros Hres reg. rewrite (coloredRegisters_spec _ _ _ _ Hres reg).
  unfold forbidden. split; [|by right]. by intros [?%elem_of_nil|?].
Qed.

(** X11. One turn of the loop of [assignColors] gives the popped temporary
    the first register of the priority order that no neighbour forbids, and
    spills nothing; when the neighbours forbid every register of the order,
    it adds the temporary to the spilled set and writes no register. *)
Theorem assignColor_takes_first_free_register (tmp : Tmp) (s s' : Allocator) :
  assignColor target bank tmp s = Some s' →
  (∃ before reg after,
     regsInPriorityOrder target bank = before ++ reg :: after
     ∧ Forall (forbidden target bank s tmp) before
     ∧ ¬ forbidden target bank s tmp reg
     ∧ m_coloredTmp s' = <[absoluteIndex bank tmp := reg]> (m_coloredTmp s)
     ∧ m_spilledTmp s' = m_spilledTmp s)
  ∨ (Forall (forbidden target bank s tmp) (regsInPriorityOrder target bank)
     ∧ m_coloredTmp s' = m_coloredTmp s
     ∧ m_spilledTmp s' = HashSet.add tmp (m_spilledTmp s)).
Proof.
  intros (result & Hres & Hcases)%assignColor_inv.
  pose proof (coloredRegisters_forbidden _ _ _ Hres) as Hforbidden.
  destruct Hcases as [(before & reg & after & Hregs & Hbefore & Hreg & ->)|[Hall ->]].
  - left. exists before, reg, after. split_and!; [done| | |done..].
    + eapply Forall_impl; [done|]. intros r Hr. by apply Hforbidden.
    + by rewrite <- Hforbidden.
  - right. split_and!; [|done..].
    eapply Forall_impl; [done|]. intros r Hr. by apply Hforbidden.
Qed.

(** The loop of [assignColors] writes two fields only. *)
Lemma colorSelectStack_keeps {X} (field : Allocator → X) stack s s' :
  (∀ x s, field (set_coloredTmp x s) = field s) →
  (∀ x s, field (set_spilledTmp x s) = field s) →
  colorSelectStack target bank stack s = Some s' → field s' = field s.
Proof.
  intros Hcolored Hspilled. revert s. induction stack as [|tmp stack IH]; intros s.
  { by intros [= <-]. }
  cbn [colorSelectStack]. destruct (assignColor target bank tmp s) as [s1|] eqn:Hturn; [|done].
  cbn. intros ->%IH.
  apply assignColor_inv in Hturn as (result & _ & Hcases).
  by destruct Hcases as [(before & reg & after & _ & _ & _ & ->)|[_ ->]].
Qed.

(** What the loop of [assignColors] writes in them. *)
Lemma colorSelectStack_writes stack s s' :
  colorSelectStack target bank stack s = Some s' →
  (∀ tmp, tmp ∈ m_spilledTmp s → tmp ∈ m_spilledTmp s')
  ∧ (∀ tmp, tmp ∈ m_spilledTmp s' → tmp ∈ m_spilledTmp s ∨ tmp ∈ stack)
  ∧ (∀ i reg, m_coloredTmp s' !! i = Some reg →
       m_coloredTmp s !! i = Some reg
       ∨ (reg ∈ regsInPriorityOrder target bank
          ∧ ∃ tmp, tmp ∈ stack ∧ i = absoluteIndex bank tmp)).
Proof.
  revert s. induction stack as [|tmp stack IH]; intros s.
  { intros [= <-]. split_and!; [done|by left|by left]. }
  cbn [colorSelectStack]. destruct (assignColor target bank tmp s) as [s1|] eqn:Hturn; [|done].
  cbn. intros (Hmono & Hsp & Hcol)%IH.
  apply assignColor_inv in Hturn as (result & _ & Hcases).
  destruct Hcases as [(before & reg & after & Hregs & _ & _ & ->)|[_ ->]].
  - cbn in Hmono, Hsp, Hcol. split_and!; [done| |].
    + intros t [?|?]%Hsp; [by left|right; by right].
    + intros i r [Hold|(Hr & t & Ht & ->)]%Hcol.
      * rewrite lookup_insert in Hold. case_decide as Hi; [|by left].
        injection Hold as <-. right. split.
        { rewrite Hregs. apply elem_of_app. right. left. }
        exists tmp. split; [left|done].
      * right. split; [done|]. exists t. split; [by right|done].
  - cbn in Hmono, Hsp, Hcol. split_and!.
    + intros t Ht. apply Hmono, elem_of_add. by right.
    + intros t [[->|?]%elem_of_add|?]%Hsp; [right; left|by left|right; by right].
    + intros i r [Hold|(Hr & t & Ht & ->)]%Hcol; [by left|].
      right. split; [done|]. exists t. split; [by right|done].
Qed.

(** X12. [assignColors] empties the select stack and the structures that
    the coloring does not read, and leaves the adjacency vectors and the
    alias map alone; the temporaries that it spills are temporaries of the
    select stack; and every register that it writes is one of the priority
    order, written at the index of a temporary of the select stack. *)
Theorem assignColors_writes_for_the_stack (s s' : Allocator) :
  assignColors target bank s = Some s' →
  m_selectStack s' = []
  ∧ m_interferenceEdges s' = ∅ ∧ m_degrees s' = ∅ ∧ m_moveList s' = ∅
  ∧ m_adjacencyList s' = m_adjacencyList s
  ∧ m_coalescedTmps s' = m_coalescedTmps s
  ∧ (∀ tmp, tmp ∈ m_spilledTmp s' → tmp ∈ m_spilledTmp s ∨ tmp ∈ m_selectStack s)
  ∧ (∀ i reg, m_coloredTmp s' !! i = Some reg →
       m_coloredTmp s !! i = Some reg
       ∨ (reg ∈ regsInPriorityOrder target bank
          ∧ ∃ tmp, tmp ∈ m_selectStack s ∧ i = absoluteIndex bank tmp)).
Proof.
  unfold assignColors. cbv zeta.
  destruct (colorSelectStack _ _ _ _) as [s1|] eqn:Hloop; [|done]. cbn.
  intros [= <-].
  pose proof (colorSelectStack_writes _ _ _ Hloop) as (_ & Hsp & Hcol).
  assert (m_interferenceEdges s1 = ∅) as Hedges.
  { by rewrite (colorSelectStack_keeps m_interferenceEdges _ _ _
                  (λ _ _, eq_refl) (λ _ _, eq_refl) Hloop). }
  assert (m_degrees s1 = ∅) as Hdeg.
  { by rewrite (colorSelectStack_keeps m_degrees _ _ _
                  (λ _ _, eq_refl) (λ _ _, eq_refl) Hloop). }
  assert (m_moveList s1 = ∅) as Hmoves.
  { by rewrite (colorSelectStack_keeps m_moveList _ _ _
                  (λ _ _, eq_refl) (λ _ _, eq_refl) Hloop). }
  assert (m_adjacencyList s1 = m_adjacencyList s) as Hadj.
  { by rewrite (colorSelectStack_keeps m_adjacencyList _ _ _
                  (λ _ _, eq_refl) (λ _ _, eq_refl) Hloop). }
  assert (m_coalescedTmps s1 = m_coalescedTmps s) as Hco.
  { by rewrite (colorSelectStack_keeps m_coalescedTmps _ _ _
                  (λ _ _, eq_refl) (λ _ _, eq_refl) Hloop). }
  assert (∀ tmp, tmp ∈ m_spilledTmp s1 → tmp ∈ m_spilledTmp s ∨ tmp ∈ m_selectStack s)
    as Hsp'.
  { intros tmp [Hin|Hin]%Hsp; [left; exact Hin|right].
    rewrite elem_of_reverse in Hin. exact Hin. }
  assert (∀ i reg, m_coloredTmp s1 !! i = Some reg →
            m_coloredTmp s !! i = Some reg
            ∨ (reg ∈ regsInPriorityOrder target bank
               ∧ ∃ tmp, tmp ∈ m_selectStack s ∧ i = absoluteIndex bank tmp)) as Hcol'.
  { intros i reg [Hin|(Hr & tmp & Hin & ->)]%Hcol; [left; exact Hin|right].
    split; [done|]. exists tmp. split; [|done].
    rewrite elem_of_reverse in Hin. exact Hin. }
  case_bool_decide; cbn; split_and!; done.
Qed.

End Bank.

Lemma assignColor_takes_first_free_register_witness :
  ∃ s' before reg after,
    assignColor Examples.demoTarget GP 4 (Examples.graphOf GP Examples.freezeProgram)
    = Some s'
    ∧ regsInPriorityOrder Examples.demoTarget GP = before ++ reg :: after
    ∧ Forall (forbidden Examples.demoTarget GP
                (Examples.graphOf GP Examples.freezeProgram) 4) before
    ∧ ¬ forbidden Examples.demoTarget GP (Examples.graphOf GP Examples.freezeProgram) 4 reg
    ∧ m_coloredTmp s'
      = <[absoluteIndex GP 4 := reg]>
          (m_coloredTmp (Examples.graphOf GP Examples.freezeProgram)).
Proof.
  assert (∃ s', assignColor Examples.demoTarget GP 4
                  (Examples.graphOf GP Examples.freezeProgram) = Some s'
                ∧ m_spilledTmp s' = []) as (s' & Hs' & Hspilled).
  { eexists. split; [vm_compute; reflexivity|vm_compute; reflexivity]. }
  destruct (assignColor_takes_first_free_register Examples.demoTarget GP 4 _ s' Hs')
    as [(before & reg & after & Hregs & Hbefore & Hreg & Hcolored & _)|(_ & _ & Hadd)].
  - exists s', before, reg, after.
    split; [exact Hs'|]. split; [exact Hregs|]. split; [exact Hbefore|].
    split; [exact Hreg|exact Hcolored].
  - exfalso. rewrite Hspilled in Hadd. clear -Hadd. vm_compute in Hadd. discriminate Hadd.
Defined.

Lemma assignColors_writes_for_the_stack_witness :
  ∃ s s',
    mainLoop Examples.demoTarget GP 20 (Examples.graphOf GP Examples.freezeProgram) = Some s
    ∧ assignColors Examples.demoTarget GP s = Some s'
    ∧ m_selectStack s' = []
    ∧ ∀ i reg, m_coloredTmp s' !! i = Some reg →
        m_coloredTmp s !! i = Some reg
        ∨ (reg ∈ regsInPriorityOrder Examples.demoTarget GP
           ∧ ∃ tmp, tmp ∈ m_selectStack s ∧ i = absoluteIndex GP tmp).
Proof.
  assert (∃ s s',
            mainLoop Examples.demoTarget GP 20 (Examples.graphOf GP Examples.freezeProgram)
            = Some s
            ∧ assignColors Examples.demoTarget GP s = Some s') as (s & s' & Hs & Hs').
  { eexists. eexists. split; [vm_compute; reflexivity|vm_compute; reflexivity]. }
  exists s, s'. split; [exact Hs|]. split; [exact Hs'|].
  destruct (assignColors_writes_for_the_stack Examples.demoTarget GP s s' Hs')
    as (Hstack & _ & _ & _ & _ & _ & _ & Hcolored).
  split; [exact Hstack|exact Hcolored].
Defined.

End ColorFacts.

(** ** The graph during the main loop *)

Module LoopGraphFacts.
Import IRC Turns GraphInvariant HashSetFacts IRCFacts BuildFacts AliasFacts.
Import EdgeFacts GraphFacts LoopFacts.

Section Bank.
Variable target : Target.
Variable bank : ArgType.

Lemma graphConsistent_ext s s' :
  m_interferenceEdges s' = m_interferenceEdges s →
  m_adjacencyList s' = m_adjacencyList s →
  graphConsistent target bank s → graphConsistent target bank s'.
Proof.
  intros Hedges Hadj. unfold graphConsistent, adjacency, interfere.
  by rewrite Hedges, Hadj.
Qed.

(** [s'] has the edges and the neighbours of [s], and maybe more. *)
Local Abbreviation grows s s' :=
  (m_interferenceEdges s ⊆ m_interferenceEdges s'
   ∧ ∀ a, adjacency bank s a `prefix_of` adjacency bank s' a).

Lemma grows_ext s s' :
  m_interferenceEdges s' = m_interferenceEdges s →
  m_adjacencyList s' = m_adjacencyList s → grows s s'.
Proof.
  intros Hedges Hadj. unfold adjacency. rewrite Hedges, Hadj. split; [reflexivity|].
  intros a. reflexivity.
Qed.

Lemma grows_trans s1 s2 s3 : grows s1 s2 → grows s2 s3 → grows s1 s3.
Proof.
  intros [He1 Ha1] [He2 Ha2]. split; [by etrans|]. intros a. etrans; [apply Ha1|apply Ha2].
Qed.

Lemma grows_appendAdjacent a b s : grows s (appendAdjacent bank a b s).
Proof.
  split; [done|]. intros x. rewrite adjacency_appendAdjacent. case_decide as Hx; [|done].
  unfold adjacency. rewrite Hx. by apply prefix_app_r.
Qed.

Lemma grows_addEdge a b s : grows s (addEdge target bank a b s).
Proof.
  unfold addEdge. case_decide; [by apply grows_ext|].
  destruct (interfere s a b); [by apply grows_ext|].
  set (s1 := set_interferenceEdges _ s).
  assert (grows s s1) as H1.
  { split; [subst s1; cbn; set_solver|done]. }
  destruct (isReg target a), (isReg target b); try done.
  - eapply grows_trans; [done|apply grows_appendAdjacent].
  - eapply grows_trans; [done|apply grows_appendAdjacent].
  - eapply grows_trans; [done|].
    eapply grows_trans; apply grows_appendAdjacent.
Qed.

Lemma decrementDegree_graph tmp s :
  m_interferenceEdges (decrementDegree bank tmp s) = m_interferenceEdges s
  ∧ m_adjacencyList (decrementDegree bank tmp s) = m_adjacencyList s.
Proof. split; by apply untouched_decrementDegree. Qed.

(** The loop of [combine] over the neighbours of [v]. *)
Lemma combineLoop_graph u l s :
  isInt u → Forall isInt l → graphConsistent target bank s →
  graphConsistent target bank
    (foldl (λ s adjacentTmp,
              if hasBeenSimplified bank s adjacentTmp then s
              else decrementDegree bank adjacentTmp (addEdge target bank adjacentTmp u s))
           s l)
  ∧ grows s
      (foldl (λ s adjacentTmp,
                if hasBeenSimplified bank s adjacentTmp then s
                else decrementDegree bank adjacentTmp (addEdge target bank adjacentTmp u s))
             s l).
Proof.
  intros Hu Hl. revert s. induction Hl as [|t l Ht Hl IH]; intros s Hs.
  { cbn [foldl]. split; [done|]. by apply grows_ext. }
  cbn [foldl]. destruct (hasBeenSimplified bank s t); [by apply IH|].
  set (s1 := decrementDegree bank t (addEdge target bank t u s)).
  destruct (decrementDegree_graph t (addEdge target bank t u s)) as [He Ha].
  assert (graphConsistent target bank s1) as Hs1.
  { eapply graphConsistent_ext; [exact He|exact Ha|]. by apply graphConsistent_addEdge. }
  assert (grows s s1) as Hg1.
  { eapply grows_trans; [apply grows_addEdge|]. by apply grows_ext. }
  destruct (IH s1 Hs1) as [Hs' Hg']. split; [done|]. by eapply grows_trans.
Qed.

Lemma combine_graph u v s :
  isInt u → isInt v → graphConsistent target bank s →
  graphConsistent target bank (combine target bank u v s)
  ∧ grows s (combine target bank u v s).
Proof.
  intros Hu Hv Hs. unfold combine. cbv zeta.
  set (s1 := if HashSet.contains v (m_freezeWorklist s) then _ else _).
  set (s2 := set_moveList _ (set_coalescedTmps _ s1)).
  assert (m_interferenceEdges s2 = m_interferenceEdges s
          ∧ m_adjacencyList s2 = m_adjacencyList s) as [He2 Ha2].
  { subst s2 s1. by destruct (HashSet.contains v (m_freezeWorklist s)). }
  assert (graphConsistent target bank s2 ∧ grows s s2) as [Hs2 Hg2].
  { split; [by eapply graphConsistent_ext|by apply grows_ext]. }
  clearbody s2. clear s1.
  assert (Forall isInt (adjacency bank s2 v)) as Hall.
  { apply Forall_forall. intros b Hb. destruct Hs2 as (Hadj & _).
    by destruct (Hadj v b Hv Hb). }
  unfold forEachAdjacent.
  destruct (combineLoop_graph u (adjacency bank s2 v) s2 Hu Hall Hs2) as [Hs3 Hg3].
  set (s3 := foldl _ s2 _) in *.
  assert (grows s s3) as Hg by (by eapply grows_trans).
  clearbody s3. 
  destruct (_ && _).
  - split; [by eapply graphConsistent_ext|].
    eapply grows_trans; [exact Hg|by apply grows_ext].
  - done.
Qed.

Lemma coalesceOperands_isInt s moveInst rest u v :
  aliasInvariant bank s →
  HashSet.takeLast (m_worklistMoves s) = Some (moveInst, rest) →
  coalesceOperands target bank (set_worklistMoves rest s) moveInst = Some (u, v) →
  isInt u ∧ isInt v.
Proof.
  intros Hinv Htake. pose proof Hinv as (_ & Hmoves & _).
  apply takeLast_Some in Htake.
  destruct (Hmoves moveInst) as [Hwf0 Hwf1].
  { left. rewrite Htake. apply elem_of_app. right. by apply list_elem_of_singleton. }
  unfold coalesceOperands.
  rewrite !(getAlias_ext bank s (set_worklistMoves rest s)) by done.
  destruct (aliasInvariant_getAlias bank s (argTmp (argAt (pointee moveInst) 0)) Hinv)
    as (n0 & r0 & _ & -> & _ & Hr0).
  destruct (aliasInvariant_getAlias bank s (argTmp (argAt (pointee moveInst) 1)) Hinv)
    as (n1 & r1 & _ & -> & _ & Hr1).
  cbn. destruct (Hr0 Hwf0) as [_ ?]. destruct (Hr1 Hwf1) as [_ ?].
  destruct (isReg target r1); by intros [= <- <-].
Qed.

Lemma coalesce_graph s s' :
  aliasInvariant bank s → graphConsistent target bank s →
  coalesce target bank s = Some s' →
  graphConsistent target bank s' ∧ grows s s'.
Proof.
  intros Hinv Hs. unfold coalesce, coalesceTraced.
  destruct (HashSet.takeLast (m_worklistMoves s)) as [[moveInst rest]|] eqn:Htake.
  2: { intros [= <-]. split; [done|by apply grows_ext]. }
  cbv zeta.
  destruct (coalesceOperands _ _ _ _) as [[u v]|] eqn:Hops; [|done].
  destruct (coalesceOperands_isInt _ _ _ _ _ Hinv Htake Hops) as [Hu Hv].
  cbn. set (s1 := set_worklistMoves rest s).
  assert (∀ s2, m_interferenceEdges s2 = m_interferenceEdges s →
                m_adjacencyList s2 = m_adjacencyList s →
                graphConsistent target bank s2 ∧ grows s s2) as Hframe.
  { intros s2 He Ha. split; [by eapply graphConsistent_ext|by apply grows_ext]. }
  case_decide.
  { intros [= <-]. apply Hframe; by rewrite untouched_addWorkList. }
  destruct (isReg target v || interfere s1 u v).
  { intros [= <-]. apply Hframe; by rewrite !untouched_addWorkList. }
  destruct (canBeSafelyCoalesced target bank s1 u v).
  - intros [= <-].
    destruct (combine_graph u v s1 Hu Hv) as [Hc Hg].
    { by eapply graphConsistent_ext. }
    split.
    + eapply graphConsistent_ext; [| |exact Hc]; by rewrite untouched_addWorkList.
    + eapply grows_trans; [|apply grows_ext; by rewrite untouched_addWorkList].
      eapply grows_trans; [|exact Hg]. by apply grows_ext.
  - intros [= <-]. by apply Hframe.
Qed.

Lemma step_graph s s' :
  aliasInvariant bank s → graphConsistent target bank s →
  step target bank s = Some s' →
  graphConsistent target bank s' ∧ grows s s'.
Proof.
  intros Hinv Hs. unfold step.
  assert (∀ s2, m_interferenceEdges s2 = m_interferenceEdges s →
                m_adjacencyList s2 = m_adjacencyList s →
                graphConsistent target bank s2 ∧ grows s s2) as Hframe.
  { intros s2 He Ha. split; [by eapply graphConsistent_ext|by apply grows_ext]. }
  repeat case_match.
  - intros [= <-]. unfold simplify. case_match; [|by apply Hframe]. case_match. cbv zeta.
    apply Hframe.
    + rewrite (keeps_forEachAdjacent bank m_interferenceEdges); [done|].
      intros t. by apply untouched_decrementDegree.
    + rewrite (keeps_forEachAdjacent bank m_adjacencyList); [done|].
      intros t. by apply untouched_decrementDegree.
  - by apply coalesce_graph.
  - intros [= <-]. apply Hframe; by rewrite untouched_freeze.
  - intros [= <-]. apply Hframe; by rewrite untouched_selectSpill.
  - intros [= <-]. by apply Hframe.
Qed.

(** The loop of [allocate] keeps the alias map and the graph in order. *)
Lemma mainLoop_graph fuel s s' :
  aliasInvariant bank s → graphConsistent target bank s →
  mainLoop target bank fuel s = Some s' →
  aliasInvariant bank s' ∧ graphConsistent target bank s' ∧ grows s s'.
Proof.
  revert s. induction fuel as [|fuel IH]; intros s Hinv Hs; [done|]. cbn [mainLoop].
  destruct (step_invariant target bank s Hinv) as (s1 & Hstep & Hinv1 & _).
  rewrite Hstep. cbn.
  destruct (step_graph s s1 Hinv Hs Hstep) as [Hs1 Hg1].
  destruct (worklistsEmpty s1).
  - intros [= <-]. done.
  - intros Hloop. destruct (IH s1 Hinv1 Hs1 Hloop) as (? & ? & ?).
    split; [done|]. split; [done|]. by eapply grows_trans.
Qed.

(** X13. One turn of the loop of [allocate], on a graph whose alias map is in
    order, keeps the adjacency vectors and the edge set consistent with each
    other, and removes nothing: every edge stays in the set and every
    adjacency vector is only appended to. *)
Theorem step_keeps_graph_consistent (s s' : Allocator) :
  aliasInvariant bank s → graphConsistent target bank s →
  step target bank s = Some s' →
  graphConsistent target bank s'
  ∧ m_interferenceEdges s ⊆ m_interferenceEdges s'
  ∧ ∀ a, adjacency bank s a `prefix_of` adjacency bank s' a.
Proof. intros Hinv Hs Hstep. by apply step_graph. Qed.

End Bank.

(** The graph of an example program on entry to the main loop. *)
Lemma graphOf_consistent bank code :
  codeWellFormed (Examples.blockLiveness code) code →
  graphConsistent Examples.demoTarget bank (Examples.graphOf bank code).
Proof.
  intros Hcode. unfold Examples.graphOf.
  eapply graphConsistent_ext;
    [by apply WorklistFacts.makeWorkList_keeps..|].
  apply (buildCode_invariant Examples.demoTarget bank
           (graphConsistent Examples.demoTarget bank) isInt).
  - intros a b s. apply graphConsistent_addEdge.
  - intros s ml wl Hs. by destruct s.
  - unfold isInt. lia.
  - intros blockIndex block instIndex inst Hb Hi.
    by destruct (Hcode _ _ _ _ Hb Hi) as [Hinst Hlive].
  - apply graphConsistent_newAllocator.
Qed.

Lemma graphOf_freezeProgram_aliasInvariant :
  aliasInvariant GP (Examples.graphOf GP Examples.freezeProgram).
Proof.
  apply aliasInvariant_fresh; [vm_compute; reflexivity|].
  intros inst [Hin|Hin]; vm_compute in Hin.
  - repeat (apply elem_of_cons in Hin as [->|Hin];
            [unfold wellFormedTmp, isInt; vm_compute; repeat split; congruence|]).
    by apply elem_of_nil in Hin.
  - by apply elem_of_nil in Hin.
Qed.

Lemma step_keeps_graph_consistent_witness :
  ∃ s',
    step Examples.demoTarget GP (Examples.graphOf GP Examples.freezeProgram) = Some s'
    ∧ graphConsistent Examples.demoTarget GP s'
    ∧ m_interferenceEdges (Examples.graphOf GP Examples.freezeProgram)
      ⊆ m_interferenceEdges s'.
Proof.
  assert (graphConsistent Examples.demoTarget GP
            (Examples.graphOf GP Examples.freezeProgram)) as Hgraph0.
  { apply graphOf_consistent, codeWellFormed_forallb. vm_compute. reflexivity. }
  assert (∃ s', step Examples.demoTarget GP
                  (Examples.graphOf GP Examples.freezeProgram) = Some s') as [s' Hs'].
  { eexists. vm_compute. reflexivity. }
  exists s'. split; [exact Hs'|].
  destruct (step_keeps_graph_consistent Examples.demoTarget GP
              (Examples.graphOf GP Examples.freezeProgram) s'
              graphOf_freezeProgram_aliasInvariant Hgraph0 Hs') as (Hgraph & Hedges & _).
  split; [exact Hgraph|exact Hedges].
Defined.

End LoopGraphFacts.

(** ** The coloring is proper *)

Module ProperColoringFacts.
Import IRC Turns GraphInvariant HashSetFacts IRCFacts BuildFacts AliasFacts.
Import EdgeFacts GraphFacts LoopFacts ColorFacts LoopGraphFacts.

Section Bank.
Variable target : Target.
Variable bank : ArgType.

Lemma getAlias_root s tmp : coalescedTmp bank s tmp = 0 → getAlias bank s tmp = Some tmp.
Proof. intros Hroot. unfold getAlias. cbn [getAliasFrom]. by rewrite decide_True. Qed.

Lemma coloredTmp_insert s tmp reg a :
  isInt tmp → isInt a →
  coloredTmp bank (set_coloredTmp (<[absoluteIndex bank tmp := reg]> (m_coloredTmp s)) s) a
  = if decide (a = tmp) then reg else coloredTmp bank s a.
Proof.
  intros Htmp Ha. unfold coloredTmp. cbn [m_coloredTmp set_coloredTmp].
  case_decide as Heq; [subst a; by rewrite lookup_insert_eq|].
  rewrite lookup_insert_ne; [done|]. intros Hi. apply Heq. symmetry.
  by apply (absoluteIndex_inj bank).
Qed.

(** The loop of [assignColors] on a stack [L] of temporaries without alias,
    whose adjacency vectors in [s0] are symmetric and without loop. *)
Section Proper.
Variable s0 : Allocator.
Variable L : list Tmp.
Hypothesis L_NoDup : NoDup L.
Hypothesis L_isInt : ∀ t, t ∈ L → isInt t.
Hypothesis L_noReg : ∀ t, t ∈ L → isReg target t = false.
Hypothesis L_root : ∀ t, t ∈ L → coalescedTmp bank s0 t = 0.
Hypothesis L_sym : ∀ a b, a ∈ L → b ∈ L → b ∈ adjacency bank s0 a → a ∈ adjacency bank s0 b.
Hypothesis L_irrefl : ∀ a, a ∈ L → a ∉ adjacency bank s0 a.
Hypothesis regs_valid : 0 ∉ regsInPriorityOrder target bank.

(** The temporaries of [done] are colored properly in [s]. *)
Local Abbreviation proper done s :=
  ((∀ a, a ∈ done → coloredTmp bank s a ∈ regsInPriorityOrder target bank)
   ∧ (∀ a b, a ∈ done → b ∈ done → b ∈ adjacency bank s0 a →
             coloredTmp bank s a ≠ coloredTmp bank s b)
   ∧ (∀ a b aliasTmp, a ∈ done → b ∈ adjacency bank s0 a →
        getAlias bank s0 b = Some aliasTmp → isReg target aliasTmp = true →
        coloredTmp bank s a ≠ aliasTmp)).

Lemma colorSelectStack_proper done stack s s' :
  L = done ++ stack →
  m_adjacencyList s = m_adjacencyList s0 →
  m_coalescedTmps s = m_coalescedTmps s0 →
  proper done s →
  colorSelectStack target bank stack s = Some s' →
  m_spilledTmp s' = [] →
  proper L s'.
Proof.
  revert done s. induction stack as [|t stack IH]; intros done s HL Hadj Hco Hdone.
  { intros [= <-] _. rewrite app_nil_r in HL. by subst done. }
  cbn [colorSelectStack].
  destruct (assignColor target bank t s) as [s1|] eqn:Hturn; [|done]. cbn.
  intros Hloop Hnospill.
  apply assignColor_inv in Hturn as (result & Hres & Hcases).
  destruct Hcases as [(before & reg & after & Hregs & _ & Hreg & ->)|[_ ->]].
  2: { destruct (colorSelectStack_writes _ _ _ _ _ Hloop) as (Hmono & _).
       specialize (Hmono t). rewrite Hnospill in Hmono.
       exfalso. eapply elem_of_nil, Hmono. cbn. apply elem_of_add. by left. }
  assert (t ∈ L) as HtL.
  { rewrite HL. apply elem_of_app. right. left. }
  assert (∀ a, a ∈ done → a ∈ L ∧ a ≠ t) as Hdone_t.
  { intros a Ha. split; [rewrite HL; apply elem_of_app; by left|].
    intros ->. rewrite HL in L_NoDup. apply NoDup_app in L_NoDup as (_ & Hdisj & _).
    apply (Hdisj t Ha). left. }
  assert (adjacency bank s t = adjacency bank s0 t) as Hadj_t.
  { unfold adjacency. by rewrite Hadj. }
  assert (∀ b, getAlias bank s b = getAlias bank s0 b) as Halias.
  { intros b. by apply getAlias_ext. }
  pose proof (coloredRegisters_spec _ _ _ _ _ _ Hres) as Hspec.
  rewrite Hadj_t in Hspec. setoid_rewrite Halias in Hspec.
  destruct Hdone as (Hin & Hpairs & Hprecolored).
  (* the register of [t] differs from the one of a colored neighbour *)
  assert (∀ b, b ∈ done → b ∈ adjacency bank s0 t → reg ≠ coloredTmp bank s b) as Hnew.
  { intros b Hb Hbt Heq. apply Hreg, Hspec. right.
    destruct (Hdone_t b Hb) as [HbL _].
    exists b, b. split_and!; [done| |].
    - apply getAlias_root. apply L_root. done.
    - rewrite (L_noReg b HbL). split; [done|].
      intros Hzero. apply regs_valid. rewrite <- Hzero, Heq. by apply Hin. }
  refine (IH (done ++ [t]) _ _ _ _ _ Hloop Hnospill);
    [by rewrite <- app_assoc|done|done|].
  assert (∀ a, a ∈ done ++ [t] →
            isInt a
            ∧ coloredTmp bank
                (set_coloredTmp (<[absoluteIndex bank t := reg]> (m_coloredTmp s)) s) a
              = if decide (a = t) then reg else coloredTmp bank s a) as Hcol.
  { intros a Ha. assert (a ∈ L) as HaL.
    { rewrite HL. apply elem_of_app in Ha as [?|Ha]; apply elem_of_app; [by left|right].
      apply list_elem_of_singleton in Ha as ->. left. }
    split; [by apply L_isInt|]. apply coloredTmp_insert; by apply L_isInt. }
  split_and!.
  - intros a Ha. destruct (Hcol a Ha) as [_ ->]. case_decide.
    + rewrite Hregs. apply elem_of_app. right. left.
    + apply Hin. apply elem_of_app in Ha as [?|Ha]; [done|].
      by apply list_elem_of_singleton in Ha.
  - intros a b Ha Hb Hab.
    destruct (Hcol a Ha) as [_ ->]. destruct (Hcol b Hb) as [_ ->].
    apply elem_of_app in Ha as [Ha|Ha%list_elem_of_singleton];
      apply elem_of_app in Hb as [Hb|Hb%list_elem_of_singleton].
    + rewrite !decide_False by by apply Hdone_t. by apply Hpairs.
    + subst b. rewrite decide_False by by apply Hdone_t. rewrite decide_True by done.
      apply not_eq_sym, Hnew; [done|].
      apply L_sym; [by apply Hdone_t|done|done].
    + subst a. rewrite decide_True by done. rewrite decide_False by by apply Hdone_t.
      by apply Hnew.
    + subst a b. by apply L_irrefl in Hab.
  - intros a b aliasTmp Ha Hab Hb Hisreg. destruct (Hcol a Ha) as [_ ->].
    apply elem_of_app in Ha as [Ha|Ha%list_elem_of_singleton].
    + rewrite decide_False by by apply Hdone_t. by eapply Hprecolored.
    + subst a. rewrite decide_True by done. intros ->. apply Hreg, Hspec. right.
      exists b, aliasTmp. split_and!; [done..|]. by rewrite Hisreg.
Qed.

End Proper.

Lemma assignColors_inv s s' :
  assignColors target bank s = Some s' → m_spilledTmp s' = [] →
  ∃ s1, colorSelectStack target bank (reverse (m_selectStack s)) (reclaim s) = Some s1
        ∧ m_spilledTmp s1 = []
        ∧ m_coloredTmp s' = m_coloredTmp s1.
Proof.
  unfold assignColors. cbv zeta.
  change (m_selectStack (reclaim s)) with (m_selectStack s).
  destruct (colorSelectStack _ _ _ _) as [s1|]; [|done].
  cbn [mbind option_bind]. intros [= <-]. case_bool_decide as Hsp.
  - intros Hnil. exists s1. by destruct Hsp.
  - intros _. exists s1. split_and!; [done| |done].
    destruct (m_spilledTmp s1); [done|]. by destruct Hsp.
Qed.

(** X14. When [assignColors] ends without a spill on a consistent graph
    whose select stack holds each temporary once, none of them a register or
    coalesced, and the registers of the priority order are valid registers,
    then every temporary of the stack has a register of the priority order,
    two temporaries of the stack that interfere have different registers, and
    no temporary of the stack has a register that it interferes with. *)
Theorem assignColors_colors_properly (s s' : Allocator) :
  graphConsistent target bank s →
  NoDup (m_selectStack s) →
  (∀ t, t ∈ m_selectStack s →
        isInt t ∧ isReg target t = false ∧ coalescedTmp bank s t = 0) →
  0 ∉ regsInPriorityOrder target bank →
  assignColors target bank s = Some s' →
  m_spilledTmp s' = [] →
  ∀ a, a ∈ m_selectStack s →
    coloredTmp bank s' a ∈ regsInPriorityOrder target bank
    ∧ (∀ b, b ∈ m_selectStack s → interfere s a b = true →
            coloredTmp bank s' a ≠ coloredTmp bank s' b)
    ∧ (∀ b, isInt b → isReg target b = true → coalescedTmp bank s b = 0 →
            interfere s a b = true → coloredTmp bank s' a ≠ b).
Proof.
  intros (Hadj & Hedge & _ & _) Hnodup Hstack Hregs Hcolors Hnospill.
  destruct (assignColors_inv s s' Hcolors Hnospill) as (s1 & Hloop & Hnospill1 & Hc).
  assert (∀ a, coloredTmp bank s' a = coloredTmp bank s1 a) as Hsame.
  { intros a. unfold coloredTmp. by rewrite Hc. }
  clear Hcolors Hnospill Hc.
  assert (∀ a, adjacency bank (reclaim s) a = adjacency bank s a) as Hadj' by done.
  assert (∀ a, coalescedTmp bank (reclaim s) a = coalescedTmp bank s a) as Hco' by done.
  assert (∀ b, getAlias bank (reclaim s) b = getAlias bank s b) as Halias'.
  { intros b. by apply getAlias_ext. }
  assert (NoDup (reverse (m_selectStack s))) as H1.
  { by rewrite reverse_Permutation. }
  assert (∀ t, t ∈ reverse (m_selectStack s) → isInt t) as H2.
  { intros t Ht; rewrite elem_of_reverse in Ht. by destruct (Hstack t Ht) as (? & ? & ?). }
  assert (∀ t, t ∈ reverse (m_selectStack s) → isReg target t = false) as H3.
  { intros t Ht; rewrite elem_of_reverse in Ht. by destruct (Hstack t Ht) as (? & ? & ?). }
  assert (∀ t, t ∈ reverse (m_selectStack s) → coalescedTmp bank (reclaim s) t = 0) as H4.
  { intros t Ht; rewrite elem_of_reverse in Ht. rewrite Hco'. by destruct (Hstack t Ht) as (? & ? & ?). }
  assert (∀ a b, a ∈ reverse (m_selectStack s) → b ∈ reverse (m_selectStack s) →
            b ∈ adjacency bank (reclaim s) a → a ∈ adjacency bank (reclaim s) b) as H5.
  { intros a b Ha Hb; rewrite elem_of_reverse in Ha, Hb. rewrite !Hadj'. intros Hab.
    destruct (Hstack a Ha) as (Hia & Hra & _). destruct (Hstack b Hb) as (Hib & Hrb & _).
    destruct (Hadj a b Hia Hab) as (_ & _ & Hi).
    apply Hedge; [done..| |done]. unfold interfere in *.
    by rewrite InterferenceEdge_sym. }
  assert (∀ a, a ∈ reverse (m_selectStack s) → a ∉ adjacency bank (reclaim s) a) as H6.
  { intros a Ha; rewrite elem_of_reverse in Ha. rewrite Hadj'. intros Haa.
    destruct (Hstack a Ha) as (Hia & _). by destruct (Hadj a a Hia Haa) as (_ & ? & _). }
  destruct (colorSelectStack_proper (reclaim s) (reverse (m_selectStack s))
              H1 H2 H3 H4 H5 H6 Hregs [] (reverse (m_selectStack s)) (reclaim s) s1)
    as (Hin & Hpairs & Hprecolored); [done..| |done|done|].
  { split_and!.
    - by intros a ?%elem_of_nil.
    - by intros a b ?%elem_of_nil.
    - by intros a b aliasTmp ?%elem_of_nil. }
  intros a Ha. destruct (Hstack a Ha) as (Hia & Hra & _).
  assert (a ∈ reverse (m_selectStack s)) as Ha' by by apply elem_of_reverse.
  rewrite !Hsame. split_and!.
  - by apply Hin.
  - intros b Hb Hi. rewrite Hsame. destruct (Hstack b Hb) as (Hib & _).
    apply Hpairs; [done|by apply elem_of_reverse|]. rewrite Hadj'. by apply Hedge.
  - intros b Hib Hrb Hroot Hi.
    apply (Hprecolored a b b); [done| | |done].
    + rewrite Hadj'. by apply Hedge.
    + rewrite Halias'. by apply getAlias_root.
Qed.

End Bank.

Lemma assignColors_colors_properly_witness :
  ∃ s s',
    mainLoop Examples.demoTarget GP 20 (Examples.graphOf GP Programs.coloringProgram)
    = Some s
    ∧ assignColors Examples.demoTarget GP s = Some s'
    ∧ m_selectStack s = [6; 5; 4]
    ∧ ∀ a, a ∈ m_selectStack s →
        coloredTmp GP s' a ∈ regsInPriorityOrder Examples.demoTarget GP
        ∧ (∀ b, b ∈ m_selectStack s → interfere s a b = true →
                coloredTmp GP s' a ≠ coloredTmp GP s' b)
        ∧ (∀ b, isInt b → isReg Examples.demoTarget b = true → coalescedTmp GP s b = 0 →
                interfere s a b = true → coloredTmp GP s' a ≠ b).
Proof.
  assert (aliasInvariant GP (Examples.graphOf GP Programs.coloringProgram)) as Halias.
  { apply aliasInvariant_fresh; [vm_compute; reflexivity|].
    intros inst [Hin|Hin]; vm_compute in Hin; by apply elem_of_nil in Hin. }
  assert (graphConsistent Examples.demoTarget GP
            (Examples.graphOf GP Programs.coloringProgram)) as Hgraph.
  { apply graphOf_consistent, codeWellFormed_forallb. vm_compute. reflexivity. }
  assert (0 ∉ regsInPriorityOrder Examples.demoTarget GP) as Hregs.
  { vm_compute. intros Hin. repeat (apply elem_of_cons in Hin as [Hin|Hin]; [done|]).
    by apply elem_of_nil in Hin. }
  assert (∃ s s',
            mainLoop Examples.demoTarget GP 20
              (Examples.graphOf GP Programs.coloringProgram) = Some s
            ∧ assignColors Examples.demoTarget GP s = Some s'
            ∧ m_selectStack s = [6; 5; 4]
            ∧ m_spilledTmp s' = []
            ∧ m_coalescedTmps s = ∅)
    as (s & s' & Hs & Hs' & Hstack & Hnospill & Hco).
  { eexists. eexists. split; [vm_compute; reflexivity|].
    split; [vm_compute; reflexivity|].
    split; [vm_compute; reflexivity|].
    split; [vm_compute; reflexivity|vm_compute; reflexivity]. }
  exists s, s'. split; [exact Hs|]. split; [exact Hs'|]. split; [exact Hstack|].
  destruct (mainLoop_graph Examples.demoTarget GP 20 _ s Halias Hgraph Hs)
    as (_ & Hgraph' & _).
  apply (assignColors_colors_properly Examples.demoTarget GP s s' Hgraph');
    [| |exact Hregs|exact Hs'|exact Hnospill].
  - rewrite Hstack. clear. apply NoDup_cons. split.
    { intros Hin. repeat (apply elem_of_cons in Hin as [Hin|Hin]; [discriminate Hin|]).
      apply elem_of_nil in Hin. exact Hin. }
    apply NoDup_cons. split.
    { intros Hin. repeat (apply elem_of_cons in Hin as [Hin|Hin]; [discriminate Hin|]).
      apply elem_of_nil in Hin. exact Hin. }
    apply NoDup_singleton.
  - rewrite Hstack. intros t Ht. unfold coalescedTmp. rewrite Hco, lookup_empty.
    clear -Ht.
    repeat (apply elem_of_cons in Ht as [->|Ht];
            [split; [unfold isInt; lia|split; reflexivity]|]).
    apply elem_of_nil in Ht. destruct Ht.
Defined.

End ProperColoringFacts.

(** ** The moves that wait and the moves that are frozen *)

Module MoveFacts.
Import IRC Turns GraphInvariant HashSetFacts IRCFacts BuildFacts AliasFacts.
Import EdgeFacts GraphFacts LoopFacts.

Section Bank.
Variable bank : ArgType.

(** The loop of [enableMovesOnValue] over a move list. *)
Lemma enableMoves_fold (l : list InstPtr) s :
  let s' := foldl (λ s inst,
                     if HashSet.contains inst (m_activeMoves s)
                     then set_worklistMoves (HashSet.add inst (m_worklistMoves s))
                            (set_activeMoves (HashSet.remove inst (m_activeMoves s)) s)
                     else s) s l in
  (∀ inst, inst ∈ m_activeMoves s' ↔ inst ∈ m_activeMoves s ∧ inst ∉ l)
  ∧ (∀ inst, inst ∈ m_worklistMoves s'
             ↔ inst ∈ m_worklistMoves s ∨ (inst ∈ l ∧ inst ∈ m_activeMoves s)).
Proof.
  cbv zeta. revert s. induction l as [|x l IH]; intros s.
  { cbn [foldl]. split; intros inst; rewrite elem_of_nil; tauto. }
  cbn [foldl]. match goal with |- context [foldl ?f ?s1 l] => destruct (IH s1) as [Ha Hw] end.
  split; intros inst; rewrite ?Ha, ?Hw, elem_of_cons; clear Ha Hw IH.
  - destruct (HashSet.contains x (m_activeMoves s)) eqn:Hc.
    + cbn [m_activeMoves set_worklistMoves set_activeMoves]. rewrite elem_of_remove. tauto.
    + apply contains_false in Hc. split; [|tauto].
      intros [Hin Hl]. split; [done|]. intros [->|?]; done.
  - destruct (HashSet.contains x (m_activeMoves s)) eqn:Hc.
    + apply contains_true in Hc.
      cbn [m_activeMoves m_worklistMoves set_worklistMoves set_activeMoves].
      rewrite elem_of_add, elem_of_remove. split.
      * intros [[->|?]|(? & ? & ?)]; [right|left|right]; tauto.
      * destruct (decide (inst = x)) as [->|Hne]; [tauto|]. tauto.
    + apply contains_false in Hc. split; [tauto|].
      intros [?|([->|?] & ?)]; [tauto|done|tauto].
Qed.

(** X15. [enableMovesOnValue] takes every move of the temporary out of the
    active set and puts the ones that were in it on the move worklist; the
    other moves stay where they are, so that no move is dropped and none is
    revived. *)
Theorem enableMovesOnValue_wakes_the_moves (tmp : Tmp) (s : Allocator) (inst : InstPtr) :
  (inst ∈ m_activeMoves (enableMovesOnValue bank tmp s)
   ↔ inst ∈ m_activeMoves s ∧ inst ∉ moves bank s tmp)
  ∧ (inst ∈ m_worklistMoves (enableMovesOnValue bank tmp s)
     ↔ inst ∈ m_worklistMoves s ∨ (inst ∈ moves bank s tmp ∧ inst ∈ m_activeMoves s))
  ∧ (liveMove (enableMovesOnValue bank tmp s) inst ↔ liveMove s inst).
Proof.
  unfold enableMovesOnValue, liveMove.
  pose proof (enableMoves_fold (moves bank s tmp) s) as [Ha Hw]. cbv zeta in Ha, Hw.
  rewrite Ha, Hw. split_and!; [done..|].
  destruct (decide (inst ∈ moves bank s tmp)); tauto.
Qed.

(** The loop of [freezeMoves] over a move list. *)
Lemma freezeMoves_fold tmp (l : list InstPtr) s :
  (∀ inst, inst ∈ m_activeMoves s → inst ∉ m_worklistMoves s) →
  let s' := foldl (λ s inst,
    if isLiveMove s inst then
      (λ inst s,
         let s := if HashSet.contains inst (m_activeMoves s)
                  then set_activeMoves (HashSet.remove inst (m_activeMoves s)) s
                  else set_worklistMoves (HashSet.remove inst (m_worklistMoves s)) s in
         let otherTmp := if bool_decide (argTmp (argAt (pointee inst) 0) ≠ tmp)
                         then argTmp (argAt (pointee inst) 0)
                         else argTmp (argAt (pointee inst) 1) in
         if (degree bank s otherTmp <? m_numberOfRegisters s)
            && negb (isMoveRelated bank s otherTmp)
         then set_simplifyWorklist (m_simplifyWorklist s ++ [otherTmp])
                (set_freezeWorklist (HashSet.remove otherTmp (m_freezeWorklist s)) s)
         else s) inst s
    else s) s l in
  (∀ inst, inst ∈ m_activeMoves s' ↔ inst ∈ m_activeMoves s ∧ inst ∉ l)
  ∧ (∀ inst, inst ∈ m_worklistMoves s' ↔ inst ∈ m_worklistMoves s ∧ inst ∉ l).
Proof.
  cbv zeta. revert s. induction l as [|x l IH]; intros s Hdisjoint.
  { cbn [foldl]. split; intros inst; rewrite elem_of_nil; tauto. }
  cbn [foldl].
  match goal with |- context [foldl ?f ?s1 l] => set (s1' := s1) end.
  assert ((∀ inst, inst ∈ m_activeMoves s1' ↔ inst ∈ m_activeMoves s ∧ inst ≠ x)
          ∧ (∀ inst, inst ∈ m_worklistMoves s1' ↔ inst ∈ m_worklistMoves s ∧ inst ≠ x))
    as [Ha1 Hw1].
  { subst s1'. unfold isLiveMove.
    destruct (HashSet.contains x (m_activeMoves s)) eqn:Hc; cbn [orb].
    - apply contains_true in Hc.
      match goal with
      | |- context [if ?c then ?a else ?b] =>
          assert (m_activeMoves (if c then a else b) = HashSet.remove x (m_activeMoves s)
                  ∧ m_worklistMoves (if c then a else b) = m_worklistMoves s) as [-> ->]
            by (by destruct c)
      end.
      split; intros inst; rewrite ?elem_of_remove; [tauto|].
      split; [|tauto]. intros Hin. split; [done|]. intros ->. by apply (Hdisjoint x).
    - apply contains_false in Hc.
      destruct (HashSet.contains x (m_worklistMoves s)) eqn:Hc'.
      + match goal with
        | |- context [if ?c then ?a else ?b] =>
            assert (m_activeMoves (if c then a else b) = m_activeMoves s
                    ∧ m_worklistMoves (if c then a else b)
                      = HashSet.remove x (m_worklistMoves s)) as [-> ->]
              by (by destruct c)
        end.
        split; intros inst; rewrite ?elem_of_remove; [|tauto].
        split; [|tauto]. intros Hin. split; [done|]. by intros ->.
      + apply contains_false in Hc'.
        split; intros inst; (split; [|tauto]); intros Hin; (split; [done|]); by intros ->. }
  destruct (IH s1') as [Ha Hw].
  { intros inst [Hin _]%Ha1 [Hin' _]%Hw1. by apply (Hdisjoint inst). }
  split; intros inst; rewrite ?Ha, ?Hw, ?Ha1, ?Hw1, elem_of_cons; tauto.
Qed.

(** X16. When no move is both active and on the move worklist, [freezeMoves]
    takes every move of the temporary out of both sets and leaves the other
    moves where they are: a move may still be coalesced afterwards exactly
    when it could before and is not a move of the temporary. *)
Theorem freezeMoves_freezes_every_move (tmp : Tmp) (s : Allocator) (inst : InstPtr) :
  (∀ inst, inst ∈ m_activeMoves s → inst ∉ m_worklistMoves s) →
  (inst ∈ m_activeMoves (freezeMoves bank tmp s)
   ↔ inst ∈ m_activeMoves s ∧ inst ∉ moves bank s tmp)
  ∧ (inst ∈ m_worklistMoves (freezeMoves bank tmp s)
     ↔ inst ∈ m_worklistMoves s ∧ inst ∉ moves bank s tmp)
  ∧ (liveMove (freezeMoves bank tmp s) inst ↔ liveMove s inst ∧ inst ∉ moves bank s tmp).
Proof.
  intros Hdisjoint. unfold freezeMoves, forEachNodeMoves, liveMove.
  pose proof (freezeMoves_fold tmp (moves bank s tmp) s Hdisjoint) as [Ha Hw].
  cbv zeta in Ha, Hw. rewrite Ha, Hw. split_and!; [done..|]. tauto.
Qed.

(** [freezeMoves] only takes temporaries off the freeze worklist. *)
Lemma freezeMoves_freezeWorklist tmp s t :
  t ∈ m_freezeWorklist (freezeMoves bank tmp s) → t ∈ m_freezeWorklist s.
Proof.
  unfold freezeMoves, forEachNodeMoves. generalize (moves bank s tmp). intros l.
  revert s. induction l as [|x l IH]; intros s; cbn [foldl]; [done|].
  intros Hin%IH. revert Hin. destruct (isLiveMove s x); [|done]. cbv beta zeta.
  repeat case_match; cbn [m_freezeWorklist set_simplifyWorklist set_freezeWorklist
                            set_activeMoves set_worklistMoves];
    rewrite ?elem_of_remove; tauto.
Qed.

(** X27. [freeze] takes the first temporary of the freeze worklist and
    appends it to the simplify worklist, before the temporaries that
    [freezeMoves] transfers; it puts no temporary on the freeze worklist and
    leaves the spill worklist alone; and when no move is both active and on
    the move worklist, the moves that may still be coalesced afterwards are
    the ones before that are no moves of the temporary. *)
Theorem freeze_takes_the_first (victim : Tmp) (rest : list Tmp) (s : Allocator) :
  m_freezeWorklist s = victim :: rest →
  (m_simplifyWorklist s ++ [victim]) `prefix_of` m_simplifyWorklist (freeze bank s)
  ∧ (∀ t, t ∈ m_freezeWorklist (freeze bank s) → t ∈ rest)
  ∧ m_spillWorklist (freeze bank s) = m_spillWorklist s
  ∧ ((∀ inst, inst ∈ m_activeMoves s → inst ∉ m_worklistMoves s) →
     ∀ inst, liveMove (freeze bank s) inst
             ↔ liveMove s inst ∧ inst ∉ moves bank s victim).
Proof.
  intros Hwl. unfold freeze. rewrite Hwl.
  set (s1 := set_simplifyWorklist _ (set_freezeWorklist rest s)).
  split_and!.
  - destruct (freezeMoves_simplifyWorklist bank victim s1) as [transferred ->].
    by apply prefix_app_r.
  - intros t Hin%freezeMoves_freezeWorklist. done.
  - by rewrite freezeMoves_keeps_spillWorklist.
  - intros Hdisjoint inst.
    destruct (freezeMoves_fold victim (moves bank s1 victim) s1 Hdisjoint) as [Ha Hw].
    cbv zeta in Ha, Hw. unfold freezeMoves, forEachNodeMoves, liveMove.
    rewrite Ha, Hw. subst s1. unfold moves. cbn. tauto.
Qed.

End Bank.

Lemma freeze_takes_the_first_witness :
  ∃ s,
    steps Examples.demoTarget GP 2 (Examples.graphOf GP Examples.freezeProgram) = Some s
    ∧ m_freezeWorklist s = [4]
    ∧ (m_simplifyWorklist s ++ [4]) `prefix_of` m_simplifyWorklist (freeze GP s).
Proof.
  assert (∃ s, steps Examples.demoTarget GP 2 (Examples.graphOf GP Examples.freezeProgram)
               = Some s
               ∧ m_freezeWorklist s = [4]) as (s & Hs & Hwl).
  { eexists. split; [vm_compute; reflexivity|vm_compute; reflexivity]. }
  exists s. split; [exact Hs|]. split; [exact Hwl|].
  destruct (freeze_takes_the_first GP 4 [] s Hwl) as [Hprefix _]. exact Hprefix.
Defined.

Lemma freezeMoves_freezes_every_move_witness :
  liveMove (freezeMoves GP 5 (Examples.graphOf GP Examples.freezeProgram))
    {| address := (0, 3)%nat; pointee := Examples.inst Move [Examples.use 4; Examples.def 5] |}
  ↔ liveMove (Examples.graphOf GP Examples.freezeProgram)
      {| address := (0, 3)%nat;
         pointee := Examples.inst Move [Examples.use 4; Examples.def 5] |}
    ∧ {| address := (0, 3)%nat; pointee := Examples.inst Move [Examples.use 4; Examples.def 5] |}
      ∉ moves GP (Examples.graphOf GP Examples.freezeProgram) 5.
Proof.
  apply (freezeMoves_freezes_every_move GP 5 (Examples.graphOf GP Examples.freezeProgram)).
  intros inst Hin. vm_compute in Hin. apply elem_of_nil in Hin. destruct Hin.
Defined.

End MoveFacts.

(** ** What [simplify] and [combine] do to the neighbours *)

Module NeighbourFacts.
Import IRC Turns GraphInvariant HashSetFacts IRCFacts BuildFacts AliasFacts.
Import EdgeFacts GraphFacts LoopFacts LoopGraphFacts.

Section Bank.
Variable target : Target.
Variable bank : ArgType.

Lemma decrementDegree_degrees tmp s :
  m_degrees (decrementDegree bank tmp s)
  = <[absoluteIndex bank tmp := (degree bank s tmp - 1) mod 2 ^ 32]> (m_degrees s).
Proof.
  unfold decrementDegree. cbv zeta. case_decide; [|done].
  destruct (isMoveRelated _ _ _); cbn [m_degrees set_freezeWorklist set_simplifyWorklist
                                         set_spillWorklist];
    by rewrite (untouched_enableMovesOnValueAndAdjacents bank m_degrees).
Qed.

Lemma decrementDegree_degree tmp s b :
  isInt tmp → isInt b →
  degree bank (decrementDegree bank tmp s) b
  = if decide (b = tmp) then (degree bank s tmp - 1) mod 2 ^ 32 else degree bank s b.
Proof.
  intros Htmp Hb. unfold degree at 1. rewrite decrementDegree_degrees.
  case_decide as Heq; [subst b; by rewrite lookup_insert_eq|].
  rewrite lookup_insert_ne; [done|]. intros Hi. apply Heq. symmetry.
  by apply (absoluteIndex_inj bank).
Qed.

Lemma decrementDegree_hasBeenSimplified tmp s b :
  hasBeenSimplified bank (decrementDegree bank tmp s) b = hasBeenSimplified bank s b.
Proof.
  unfold hasBeenSimplified, isOnSelectStack, coalescedTmp.
  by rewrite (untouched_decrementDegree bank m_isOnSelectStack),
             (untouched_decrementDegree bank m_coalescedTmps).
Qed.

(** The loop of [simplify] over the neighbours. *)
Lemma simplifyLoop_degree l s b :
  NoDup l → Forall isInt l → isInt b →
  degree bank
    (foldl (λ s adjacentTmp,
              if hasBeenSimplified bank s adjacentTmp then s
              else decrementDegree bank adjacentTmp s) s l) b
  = if decide (b ∈ l)
    then if hasBeenSimplified bank s b then degree bank s b
         else (degree bank s b - 1) mod 2 ^ 32
    else degree bank s b.
Proof.
  intros Hnodup Hl Hb. revert s.
  induction Hl as [|x l Hx Hl IH]; intros s; [done|].
  apply NoDup_cons in Hnodup as [Hxl Hnodup]. cbn [foldl].
  rewrite (IH Hnodup).
  assert (hasBeenSimplified bank
            (if hasBeenSimplified bank s x then s else decrementDegree bank x s) b
          = hasBeenSimplified bank s b) as ->.
  { destruct (hasBeenSimplified bank s x); [done|apply decrementDegree_hasBeenSimplified]. }
  destruct (decide (b = x)) as [->|Hne].
  - rewrite (decide_False (P := x ∈ l)) by done.
    rewrite decide_True by left.
    destruct (hasBeenSimplified bank s x); [done|].
    rewrite decrementDegree_degree by done. by rewrite decide_True.
  - assert (degree bank (if hasBeenSimplified bank s x then s
                         else decrementDegree bank x s) b = degree bank s b) as ->.
    { destruct (hasBeenSimplified bank s x); [done|].
      rewrite decrementDegree_degree by done. by rewrite decide_False. }
    destruct (decide (b ∈ l)) as [Hin|Hin].
    + rewrite decide_True by by right. done.
    + rewrite decide_False; [done|]. by intros [?|?]%elem_of_cons.
Qed.

(** X17. On a consistent graph, [simplify] lowers by one the degree of every
    neighbour of the temporary that it pushes, unless that neighbour is on
    the select stack already or has been coalesced, and changes no other
    degree. *)
Theorem simplify_lowers_the_degrees (s : Allocator) (rest : list Tmp) (last b : Tmp) :
  graphConsistent target bank s →
  m_simplifyWorklist s = rest ++ [last] →
  isInt last → isInt b →
  degree bank (simplify bank s) b
  = if decide (b ∈ adjacency bank s last)
    then if hasBeenSimplified bank s b then degree bank s b
         else (degree bank s b - 1) mod 2 ^ 32
    else degree bank s b.
Proof.
  intros (Hadj & _ & Hnodup & _) Hwl Hlast Hb. unfold simplify, HashSet.takeLast.
  rewrite Hwl, last_snoc. cbv zeta. unfold forEachAdjacent.
  set (s3 := set_isOnSelectStack _ _).
  assert (adjacency bank s3 last = adjacency bank s last) as -> by done.
  rewrite simplifyLoop_degree; [|by apply Hnodup| |done].
  2: { apply Forall_forall. intros t Ht. by destruct (Hadj last t Hlast Ht). }
  assert (degree bank s3 b = degree bank s b) as -> by done.
  case_decide as Hin; [|done].
  assert (hasBeenSimplified bank s3 b = hasBeenSimplified bank s b) as ->; [|done].
  unfold hasBeenSimplified, isOnSelectStack. f_equal.
  subst s3. cbn [m_isOnSelectStack set_isOnSelectStack].
  destruct (Hadj last b Hlast Hin) as (_ & Hne & _).
  apply bool_decide_ext. rewrite elem_of_union, elem_of_singleton. split; [|by right].
  intros [Hi|?]; [|done]. destruct Hne. symmetry. by apply (absoluteIndex_inj bank).
Qed.

Lemma elem_of_addAll {A} `{EqDecision A} (x : A) xs l :
  x ∈ HashSet.addAll xs l ↔ x ∈ xs ∨ x ∈ l.
Proof.
  unfold HashSet.addAll. revert l. induction xs as [|y xs IH]; intros l; cbn [foldl].
  - rewrite elem_of_nil. tauto.
  - rewrite IH, elem_of_add, elem_of_cons. tauto.
Qed.

(** The loop of [combine] over the neighbours of [v]: the edges to [u]. *)
Lemma combineLoop_edges u l s b :
  b ∈ l → hasBeenSimplified bank s b = false → b ≠ u →
  interfere
    (foldl (λ s adjacentTmp,
              if hasBeenSimplified bank s adjacentTmp then s
              else decrementDegree bank adjacentTmp (addEdge target bank adjacentTmp u s))
           s l) b u = true.
Proof.
  intros Hin Hb Hne. revert s Hb. induction l as [|x l IH]; intros s Hb.
  { by apply elem_of_nil in Hin. }
  cbn [foldl].
  set (s1 := if hasBeenSimplified bank s x then s else _).
  assert (hasBeenSimplified bank s1 b = false) as Hb1.
  { subst s1. destruct (hasBeenSimplified bank s x); [done|].
    rewrite decrementDegree_hasBeenSimplified.
    unfold hasBeenSimplified, isOnSelectStack, coalescedTmp in *.
    by rewrite (untouched_addEdge target bank m_isOnSelectStack),
               (untouched_addEdge target bank m_coalescedTmps). }
  destruct (decide (b = x)) as [<-|Hbx].
  - assert (interfere s1 b u = true) as Hi.
    { subst s1. rewrite Hb. apply interfere_true.
      destruct (decrementDegree_graph bank b (addEdge target bank b u s)) as [-> _].
      apply addEdge_edges. by right. }
    clear IH Hin. revert Hi. generalize s1. clear. intros s1 Hi.
    revert s1 Hi. induction l as [|y l IH]; intros s1 Hi; [done|]. cbn [foldl].
    apply IH. destruct (hasBeenSimplified bank s1 y); [done|].
    apply interfere_true.
    destruct (decrementDegree_graph bank y (addEdge target bank y u s1)) as [-> _].
    apply addEdge_edges. left. by apply interfere_true.
  - apply IH; [|done]. by apply elem_of_cons in Hin as [?|?].
Qed.

(** X18. [combine u v] makes [u] stand for [v]: the alias of [v] is [u], the
    moves of [v] are moves of [u], and every neighbour of [v] that is still in
    the graph (neither on the select stack nor coalesced) and is not [u]
    interferes with [u] afterwards. *)
Theorem combine_hands_over_to_u (u v : Tmp) (s : Allocator) :
  isInt v →
  coalescedTmp bank (combine target bank u v s) v = u
  ∧ (∀ inst, inst ∈ moves bank s v → inst ∈ moves bank (combine target bank u v s) u)
  ∧ (∀ b, isInt b → b ∈ adjacency bank s v →
          hasBeenSimplified bank s b = false → b ≠ v → b ≠ u →
          interfere (combine target bank u v s) b u = true).
Proof.
  intros Hv. unfold combine. cbv zeta.
  set (s1 := if HashSet.contains v (m_freezeWorklist s) then _ else _).
  set (s2 := set_moveList _ (set_coalescedTmps _ s1)).
  set (s3 := forEachAdjacent bank v _ s2).
  assert (m_coalescedTmps s3 = <[absoluteIndex bank v := u]> (m_coalescedTmps s)
          ∧ m_moveList s3
            = <[absoluteIndex bank u :=
                  HashSet.addAll (moves bank s v) (moves bank s u)]> (m_moveList s))
    as [Hco Hml].
  { subst s3.
    rewrite (keeps_forEachAdjacent bank m_coalescedTmps),
            (keeps_forEachAdjacent bank m_moveList).
    - subst s2 s1. unfold moves. by destruct (HashSet.contains v (m_freezeWorklist s)).
    - intros t s'. by rewrite (untouched_decrementDegree bank m_moveList),
                              (untouched_addEdge target bank m_moveList).
    - intros t s'. by rewrite (untouched_decrementDegree bank m_coalescedTmps),
                              (untouched_addEdge target bank m_coalescedTmps). }
  assert (∀ b, isInt b → b ∈ adjacency bank s v →
               hasBeenSimplified bank s b = false → b ≠ v → b ≠ u →
               interfere s3 b u = true) as Hedges.
  { intros b Hb Hin Hsimplified Hbv Hbu. subst s3. unfold forEachAdjacent.
    apply combineLoop_edges; [|  |done].
    - subst s2 s1. unfold adjacency in *.
      by destruct (HashSet.contains v (m_freezeWorklist s)).
    - assert (m_isOnSelectStack s2 = m_isOnSelectStack s
              ∧ m_coalescedTmps s2 = <[absoluteIndex bank v := u]> (m_coalescedTmps s))
        as [Hst2 Hco2].
      { subst s2 s1. by destruct (HashSet.contains v (m_freezeWorklist s)). }
      unfold hasBeenSimplified, isOnSelectStack, coalescedTmp in *.
      rewrite Hst2, Hco2, lookup_insert_ne; [done|].
      intros Hi. apply Hbv. symmetry. by apply (absoluteIndex_inj bank). }
  assert (∀ s4, m_coalescedTmps s4 = m_coalescedTmps s3 →
                m_moveList s4 = m_moveList s3 →
                m_interferenceEdges s4 = m_interferenceEdges s3 →
                coalescedTmp bank s4 v = u
                ∧ (∀ inst, inst ∈ moves bank s v → inst ∈ moves bank s4 u)
                ∧ (∀ b, isInt b → b ∈ adjacency bank s v →
                        hasBeenSimplified bank s b = false → b ≠ v → b ≠ u →
                        interfere s4 b u = true)) as Hfinal.
  { intros s4 H1 H2 H3. unfold coalescedTmp, moves, interfere in *.
    rewrite H1, H2, H3, Hco, Hml, !lookup_insert_eq. cbn [default from_option id].
    split_and!; [done| |done].
    intros inst Hin. apply elem_of_addAll. by left. }
  destruct (_ && _); by apply Hfinal.
Qed.

End Bank.

Lemma simplify_lowers_the_degrees_witness :
  degree GP (simplify GP (Examples.graphOf GP Programs.coloringProgram)) 1
  = if decide (1 ∈ adjacency GP (Examples.graphOf GP Programs.coloringProgram) 6)
    then if hasBeenSimplified GP (Examples.graphOf GP Programs.coloringProgram) 1
         then degree GP (Examples.graphOf GP Programs.coloringProgram) 1
         else (degree GP (Examples.graphOf GP Programs.coloringProgram) 1 - 1) mod 2 ^ 32
    else degree GP (Examples.graphOf GP Programs.coloringProgram) 1.
Proof.
  apply (simplify_lowers_the_degrees Examples.demoTarget GP
           (Examples.graphOf GP Programs.coloringProgram) [4; 5] 6 1).
  - apply graphOf_consistent, codeWellFormed_forallb. vm_compute. reflexivity.
  - vm_compute. reflexivity.
  - unfold isInt. lia.
  - unfold isInt. lia.
Defined.

Lemma combine_hands_over_to_u_witness :
  coalescedTmp GP
    (combine Examples.demoTarget GP 4 5 (Examples.graphOf GP Examples.freezeProgram)) 5
  = 4.
Proof.
  apply (combine_hands_over_to_u Examples.demoTarget GP 4 5
           (Examples.graphOf GP Examples.freezeProgram)).
  unfold isInt. lia.
Defined.

End NeighbourFacts.

(** ** Facts about the rewriter *)

Module RewriterFacts.
Import IRC Rewriter HashSetFacts IRCFacts.

Lemma elem_of_concat {A} (x : A) (ls : list (list A)) :
  x ∈ concat ls ↔ ∃ l, x ∈ l ∧ l ∈ ls.
Proof.
  induction ls as [|l ls IH]; cbn [concat].
  - split; [by intros ?%elem_of_nil|]. by intros (l & _ & ?%elem_of_nil).
  - rewrite elem_of_app, IH. split.
    + intros [?|(l' & ? & ?)]; [exists l; split; [done|left]|].
      exists l'. split; [done|by right].
    + intros (l' & Hx & [->|?]%elem_of_cons); [by left|right; eauto].
Qed.

Section Bank.
Variable target : Target.
Variable bank : ArgType.

(** The registers of the priority order are registers, there is one at
    least, and the allocator has written none but these. *)
Section Registers.
Variable allocator : Allocator.
Hypothesis regs_nonempty : regsInPriorityOrder target bank ≠ [].
Hypothesis regs_isReg : ∀ r, r ∈ regsInPriorityOrder target bank → isReg target r = true.
Hypothesis colored_regs :
  ∀ i r, m_coloredTmp allocator !! i = Some r → r ∈ regsInPriorityOrder target bank.

Lemma allocatedReg_isReg tmp : isReg target (allocatedReg target bank allocator tmp) = true.
Proof.
  unfold allocatedReg, coloredTmp. cbv zeta.
  destruct (m_coloredTmp allocator !! absoluteIndex bank tmp) as [r|] eqn:Hr; cbn.
  - case_decide; [|by eapply regs_isReg, colored_regs].
    destruct (regsInPriorityOrder target bank) as [|r0 regs] eqn:Hregs; [done|]. cbn.
    apply regs_isReg. left.
  - rewrite decide_True by done.
    destruct (regsInPriorityOrder target bank) as [|r0 regs] eqn:Hregs; [done|]. cbn.
    apply regs_isReg. left.
Qed.

Lemma assignedTmp_isReg tmp tmp' :
  assignedTmp target bank allocator tmp = Some tmp' →
  inBank bank tmp' = true → isReg target tmp' = true.
Proof.
  unfold assignedTmp.
  destruct (isReg target tmp) eqn:Hreg; cbn [orb]; [by intros [= <-]|].
  case_bool_decide as Hbank.
  - intros [= <-]. unfold inBank. rewrite bool_decide_eq_true, Hbank.
    by destruct bank; repeat case_bool_decide.
  - destruct (getAlias bank allocator tmp) as [aliasTmp|]; [|done]. cbn.
    intros [= <-] _. destruct (isReg target aliasTmp) eqn:Halias; [done|].
    apply allocatedReg_isReg.
Qed.

Lemma assignOperand_isReg o o' tmp role argType :
  assignOperand target bank allocator o = Some o' →
  (tmp, role, argType) ∈ operandTmps o' →
  inBank bank tmp = true → isReg target tmp = true.
Proof.
  unfold assignOperand, operandTmps.
  destruct (arg o) as [t| |base offset|] eqn:Harg.
  - destruct (assignedTmp target bank allocator t) as [t'|] eqn:Ht; [|done]. cbn.
    intros [= <-]. cbn. intros [= -> _ _]%list_elem_of_singleton.
    by eapply assignedTmp_isReg.
  - intros [= <-]. rewrite Harg. by intros ?%elem_of_nil.
  - destruct (assignedTmp target bank allocator base) as [t'|] eqn:Ht; [|done]. cbn.
    intros [= <-]. cbn. intros [= -> _ _]%list_elem_of_singleton.
    by eapply assignedTmp_isReg.
  - intros [= <-]. rewrite Harg. by intros ?%elem_of_nil.
Qed.

Lemma assignInst_isReg inst inst' tmp role argType :
  assignInst target bank allocator inst = Some inst' →
  (tmp, role, argType) ∈ instTmps inst' →
  inBank bank tmp = true → isReg target tmp = true.
Proof.
  unfold assignInst.
  destruct (mapM _ (args inst)) as [args'|] eqn:Hargs; [|done]. cbn.
  intros [= <-]. unfold instTmps. cbn [args].
  intros (l & Hl & Hin)%elem_of_concat.
  apply list_elem_of_fmap in Hin as (o' & -> & Ho').
  apply mapM_Some_1 in Hargs.
  apply list_elem_of_lookup in Ho' as [i Hi].
  destruct (Forall2_lookup_r _ _ _ _ _ Hargs Hi) as (o & _ & Ho).
  by eapply assignOperand_isReg.
Qed.

End Registers.

(** X19. When the registers of the priority order are registers, there is
    one at least, and the allocator has written none but these, the program
    that [assignRegisterToTmpInProgram] returns has a register wherever it had
    a temporary of the bank, and none of its instructions is a move of the
    bank from a temporary to itself; the blocks, the counters and the stack
    slots are as many as before. *)
Theorem assignRegisterToTmpInProgram_gives_registers
    (code code' : Code) (allocator : Allocator) :
  regsInPriorityOrder target bank ≠ [] →
  (∀ r, r ∈ regsInPriorityOrder target bank → isReg target r = true) →
  (∀ i r, m_coloredTmp allocator !! i = Some r → r ∈ regsInPriorityOrder target bank) →
  assignRegisterToTmpInProgram target bank code allocator = Some code' →
  (∀ block inst, block ∈ blocks code' → inst ∈ block →
     isUselessMoveInst bank inst = false
     ∧ ∀ tmp role argType, (tmp, role, argType) ∈ instTmps inst →
         inBank bank tmp = true → isReg target tmp = true)
  ∧ length (blocks code') = length (blocks code)
  ∧ numGPTmps code' = numGPTmps code
  ∧ numFPTmps code' = numFPTmps code
  ∧ stackSlots code' = stackSlots code.
Proof.
  intros Hnonempty Hregs Hcolored. unfold assignRegisterToTmpInProgram.
  destruct (mapM _ (blocks code)) as [blocks'|] eqn:Hblocks; [|done]. cbn.
  intros [= <-]. cbn [blocks set_blocks numGPTmps numFPTmps stackSlots].
  split_and!; [|by erewrite <- length_mapM|done..].
  intros block' inst' Hblock' Hinst'.
  apply mapM_Some_1 in Hblocks.
  apply list_elem_of_lookup in Hblock' as [i Hi].
  destruct (Forall2_lookup_r _ _ _ _ _ Hblocks Hi) as (block & _ & Hblock).
  destruct (mapM _ block) as [insts|] eqn:Hinsts; [|done].
  cbn in Hblock. injection Hblock as <-.
  apply list_elem_of_filter in Hinst' as [Huseless Hinst'].
  split; [done|].
  apply mapM_Some_1 in Hinsts.
  apply list_elem_of_lookup in Hinst' as [j Hj].
  destruct (Forall2_lookup_r _ _ _ _ _ Hinsts Hj) as (inst & _ & Hinst).
  intros tmp role argType. by eapply assignInst_isReg.
Qed.

(** X20. [addSpillAndFillToProgram] gives each spilled temporary a stack
    slot of its own: for a set of spilled temporaries without repetition, the
    temporary at position [i] of the iteration gets the slot of index [n + i],
    where [n] is the number of slots that the program had; the program gets
    one slot of 8 bytes per spilled temporary and is otherwise unchanged; and
    no other temporary gets a slot. *)
Theorem allocateSpillSlots_gives_each_a_slot (spilledTmp : list Tmp) (code : Code) :
  NoDup spilledTmp →
  stackSlots (allocateSpillSlots spilledTmp code).2
  = stackSlots code ++ replicate (length spilledTmp) 8
  ∧ blocks (allocateSpillSlots spilledTmp code).2 = blocks code
  ∧ numGPTmps (allocateSpillSlots spilledTmp code).2 = numGPTmps code
  ∧ numFPTmps (allocateSpillSlots spilledTmp code).2 = numFPTmps code
  ∧ (∀ (i : nat) tmp, spilledTmp !! i = Some tmp →
       (allocateSpillSlots spilledTmp code).1 !! tmp
       = Some (N.of_nat (length (stackSlots code) + i)))
  ∧ (∀ tmp, tmp ∉ spilledTmp → (allocateSpillSlots spilledTmp code).1 !! tmp = None).
Proof.
  unfold allocateSpillSlots.
  induction spilledTmp as [|x l IH] using rev_ind; intros Hnodup.
  { cbn [foldl]. rewrite app_nil_r. split_and!; try done. }
  apply NoDup_app in Hnodup as (Hl & Hx & _).
  destruct (IH Hl) as (Hslots & Hblocks & Hgp & Hfp & Hin & Hout). clear IH.
  rewrite foldl_snoc.
  destruct (foldl _ _ l) as [slots code1]. cbn [fst snd] in *.
  unfold addStackSlot. cbn [fst snd stackSlots blocks numGPTmps numFPTmps].
  assert (slots !! x = None) as Hnone.
  { apply Hout. intros Hxl. apply (Hx x Hxl). by apply list_elem_of_singleton. }
  rewrite Hnone. split_and!; try done.
  - rewrite Hslots, length_app. cbn [length]. rewrite Nat.add_1_r, replicate_S_end.
    by rewrite app_assoc.
  - intros i tmp Hi. apply lookup_app_Some in Hi as [Hi|[Hlen Hi]].
    + rewrite lookup_insert_ne; [by apply Hin|].
      intros <-. apply (Hx x); [by eapply list_elem_of_lookup_2|].
      by apply list_elem_of_singleton.
    + apply list_lookup_singleton_Some in Hi as [Hi <-].
      rewrite lookup_insert_eq, Hslots, length_app, length_replicate.
      do 2 f_equal. lia.
  - intros tmp Htmp. rewrite lookup_insert_ne.
    + apply Hout. intros ?. apply Htmp, elem_of_app. by left.
    + intros <-. apply Htmp, elem_of_app. right. by apply list_elem_of_singleton.
Qed.

(** The insertions [acc] made for an instruction of origin [origin] on the
    program [code]: fills from a stack slot before, spills to a stack slot
    after, one new temporary of the bank per fill, and nothing else. *)
Local Abbreviation wellShaped code origin acc :=
  (Forall (λ m, ∃ slot tmp, m = moveInst target bank origin (ArgStack slot) (ArgTmp tmp))
          (before acc)
   ∧ Forall (λ m, ∃ slot tmp, m = moveInst target bank origin (ArgTmp tmp) (ArgStack slot))
            (after acc)
   ∧ (∀ b, numTmps (updatedCode acc) b
           = numTmps code b
             + if decide (b = bank) then Z.of_nat (length (before acc)) else 0)
   ∧ stackSlots (updatedCode acc) = stackSlots code
   ∧ blocks (updatedCode acc) = blocks code).





End Bank.

Lemma allocateSpillSlots_gives_each_a_slot_witness :
  stackSlots (allocateSpillSlots [4; -3] (Examples.codeOf [] 1 0)).2
  = stackSlots (Examples.codeOf [] 1 0) ++ replicate (length [4; -3]) 8
  ∧ (allocateSpillSlots [4; -3] (Examples.codeOf [] 1 0)).1 !! (-3)
    = Some (N.of_nat (length (stackSlots (Examples.codeOf [] 1 0)) + 1)).
Proof.
  destruct (allocateSpillSlots_gives_each_a_slot [4; -3] (Examples.codeOf [] 1 0))
    as (Hslots & _ & _ & _ & Hin & _).
  - apply NoDup_cons. split; [|apply NoDup_singleton].
    intros Hin%list_elem_of_singleton. discriminate Hin.
  - split; [exact Hslots|]. apply (Hin 1%nat (-3)). reflexivity.
Defined.

Lemma assignRegisterToTmpInProgram_gives_registers_witness :
  ∃ allocator code',
    allocate Examples.demoTarget GP 20
      (Driver.buildCode Examples.demoTarget GP
         (Examples.blockLiveness Programs.coloringProgram) Programs.coloringProgram)
    = Some allocator
    ∧ assignRegisterToTmpInProgram Examples.demoTarget GP Programs.coloringProgram allocator
      = Some code'
    ∧ (∀ block inst, block ∈ blocks code' → inst ∈ block →
         isUselessMoveInst GP inst = false
         ∧ ∀ tmp role argType, (tmp, role, argType) ∈ instTmps inst →
             inBank GP tmp = true → isReg Examples.demoTarget tmp = true).
Proof.
  assert (regsInPriorityOrder Examples.demoTarget GP ≠ []) as Hnonempty.
  { vm_compute. discriminate. }
  assert (∀ r, r ∈ regsInPriorityOrder Examples.demoTarget GP →
               isReg Examples.demoTarget r = true) as Hregs.
  { intros r Hr. vm_compute in Hr.
    repeat (apply elem_of_cons in Hr as [->|Hr]; [reflexivity|]).
    apply elem_of_nil in Hr. destruct Hr. }
  assert (∃ allocator code',
            allocate Examples.demoTarget GP 20
              (Driver.buildCode Examples.demoTarget GP
                 (Examples.blockLiveness Programs.coloringProgram) Programs.coloringProgram)
            = Some allocator
            ∧ assignRegisterToTmpInProgram Examples.demoTarget GP
                Programs.coloringProgram allocator = Some code'
            ∧ map_Forall (λ _ r, r ∈ regsInPriorityOrder Examples.demoTarget GP)
                (m_coloredTmp allocator))
    as (allocator & code' & Hallocate & Hassign & Hcolored).
  { eexists. eexists. split; [vm_compute; reflexivity|].
    split; [vm_compute; reflexivity|].
    apply (bool_decide_unpack _). vm_compute. exact I. }
  exists allocator, code'. split; [exact Hallocate|]. split; [exact Hassign|].
  destruct (assignRegisterToTmpInProgram_gives_registers Examples.demoTarget GP
              Programs.coloringProgram code' allocator Hnonempty Hregs Hcolored Hassign)
    as [Hall _].
  exact Hall.
Defined.

End RewriterFacts.

(** ** More of constant motion *)

Module ConstTableFacts.
Import MoveConstants MoveConstantsFacts.

(** The slots of a table are the numbers below its size, each the slot of
    one key. *)
Local Abbreviation dense table :=
  ((∀ k slot, table !! k = Some slot → Nat.lt slot (size table))
   ∧ (∀ k1 k2 slot, table !! k1 = Some slot → table !! k2 = Some slot → k1 = k2)
   ∧ (∀ slot, Nat.lt slot (size table) → ∃ k, table !! k = Some slot)).

Lemma collectConstant_dense acc value :
  dense acc.2 → dense (collectConstant acc value).2.
Proof.
  destruct acc as [toRemove table]. cbn [snd]. intros (Hlt & Hinj & Hdense).
  unfold collectConstant. destruct (negb (needsMotion value)); [done|]. cbv zeta.
  destruct (goesInTable (key value)); [|done]. cbn [snd].
  destruct (table !! key value) as [slot|] eqn:Hslot; [done|].
  rewrite map_size_insert_None by done. split_and!.
  - intros k slot. rewrite lookup_insert. case_decide.
    + intros [= <-]. lia.
    + intros Hk%Hlt. lia.
  - intros k1 k2 slot. rewrite !lookup_insert. repeat case_decide; simplify_eq; try done.
    + intros [= <-] Hk%Hlt. lia.
    + intros Hk%Hlt [= <-]. lia.
    + apply Hinj.
  - intros slot Hs. destruct (decide (slot = size table)) as [->|Hne].
    + exists (key value). by rewrite lookup_insert_eq.
    + destruct (Hdense slot) as [k Hk]; [lia|]. exists k.
      rewrite lookup_insert_ne; [done|]. intros <-. by rewrite Hslot in Hk.
Qed.

Lemma collectConstants_dense values acc :
  dense acc.2 → dense (foldl collectConstant acc values).2.
Proof.
  revert acc. induction values as [|value values IH]; intros acc Hacc; [done|].
  cbn [foldl]. by apply IH, collectConstant_dense.
Qed.

Lemma constTable_dense values : dense (constTable values).
Proof.
  unfold constTable, collectConstants. apply collectConstants_dense. cbn [snd].
  split_and!.
  - intros k slot. by rewrite lookup_empty.
  - intros k1 k2 slot. by rewrite lookup_empty.
  - intros slot. rewrite map_size_empty. lia.
Qed.

(** The data section of a table whose slots belong to one key each. *)
Lemma dataSection_of_table (table : gmap ValueKey nat) :
  (∀ k1 k2 slot, table !! k1 = Some slot → table !! k2 = Some slot → k1 = k2) →
  ∀ slot bits,
    map_fold (λ key slot section, <[slot := keyValue key]> section) (∅ : gmap nat Z) table
      !! slot = Some bits
    ↔ ∃ k, table !! k = Some slot ∧ keyValue k = bits.
Proof.
  apply (map_fold_weak_ind
    (λ (section : gmap nat Z) (table : gmap ValueKey nat),
       (∀ k1 k2 slot, table !! k1 = Some slot → table !! k2 = Some slot → k1 = k2) →
       ∀ slot bits, section !! slot = Some bits
                    ↔ ∃ k, table !! k = Some slot ∧ keyValue k = bits)).
  - intros _ slot bits. rewrite lookup_empty. split; [done|].
    intros (k & Hk & _). by rewrite lookup_empty in Hk.
  - intros i x m section Hnone IH Hinj slot bits.
    assert (∀ k1 k2 slot, m !! k1 = Some slot → m !! k2 = Some slot → k1 = k2) as Hinj_m.
    { intros k1 k2 s H1 H2. apply (Hinj k1 k2 s); rewrite lookup_insert_ne; try done.
      - intros <-. by rewrite Hnone in H1.
      - intros <-. by rewrite Hnone in H2. }
    specialize (IH Hinj_m).
    destruct (decide (slot = x)) as [->|Hne].
    + rewrite lookup_insert_eq. split.
      * intros [= <-]. exists i. by rewrite lookup_insert_eq.
      * intros (k & Hk & <-). f_equal. f_equal.
        apply (Hinj i k x); [by rewrite lookup_insert_eq|done].
    + rewrite lookup_insert_ne by done. rewrite IH. split.
      * intros (k & Hk & <-). exists k. split; [|done].
        rewrite lookup_insert_ne; [done|]. intros <-. by rewrite Hnone in Hk.
      * intros (k & Hk & <-). exists k. split; [|done].
        rewrite lookup_insert in Hk. case_decide; [|done]. by simplify_eq.
Qed.

(** X22. The slots that [run] gives to the keys of the constant table are
    the numbers below the size of the table, each the slot of exactly one
    key; and the data section holds at the slot of a key the bit pattern of
    the key, and nothing at any other index. *)
Theorem dataSection_holds_the_table (values : list Value) :
  (∀ k slot, constTable values !! k = Some slot →
     (slot < size (constTable values))%nat
     ∧ dataSection values !! slot = Some (keyValue k))
  ∧ (∀ k1 k2 slot, constTable values !! k1 = Some slot →
       constTable values !! k2 = Some slot → k1 = k2)
  ∧ (∀ slot, (slot < size (constTable values))%nat ↔ is_Some (dataSection values !! slot)).
Proof.
  destruct (constTable_dense values) as (Hlt & Hinj & Hdense).
  pose proof (dataSection_of_table (constTable values) Hinj) as Hdata.
  split_and!.
  - intros k slot Hk. split; [by eapply Hlt|]. apply Hdata. by exists k.
  - done.
  - intros slot. split.
    + intros (k & Hk)%Hdense. exists (keyValue k). apply Hdata. by exists k.
    + intros (bits & (k & Hk & _)%Hdata). by eapply Hlt.
Qed.

(** X23. [m_toRemove] lists the values that need motion, and only them, in
    the order of the procedure. *)
Theorem toRemove_lists_the_moved_constants (values : list Value) :
  (collectConstants values).1 = filter (λ value, needsMotion value = true) values.
Proof.
  unfold collectConstants.
  assert (∀ acc, (foldl collectConstant acc values).1
                 = acc.1 ++ filter (λ value, needsMotion value = true) values) as Hfold.
  { induction values as [|value values IH]; intros acc; cbn [foldl].
    - by rewrite app_nil_r.
    - rewrite IH, filter_cons. destruct acc as [toRemove table]. unfold collectConstant.
      destruct (needsMotion value); cbn [negb fst].
      + rewrite decide_True by done. cbv zeta.
        destruct (goesInTable (key value)); cbn [fst]; by rewrite <- app_assoc.
      + by rewrite decide_False by done. }
  by rewrite Hfold.
Qed.

End ConstTableFacts.

(** ** One materialization of a key in a block *)

Module MaterializeFacts.
Import MoveConstants Materialize.

Lemma cacheMatches_empty n :
  cacheMatches {| m_constants := ∅; m_insertionSet := []; numValues := n |}.
Proof.
  split_and!; cbn [m_constants m_insertionSet numValues].
  - intros k r. by rewrite lookup_empty.
  - intros ins. by intros ?%elem_of_nil.
  - intros k1 k2 r. by rewrite lookup_empty.
  - by rewrite map_size_empty.
  - constructor.
  - intros ins. by intros ?%elem_of_nil.
Qed.

Section Pass.
Variable m_constTable : gmap ValueKey nat.
Variable tableBaseKey : ValueKey.
Variable wordSize : Z.
Hypothesis tableBase_inline : goesInTable tableBaseKey = false.

(** [st'] comes after [st] in a block: the cache and the insertion set have
    only grown. *)
Local Abbreviation later st st' :=
  (m_constants st ⊆ m_constants st'
   ∧ m_insertionSet st `prefix_of` m_insertionSet st'
   ∧ Nat.le (numValues st) (numValues st')).

Lemma later_refl st : later st st.
Proof. done. Qed.

Lemma later_trans st1 st2 st3 : later st1 st2 → later st2 st3 → later st1 st3.
Proof.
  intros (H1 & H2 & H3) (H4 & H5 & H6). split_and!; [by etrans|by etrans|].
  unfold Nat.le in *. lia.
Qed.

(** A key that is not in the cache gets a value of its own. *)
Lemma cacheMatches_insert valueIndex key made st :
  cacheMatches st → m_constants st !! key = None → madeFor key made →
  cacheMatches (addConstant key (numValues st) (insertValue valueIndex made st).2)
  ∧ m_constants (addConstant key (numValues st) (insertValue valueIndex made st).2) !! key
    = Some (numValues st)
  ∧ later st (addConstant key (numValues st) (insertValue valueIndex made st).2).
Proof.
  intros (Hentries & Hinsertions & Hinj & Hsize & Hnodup & Hbelow) Hnone Hmade.
  unfold addConstant, insertValue.
  cbn [snd m_constants m_insertionSet numValues]. rewrite Hnone.
  split_and!.
  - split_and!; cbn [m_constants m_insertionSet numValues].
    + intros k r. rewrite lookup_insert. case_decide as Hk.
      * intros [= <-]. subst k. eexists. split; [apply elem_of_app; right; left|]. done.
      * intros (ins & Hin & Hr & Hm)%Hentries. exists ins.
        split; [apply elem_of_app; by left|done].
    + intros ins [Hin|Hin]%elem_of_app.
      * destruct (Hinsertions ins Hin) as [k Hk]. exists k.
        rewrite lookup_insert_ne; [done|]. intros <-. by rewrite Hnone in Hk.
      * apply list_elem_of_singleton in Hin as ->. exists key.
        by rewrite lookup_insert_eq.
    + intros k1 k2 r. rewrite !lookup_insert.
      repeat case_decide; simplify_eq; try done.
      * intros [= <-] (ins & Hin & Hr & _)%Hentries.
        specialize (Hbelow ins Hin). lia.
      * intros (ins & Hin & Hr & _)%Hentries [= <-].
        specialize (Hbelow ins Hin). lia.
      * apply Hinj.
    + rewrite length_app, map_size_insert_None by done. cbn [length]. lia.
    + rewrite fmap_app. apply NoDup_app. split_and!; [done| |apply NoDup_singleton].
      intros r (ins & -> & Hin)%list_elem_of_fmap Hr%list_elem_of_singleton.
      cbn in Hr. specialize (Hbelow ins Hin). lia.
    + intros ins [Hin|Hin]%elem_of_app.
      * specialize (Hbelow ins Hin). lia.
      * apply list_elem_of_singleton in Hin as ->. cbn. lia.
  - by rewrite lookup_insert_eq.
  - by apply insert_subseteq.
  - by apply prefix_app_r.
  - unfold Nat.le. lia.
Qed.

Lemma madeFor_inline key : goesInTable key = false → madeFor key (KeyConstant key).
Proof. by intros Hkey. Qed.

(** A key that does not go in the table. *)
Lemma materialize_inline fuel valueIndex key st :
  goesInTable key = false → cacheMatches st →
  ∃ result st',
    materialize m_constTable tableBaseKey wordSize (S fuel) valueIndex key st
    = Some (result, st')
    ∧ cacheMatches st'
    ∧ m_constants st' !! key = Some result
    ∧ later st st'
    ∧ ∀ k, k ≠ key → m_constants st' !! k = m_constants st !! k.
Proof.
  intros Hkey Hst. cbn [materialize].
  destruct (m_constants st !! key) as [result|] eqn:Hcached.
  { exists result, st. by split_and!. }
  rewrite Hkey.
  destruct (cacheMatches_insert valueIndex key (KeyConstant key) st Hst Hcached
              (madeFor_inline key Hkey)) as (Hst' & Hkey' & Hlater).
  unfold insertValue in *. cbn [fst snd] in *.
  eexists _, _. split; [reflexivity|]. split_and!; try done.
  - apply Hlater.
  - apply Hlater.
  - apply Hlater.
  - intros k Hk. unfold addConstant. cbn [m_constants]. rewrite Hcached.
    by rewrite lookup_insert_ne.
Qed.

(** Any key, with fuel for the table base. *)
Lemma materialize_spec fuel valueIndex key st :
  cacheMatches st →
  ∃ result st',
    materialize m_constTable tableBaseKey wordSize (S (S fuel)) valueIndex key st
    = Some (result, st')
    ∧ cacheMatches st'
    ∧ m_constants st' !! key = Some result
    ∧ later st st'.
Proof.
  intros Hst. destruct (goesInTable key) eqn:Hkey.
  2: { destruct (materialize_inline (S fuel) valueIndex key st Hkey Hst)
         as (result & st' & H1 & H2 & H3 & H4 & _).
       by exists result, st'. }
  cbn [materialize].
  destruct (m_constants st !! key) as [result|] eqn:Hcached.
  { exists result, st. by split_and!. }
  rewrite Hkey.
  destruct (materialize_inline fuel valueIndex tableBaseKey st tableBase_inline Hst)
    as (tableBase & st1 & Hbase & Hst1 & _ & Hlater1 & Hother).
  cbn [materialize] in Hbase. rewrite Hbase.
  assert (m_constants st1 !! key = None) as Hcached1.
  { rewrite Hother; [done|]. intros ->. congruence. }
  destruct (cacheMatches_insert valueIndex key
              (TableLoad (keyType key) tableBase
                 (wordSize * Z.of_nat (default 0%nat (m_constTable !! key))))
              st1 Hst1 Hcached1) as (Hst' & Hkey' & Hlater); [done|].
  unfold insertValue in *. cbn [fst snd] in *.
  eexists _, _. split; [reflexivity|]. split_and!; [done|done|..].
  - etrans; [apply Hlater1|apply Hlater].
  - etrans; [apply Hlater1|apply Hlater].
  - destruct Hlater1 as (_ & _ & ?), Hlater as (_ & _ & ?). unfold Nat.le in *.
    cbn [numValues addConstant] in *. lia.
Qed.

Lemma moveChild_spec fuel values valueIndex child st :
  cacheMatches st →
  ∃ child' st',
    moveChild m_constTable tableBaseKey wordSize (S (S fuel)) values valueIndex child st
    = Some (child', st')
    ∧ cacheMatches st' ∧ later st st' ∧ childMoved values st' child child'.
Proof.
  intros Hst. unfold moveChild, childMoved.
  destruct (values !! child) as [childValue|]; [|by exists child, st].
  destruct (needsMotion childValue); cbn [negb]; [|by exists child, st].
  destruct (materialize_spec fuel valueIndex (key childValue) st Hst)
    as (result & st' & -> & ? & ? & ?).
  by exists result, st'.
Qed.

Lemma childMoved_later values st st' child child' :
  m_constants st ⊆ m_constants st' →
  childMoved values st child child' → childMoved values st' child child'.
Proof.
  intros Hsub. unfold childMoved. destruct (values !! child) as [childValue|]; [|done].
  destruct (needsMotion childValue); [|done].
  intros Hc. by eapply lookup_weaken.
Qed.

Lemma moveChildren_spec fuel values valueIndex children st :
  cacheMatches st →
  ∃ children' st',
    moveChildren m_constTable tableBaseKey wordSize (S (S fuel)) values valueIndex
      children st = Some (children', st')
    ∧ cacheMatches st' ∧ later st st'
    ∧ Forall2 (childMoved values st') children children'.
Proof.
  revert st. induction children as [|child children IH]; intros st Hst.
  { exists [], st. split_and!; try done; constructor. }
  cbn [moveChildren].
  destruct (moveChild_spec fuel values valueIndex child st Hst)
    as (child' & st1 & -> & Hst1 & Hlater1 & Hchild).
  destruct (IH st1 Hst1) as (children' & st' & -> & Hst' & Hlater & Hall).
  exists (child' :: children'), st'. split; [done|]. split; [done|].
  split; [by eapply later_trans|].
  constructor; [|done]. eapply childMoved_later; [apply Hlater|done].
Qed.

Lemma moveValues_spec fuel values valueIndex block st :
  cacheMatches st →
  ∃ rewritten st',
    moveValues m_constTable tableBaseKey wordSize (S (S fuel)) values valueIndex block st
    = Some (rewritten, st')
    ∧ cacheMatches st' ∧ later st st'
    ∧ Forall2 (λ value children',
                 Forall2 (childMoved values st')
                         (default [] (children <$> values !! value)) children')
              block rewritten.
Proof.
  revert valueIndex st. induction block as [|value block IH]; intros valueIndex st Hst.
  { exists [], st. split_and!; try done; constructor. }
  cbn [moveValues].
  destruct (moveChildren_spec fuel values valueIndex
              (default [] (children <$> values !! value)) st Hst)
    as (children' & st1 & -> & Hst1 & Hlater1 & Hchildren).
  destruct (IH (S valueIndex) st1 Hst1) as (rest & st' & -> & Hst' & Hlater & Hall).
  exists (children' :: rest), st'. split; [done|]. split; [done|].
  split; [by eapply later_trans|].
  constructor; [|done].
  eapply Forall2_impl; [exact Hchildren|].
  intros child child'. apply childMoved_later, Hlater.
Qed.

(** X24. With a table base that is materialized inline, [materialize] returns
    for every key, from every state of a block in which the cache and the
    insertion set go together: the value it returns is the entry of the key in
    the cache, the cache and the insertion set have only grown and still go
    together, and asking for the key again returns the same value and
    inserts nothing. *)
Theorem materialize_once_per_key (valueIndex : nat) (key : ValueKey) (st : State) :
  cacheMatches st →
  ∃ result st',
    materialize m_constTable tableBaseKey wordSize 2 valueIndex key st = Some (result, st')
    ∧ m_constants st' !! key = Some result
    ∧ cacheMatches st'
    ∧ m_constants st ⊆ m_constants st'
    ∧ m_insertionSet st `prefix_of` m_insertionSet st'
    ∧ ∀ fuel valueIndex',
        materialize m_constTable tableBaseKey wordSize (S fuel) valueIndex' key st'
        = Some (result, st').
Proof.
  intros Hst.
  destruct (materialize_spec 0 valueIndex key st Hst)
    as (result & st' & Hm & Hst' & Hkey & Hsub & Hprefix & _).
  exists result, st'. split_and!; try done.
  intros fuel valueIndex'. cbn [materialize]. by rewrite Hkey.
Qed.

(** X25. With a table base that is materialized inline, the pass over a block
    returns, from an empty cache; afterwards there are as many insertions as
    keys in the cache, no two keys share a value, every entry of the cache
    names a value that one insertion has made for its key, and every child
    that needed motion has given way to the entry of its key, so that two
    uses of one constant in the block share one materialization. *)
Theorem moveBlock_one_materialization_per_key
    (values : list Value) (block : list nat) (n : nat) :
  ∃ rewritten st,
    moveBlock m_constTable tableBaseKey wordSize 2 values block n = Some (rewritten, st)
    ∧ length (m_insertionSet st) = size (m_constants st)
    ∧ (∀ key1 key2 result, m_constants st !! key1 = Some result →
         m_constants st !! key2 = Some result → key1 = key2)
    ∧ (∀ key result, m_constants st !! key = Some result →
         ∃ insertion, insertion ∈ m_insertionSet st
                      ∧ inserted insertion = result ∧ madeFor key (made insertion))
    ∧ Forall2 (λ value children',
                 Forall2 (childMoved values st)
                         (default [] (children <$> values !! value)) children')
              block rewritten.
Proof.
  unfold moveBlock.
  destruct (moveValues_spec 0 values 0 block
              {| m_constants := ∅; m_insertionSet := []; numValues := n |})
    as (rewritten & st & Hrun & (Hentries & _ & Hinj & Hsize & _) & _ & Hall).
  { apply cacheMatches_empty. }
  exists rewritten, st. by split_and!.
Qed.

End Pass.

Lemma materialize_once_per_key_witness :
  ∃ result st',
    materialize (constTable [Examples.bigInt; Examples.plusZero; Examples.pi])
      (Const64, Int64, 4096) 8 2 0 (key Examples.pi)
      {| m_constants := ∅; m_insertionSet := []; numValues := 3 |} = Some (result, st')
    ∧ m_constants st' !! key Examples.pi = Some result
    ∧ cacheMatches st'.
Proof.
  destruct (materialize_once_per_key
              (constTable [Examples.bigInt; Examples.plusZero; Examples.pi])
              (Const64, Int64, 4096) 8 eq_refl 0%nat (key Examples.pi)
              {| m_constants := ∅; m_insertionSet := []; numValues := 3 |}
              (cacheMatches_empty 3))
    as (result & st' & Hm & Hkey & Hst' & _).
  exists result, st'. split; [exact Hm|]. split; [exact Hkey|exact Hst'].
Defined.

Lemma moveBlock_one_materialization_per_key_witness :
  ∃ rewritten st,
    moveBlock (constTable [Examples.pi]) (Const64, Int64, 4096) 8 2
      [Examples.pi;
       {| opcode := Add; type := Double; bits := 0; children := [0; 0]%nat |}]
      [1%nat] 2 = Some (rewritten, st)
    ∧ length (m_insertionSet st) = size (m_constants st).
Proof.
  destruct (moveBlock_one_materialization_per_key
              (constTable [Examples.pi]) (Const64, Int64, 4096) 8 eq_refl
              [Examples.pi;
               {| opcode := Add; type := Double; bits := 0; children := [0; 0]%nat |}]
              [1%nat] 2)
    as (rewritten & st & Hrun & Hsize & _).
  exists rewritten, st. split; [exact Hrun|exact Hsize].
Defined.

(** The double used twice by the sum is loaded once, after the table base. *)
Example one_load_for_two_uses :
  moveBlock (constTable [Examples.pi]) (Const64, Int64, 4096) 8 2
    [Examples.pi; {| opcode := Add; type := Double; bits := 0; children := [0; 0]%nat |}]
    [1%nat] 2
  = Some ([[3; 3]%nat],
          {| m_constants := {[ (Const64, Int64, 4096) := 2%nat; key Examples.pi := 3%nat ]};
             m_insertionSet :=
               [ {| index := 0; inserted := 2; made := KeyConstant (Const64, Int64, 4096) |};
                 {| index := 0; inserted := 3; made := TableLoad Double 2 0 |} ];
             numValues := 4 |}).
Proof. vm_compute. reflexivity. Qed.

End MaterializeFacts.

(** ** The moves that the builder collects *)

Module MoveListFacts.
Import IRC Rewriter Driver HashSetFacts IRCFacts BuildFacts GraphFacts LoopFacts.

(** The elements of a worklist after a loop that may add one per turn. *)
Lemma foldl_elem_of {S A B} (W : S → list B) (Q : A → B → Prop)
    (f : S → A → S) (l : list A) (s : S) (y : B) :
  (∀ s x y, y ∈ W (f s x) ↔ y ∈ W s ∨ Q x y) →
  y ∈ W (foldl f s l) ↔ y ∈ W s ∨ ∃ x, x ∈ l ∧ Q x y.
Proof.
  intros Hf. revert s. induction l as [|x l IH]; intros s; cbn [foldl].
  - split; [by left|]. by intros [?|(x & ?%elem_of_nil & _)].
  - rewrite IH, Hf. split.
    + intros [[?|?]|(x' & ? & ?)]; [by left|right|right].
      * exists x. split; [left|done].
      * exists x'. split; [by right|done].
    + intros [?|(x' & [->|?]%elem_of_cons & ?)]; [by left; left|by left; right|].
      right. by exists x'.
Qed.

Section Bank.
Variable target : Target.
Variable bank : ArgType.

(** The three loops of [build] that add edges write the graph only. *)
Lemma addDefEdges_keeps {X} (field : Allocator → X) inst :
  (∀ a b, keeps field (addEdge target bank a b)) →
  keeps field (addDefEdges target bank inst).
Proof.
  intros H. apply keeps_foldl. intros [[arg role] argType] s.
  destruct (bool_decide (argType ≠ bank)); [done|]. destruct (isDef role); [|done].
  apply (keeps_foldl field). intros [[otherArg role'] argType'] s'.
  destruct (isDef role'); [apply H|done].
Qed.

Lemma addEdges_keeps {X} (field : Allocator → X) inst live :
  (∀ a b, keeps field (addEdge target bank a b)) →
  keeps field (addEdges target bank inst live).
Proof.
  intros H. apply keeps_foldl. intros [[arg role] argType] s.
  destruct (bool_decide (argType = bank) && isDef role); [|done].
  apply (keeps_foldl field). intros liveTmp s'.
  destruct (inBank bank liveTmp); [apply H|done].
Qed.

(** A field that [build] does not write. *)
Lemma build_keeps {X} (field : Allocator → X) inst live s :
  (∀ a b, keeps field (addEdge target bank a b)) →
  (∀ x s, field (set_moveList x s) = field s) →
  (∀ x s, field (set_worklistMoves x s) = field s) →
  field (build target bank inst live s) = field s.
Proof.
  intros Hedge Hml Hwl. unfold build. cbv zeta.
  destruct (mayBeCoalescable bank (pointee inst)).
  2: { by rewrite addEdges_keeps, addDefEdges_keeps. }
  destruct (moveDefUse (pointee inst)) as [defTmp useTmp].
  rewrite addMoveEdges_keeps by done. rewrite Hwl.
  rewrite (keeps_foldl field); [by apply addDefEdges_keeps|].
  intros o s'. unfold addToMoveList. apply Hml.
Qed.

Lemma build_worklistMoves inst live s inst' :
  inst' ∈ m_worklistMoves (build target bank inst live s)
  ↔ inst' ∈ m_worklistMoves s
    ∨ (inst' = inst ∧ mayBeCoalescable bank (pointee inst) = true).
Proof.
  unfold build. cbv zeta. destruct (mayBeCoalescable bank (pointee inst)).
  - destruct (moveDefUse (pointee inst)) as [defTmp useTmp].
    rewrite addMoveEdges_keeps by apply addEdge_keeps_worklistMoves.
    cbn [m_worklistMoves set_worklistMoves]. rewrite elem_of_add.
    rewrite (keeps_foldl m_worklistMoves); [|done].
    rewrite addDefEdges_keeps by apply addEdge_keeps_worklistMoves. tauto.
  - rewrite addEdges_keeps, addDefEdges_keeps by apply addEdge_keeps_worklistMoves.
    split; [by left|]. by intros [?|[_ ?]].
Qed.

Lemma addToMoveList_mono inst tmp s inst' tmp' :
  inst' ∈ moves bank s tmp' → inst' ∈ moves bank (addToMoveList bank inst tmp s) tmp'.
Proof.
  unfold addToMoveList, moves. cbn [m_moveList set_moveList].
  destruct (decide (absoluteIndex bank tmp = absoluteIndex bank tmp')) as [Heq|Hne].
  - rewrite Heq, lookup_insert_eq. cbn. intros Hin. apply elem_of_add. by right.
  - by rewrite lookup_insert_ne.
Qed.

Lemma addToMoveLists_elem inst operands s inst' tmp :
  inst' ∈ moves bank s tmp ∨ (inst' = inst ∧ ∃ o, o ∈ operands ∧ tmp = argTmp (arg o)) →
  inst' ∈ moves bank (foldl (λ s o, addToMoveList bank inst (argTmp (arg o)) s) s operands)
           tmp.
Proof.
  revert s. induction operands as [|o operands IH]; intros s; cbn [foldl].
  - by intros [?|(_ & o & ?%elem_of_nil & _)].
  - intros [Hold|(-> & o' & [->|Ho']%elem_of_cons & ->)]; apply IH.
    + left. by apply addToMoveList_mono.
    + left. apply addToMoveList_elem. by right.
    + right. split; [done|]. by exists o'.
Qed.

Lemma build_moves inst live s inst' tmp :
  inst' ∈ moves bank s tmp
  ∨ (inst' = inst ∧ mayBeCoalescable bank (pointee inst) = true
     ∧ ∃ o, o ∈ args (pointee inst) ∧ tmp = argTmp (arg o)) →
  inst' ∈ moves bank (build target bank inst live s) tmp.
Proof.
  unfold build, moves. cbv zeta. destruct (mayBeCoalescable bank (pointee inst)).
  - destruct (moveDefUse (pointee inst)) as [defTmp useTmp].
    rewrite addMoveEdges_keeps by apply addEdge_keeps_moveList.
    cbn [m_moveList set_worklistMoves]. intros Hin.
    apply addToMoveLists_elem. unfold moves.
    rewrite addDefEdges_keeps by apply addEdge_keeps_moveList.
    destruct Hin as [?|(? & _ & ?)]; [by left|by right].
  - rewrite addEdges_keeps, addDefEdges_keeps by apply addEdge_keeps_moveList.
    by intros [?|(_ & ? & _)].
Qed.

(** What [build] keeps true of the moves: a move of the worklist is on the
    move list of the temporary of each of its arguments. *)
Local Abbreviation listed s :=
  (∀ inst o, inst ∈ m_worklistMoves s → o ∈ args (pointee inst) →
             inst ∈ moves bank s (argTmp (arg o))).

Lemma build_listed inst live s : listed s → listed (build target bank inst live s).
Proof.
  intros Hs inst' o [Hin|[-> Hc]]%build_worklistMoves Ho; apply build_moves.
  - left. by apply Hs.
  - right. split_and!; [done..|]. by exists o.
Qed.

Lemma buildBlock_worklistMoves live blockIndex block s inst :
  inst ∈ m_worklistMoves (buildBlock target bank live blockIndex block s)
  ↔ inst ∈ m_worklistMoves s
    ∨ ∃ instIndex, block !! instIndex = Some (pointee inst)
                   ∧ address inst = (blockIndex, instIndex)
                   ∧ mayBeCoalescable bank (pointee inst) = true.
Proof.
  unfold buildBlock.
  rewrite (foldl_elem_of m_worklistMoves
             (λ '(instIndex, i) inst',
                inst' = {| address := (blockIndex, instIndex); pointee := i |}
                ∧ mayBeCoalescable bank i = true)).
  2: { intros s' [instIndex i] inst'. apply build_worklistMoves. }
  split; (intros [?|Hnew]; [by left|right]).
  - destruct Hnew as ([instIndex i] & Hin & -> & Hc).
    apply elem_of_reverse, elem_of_lookup_imap in Hin as (j & x & [= -> ->] & Hlook).
    by exists j.
  - destruct Hnew as (instIndex & Hlook & Haddr & Hc).
    exists (instIndex, pointee inst). split.
    + apply elem_of_reverse, elem_of_lookup_imap. by exists instIndex, (pointee inst).
    + split; [|done]. destruct inst as [addr i]. cbn in *. by subst addr.
Qed.

Lemma buildBlock_listed live blockIndex block s :
  listed s → listed (buildBlock target bank live blockIndex block s).
Proof.
  unfold buildBlock. generalize (reverse (imap (λ instIndex inst, (instIndex, inst)) block)).
  intros l. revert s. induction l as [|[instIndex i] l IH]; intros s Hs; [done|].
  cbn [foldl]. by apply IH, build_listed.
Qed.

Lemma buildBlock_keeps {X} (field : Allocator → X) live blockIndex block s :
  (∀ a b, keeps field (addEdge target bank a b)) →
  (∀ x s, field (set_moveList x s) = field s) →
  (∀ x s, field (set_worklistMoves x s) = field s) →
  field (buildBlock target bank live blockIndex block s) = field s.
Proof.
  intros Hedge Hml Hwl. unfold buildBlock.
  apply (keeps_foldl field). intros [instIndex i] s'. by apply build_keeps.
Qed.

Lemma buildCode_keeps {X} (field : Allocator → X) live code :
  (∀ a b, keeps field (addEdge target bank a b)) →
  (∀ x s, field (set_moveList x s) = field s) →
  (∀ x s, field (set_worklistMoves x s) = field s) →
  field (buildCode target bank live code)
  = field (newAllocator target bank (numTmps code bank)).
Proof.
  intros Hedge Hml Hwl. unfold buildCode.
  apply (keeps_foldl field). intros [blockIndex block] s'. by apply buildBlock_keeps.
Qed.

Lemma buildCode_worklistMoves live code inst :
  inst ∈ m_worklistMoves (buildCode target bank live code)
  ↔ ∃ blockIndex block instIndex,
      blocks code !! blockIndex = Some block
      ∧ block !! instIndex = Some (pointee inst)
      ∧ address inst = (blockIndex, instIndex)
      ∧ mayBeCoalescable bank (pointee inst) = true.
Proof.
  unfold buildCode.
  rewrite (foldl_elem_of m_worklistMoves
             (λ '(blockIndex, block) inst',
                ∃ instIndex, block !! instIndex = Some (pointee inst')
                             ∧ address inst' = (blockIndex, instIndex)
                             ∧ mayBeCoalescable bank (pointee inst') = true)).
  2: { intros s' [blockIndex block] inst'. apply buildBlock_worklistMoves. }
  cbn [m_worklistMoves newAllocator]. split.
  - intros [?%elem_of_nil|([blockIndex block] & Hin & instIndex & ? & ? & ?)]; [done|].
    apply elem_of_lookup_imap in Hin as (j & x & [= -> ->] & Hlook).
    by exists j, x, instIndex.
  - intros (blockIndex & block & instIndex & Hb & ? & ? & ?). right.
    exists (blockIndex, block). split; [|by exists instIndex].
    apply elem_of_lookup_imap. by exists blockIndex, block.
Qed.

(** X26. When [build] has run over a program, [m_worklistMoves] holds the
    instructions of the program that may be coalesced in the bank, each under
    its place in the program, and no other; each of them is on the move list
    of the temporary of each of its arguments; and no move is active, no
    temporary has an alias, and the select stack and the three worklists of
    temporaries are empty. *)
Theorem build_collects_the_moves (live : nat → nat → list Tmp) (code : Code)
    (inst : InstPtr) :
  (inst ∈ m_worklistMoves (buildCode target bank live code)
   ↔ ∃ blockIndex block instIndex,
       blocks code !! blockIndex = Some block
       ∧ block !! instIndex = Some (pointee inst)
       ∧ address inst = (blockIndex, instIndex)
       ∧ mayBeCoalescable bank (pointee inst) = true)
  ∧ (inst ∈ m_worklistMoves (buildCode target bank live code) →
     ∀ o, o ∈ args (pointee inst) →
          inst ∈ moves bank (buildCode target bank live code) (argTmp (arg o)))
  ∧ m_activeMoves (buildCode target bank live code) = []
  ∧ m_coalescedTmps (buildCode target bank live code) = ∅
  ∧ m_selectStack (buildCode target bank live code) = []
  ∧ m_simplifyWorklist (buildCode target bank live code) = []
  ∧ m_freezeWorklist (buildCode target bank live code) = []
  ∧ m_spillWorklist (buildCode target bank live code) = [].
Proof.
  split_and!.
  - apply buildCode_worklistMoves.
  - intros Hin o Ho. revert inst o Hin Ho. unfold buildCode.
    generalize (imap (λ blockIndex block, (blockIndex, block)) (blocks code)).
    intros l.
    assert (listed (newAllocator target bank (numTmps code bank))) as Hnew.
    { intros inst o. cbn [m_worklistMoves newAllocator]. by intros ?%elem_of_nil. }
    revert Hnew. generalize (newAllocator target bank (numTmps code bank)).
    induction l as [|[blockIndex block] l IH]; intros s Hs; [done|].
    cbn [foldl]. by apply IH, buildBlock_listed.
  - by rewrite (buildCode_keeps m_activeMoves) by (done || apply untouched_addEdge; done).
  - by rewrite (buildCode_keeps m_coalescedTmps) by (done || apply untouched_addEdge; done).
  - by rewrite (buildCode_keeps m_selectStack) by (done || apply untouched_addEdge; done).
  - by rewrite (buildCode_keeps m_simplifyWorklist)
      by (done || apply untouched_addEdge; done).
  - by rewrite (buildCode_keeps m_freezeWorklist) by (done || apply untouched_addEdge; done).
  - by rewrite (buildCode_keeps m_spillWorklist) by (done || apply untouched_addEdge; done).
Qed.

End Bank.
End MoveListFacts.

(** ** From the builder to the end of the main loop *)

Module AllocateFacts.
Import IRC Rewriter Driver Turns GraphInvariant.
Import HashSetFacts IRCFacts BuildFacts AliasFacts.
Import EdgeFacts GraphFacts WorklistFacts LoopFacts LoopGraphFacts MoveListFacts.
Import RewriterFacts.

Section Bank.
Variable target : Target.
Variable bank : ArgType.

(** The graph of a program on entry to the main loop. *)
Lemma ready_graphConsistent live code :
  codeWellFormed live code →
  graphConsistent target bank (makeWorkList target bank (buildCode target bank live code)).
Proof.
  intros Hcode.
  eapply graphConsistent_ext; [by apply makeWorkList_keeps..|].
  apply (buildCode_invariant target bank (graphConsistent target bank) isInt).
  - intros a b s. apply graphConsistent_addEdge.
  - intros s ml wl Hs. by destruct s.
  - unfold isInt. lia.
  - intros blockIndex block instIndex inst Hb Hi.
    by destruct (Hcode _ _ _ _ Hb Hi) as [Hinst Hlive].
  - apply graphConsistent_newAllocator.
Qed.

Lemma argAt_instTmps inst i :
  argIsTmp (argAt inst i) = true →
  ∃ role argType, (argTmp (argAt inst i), role, argType) ∈ instTmps inst.
Proof.
  unfold argAt. destruct (args inst !! i) as [o|] eqn:Ho; [|done].
  intros Htmp. exists (role o), (type o). unfold instTmps.
  apply elem_of_concat. exists (operandTmps o). split.
  - unfold operandTmps. destruct (arg o); try done. cbn. left.
  - apply list_elem_of_fmap. exists o. split; [done|]. by eapply list_elem_of_lookup_2.
Qed.

Lemma mayBeCoalescable_args inst :
  mayBeCoalescable bank inst = true →
  argIsTmp (argAt inst 0) = true ∧ argIsTmp (argAt inst 1) = true.
Proof.
  unfold mayBeCoalescable. destruct bank.
  - destruct (negb _); [done|]. by intros [? ?]%andb_true_iff.
  - destruct (bool_decide _); [done|]. by intros [? ?]%andb_true_iff.
Qed.

Lemma ready_aliasInvariant live code :
  codeWellFormed live code →
  (∀ block inst tmp role argType,
     block ∈ blocks code → inst ∈ block → (tmp, role, argType) ∈ instTmps inst → tmp ≠ 0) →
  aliasInvariant bank (makeWorkList target bank (buildCode target bank live code)).
Proof.
  intros Hcode Hnonzero. apply aliasInvariant_fresh.
  - rewrite makeWorkList_keeps by done.
    by rewrite (buildCode_keeps target bank m_coalescedTmps)
      by (done || apply untouched_addEdge; done).
  - intros inst. unfold liveMove.
    rewrite !makeWorkList_keeps by done.
    rewrite (buildCode_keeps target bank m_activeMoves)
      by (done || apply untouched_addEdge; done).
    cbn [m_activeMoves newAllocator].
    intros [Hin|?%elem_of_nil]; [|done].
    apply buildCode_worklistMoves in Hin
      as (blockIndex & block & instIndex & Hb & Hi & _ & Hc).
    destruct (Hcode _ _ _ _ Hb Hi) as [Hinst _].
    apply mayBeCoalescable_args in Hc as [H0 H1].
    apply argAt_instTmps in H0 as (r0 & t0 & Hin0).
    apply argAt_instTmps in H1 as (r1 & t1 & Hin1).
    assert (block ∈ blocks code) as Hblock by by eapply list_elem_of_lookup_2.
    assert (pointee inst ∈ block) as Hinst' by by eapply list_elem_of_lookup_2.
    split; (split; [by eapply Hnonzero|by eapply Hinst]).
Qed.

(** X28. On a program whose temporaries are values of an [int] and none the
    null temporary, whenever the loop of [allocate] returns, its worklists
    are empty, the adjacency vectors and the edge set are consistent with
    each other, every edge that [build] made is still in the set, and from
    every temporary [getAlias] returns a temporary that has no alias. *)
Theorem allocate_loop_ends_in_order
    (live : nat → nat → list Tmp) (code : Code) (fuel : nat) (s : Allocator) :
  codeWellFormed live code →
  (∀ block inst tmp role argType,
     block ∈ blocks code → inst ∈ block → (tmp, role, argType) ∈ instTmps inst → tmp ≠ 0) →
  mainLoop target bank fuel (makeWorkList target bank (buildCode target bank live code))
  = Some s →
  worklistsEmpty s = true
  ∧ graphConsistent target bank s
  ∧ m_interferenceEdges (buildCode target bank live code) ⊆ m_interferenceEdges s
  ∧ ∀ tmp, ∃ root, getAlias bank s tmp = Some root ∧ coalescedTmp bank s root = 0.
Proof.
  intros Hcode Hnonzero Hloop.
  pose proof (ready_graphConsistent live code Hcode) as Hgraph.
  pose proof (ready_aliasInvariant live code Hcode Hnonzero) as Halias.
  destruct (mainLoop_graph target bank fuel _ s Halias Hgraph Hloop)
    as (Halias' & Hgraph' & Hedges & _).
  split_and!.
  - by eapply mainLoop_worklistsEmpty.
  - done.
  - by rewrite makeWorkList_keeps in Hedges by done.
  - intros tmp.
    destruct (aliasInvariant_getAlias bank s tmp Halias') as (n & root & _ & ? & ? & _).
    by exists root.
Qed.

End Bank.

Lemma allocate_loop_ends_in_order_witness :
  ∃ s,
    mainLoop Examples.demoTarget GP 20
      (makeWorkList Examples.demoTarget GP
         (buildCode Examples.demoTarget GP
            (Examples.blockLiveness Examples.freezeProgram) Examples.freezeProgram))
    = Some s
    ∧ worklistsEmpty s = true
    ∧ graphConsistent Examples.demoTarget GP s.
Proof.
  assert (codeWellFormed (Examples.blockLiveness Examples.freezeProgram)
            Examples.freezeProgram) as Hcode.
  { apply codeWellFormed_forallb. vm_compute. reflexivity. }
  assert (∀ block inst tmp role argType,
            block ∈ blocks Examples.freezeProgram → inst ∈ block →
            (tmp, role, argType) ∈ instTmps inst → tmp ≠ 0) as Hnonzero.
  { intros block inst tmp role argType Hblock Hinst Htmp.
    assert (forallb (λ block, forallb (λ inst,
              forallb (λ x, negb (x.1.1 =? 0)) (instTmps inst)) block)
              (blocks Examples.freezeProgram) = true) as Hall
      by (vm_compute; reflexivity).
    apply list_elem_of_In in Hblock, Hinst, Htmp.
    pose proof (proj1 (forallb_forall _ _) Hall _ Hblock) as H1. cbn beta in H1.
    pose proof (proj1 (forallb_forall _ _) H1 _ Hinst) as H2. cbn beta in H2.
    pose proof (proj1 (forallb_forall _ _) H2 _ Htmp) as H3. cbn in H3.
    apply negb_true_iff, Z.eqb_neq in H3. exact H3. }
  assert (∃ s, mainLoop Examples.demoTarget GP 20
                 (makeWorkList Examples.demoTarget GP
                    (buildCode Examples.demoTarget GP
                       (Examples.blockLiveness Examples.freezeProgram)
                       Examples.freezeProgram)) = Some s) as [s Hs].
  { eexists. vm_compute. reflexivity. }
  exists s. split; [exact Hs|].
  destruct (allocate_loop_ends_in_order Examples.demoTarget GP
              (Examples.blockLiveness Examples.freezeProgram) Examples.freezeProgram 20 s
              Hcode Hnonzero Hs) as (Hempty & Hgraph & _).
  split; [exact Hempty|exact Hgraph].
Defined.

End AllocateFacts.
